(** * The channel reconciler of alertmanager-irc-relay (reconciler.go)

    A shallow embedding of [channelState] and [ChannelReconciler]: the Go
    heap (channels, loops, goroutines, contexts) is an explicit store, every
    method is a function on that store, and each [Monitor] goroutine is a
    small-step machine whose blocking points are resolved by an event
    supplied from outside (the scheduler, the clock, the delayer). *)

From stdpp Require Import gmap strings list fin_maps.
From Stdlib Require Import ZArith.

Local Open Scope Z_scope.
Local Open Scope nat_scope.

(** ** Outcomes of a call

    [Ok] is a normal return, [Panic] a Go run-time panic (which ends the
    process), [Blocked] a call or step that cannot proceed yet. *)

Inductive Outcome (A : Type) : Type :=
| Ok (a : A)
| Panic
| Blocked.
Arguments Ok {A} a.
Arguments Panic {A}.
Arguments Blocked {A}.

#[global] Instance Outcome_ret : MRet Outcome := @Ok.
#[global] Instance Outcome_bind : MBind Outcome := λ A B f m,
  match m with Ok a => f a | Panic => Panic | Blocked => Blocked end.

(** Dereferencing a pointer or an interface value: nil panics. *)
Definition deref {A} (p : option A) : Outcome A :=
  match p with Some a => Ok a | None => Panic end.

(** ** Constants and plain data *)

Definition Second : Z := 1000000000.          (* time.Second, in nanoseconds *)
Definition ircJoinWaitSecs : Z := 10.
Definition ircJoinMaxBackoffSecs : Z := 300.
Definition ircJoinBackoffResetSecs : Z := 1800.

Record IRCChannel := { Name : string; Password : string }.

(** Modelled from the spec: the Delayer collaborator and its factory are not
    part of reconciler.go.  The spec describes the factory as producing, per
    channel, a delayer parameterized by (maxDelay, resetAfter, initialDelay),
    with one operation that waits out the current step, is cancellable, and
    returns whether it completed or was cancelled.  Its waiting algorithm is
    outside the core, so a delayer is the record of the three bounds it was
    built with, and the result of one [DelayContext] call is an event of the
    goroutine that waits in it: "elapsed" at any time, "cancelled" only once
    the context is done. *)
Record Delayer := { maxDelay : Z; resetAfter : Z; initialDelay : Z }.
Definition NewDelayer (maxBackoff resetDelta : Z) (unit : Z) : Delayer :=
  {| maxDelay := maxBackoff; resetAfter := resetDelta; initialDelay := unit |}.

(** ** Contexts

    [context.Context] values.  [Extern k] is a context owned by the caller
    of [Start] (its end is an event of the environment); [CancelCtx k p] is
    the k-th context made by [context.WithCancel p]. *)

Inductive CtxErr := Canceled | DeadlineExceeded.

Inductive Context :=
| Extern (k : nat)
| CancelCtx (k : nat) (parent : Context).

#[global] Instance CtxErr_eq_dec : EqDecision CtxErr.
Proof. solve_decision. Defined.
#[global] Instance Context_eq_dec : EqDecision Context.
Proof. solve_decision. Defined.

(** [ctx.Err()]: a context's own cancellation comes first, otherwise it
    inherits the error of its parent. *)
Fixpoint ctxErr (ext : gmap nat CtxErr) (own : list bool) (c : Context)
  : option CtxErr :=
  match c with
  | Extern k => ext !! k
  | CancelCtx k p =>
      if default false (own !! k) then Some Canceled else ctxErr ext own p
  end.

(** ** channelState *)

Record channelState := {
  channel : IRCChannel;
  delayer : Delayer;
  joinDone : nat;          (* address of a [chan struct{}]; joined when closed *)
  joined : bool;
  joinUnsetSignal : nat    (* address of the unbuffered [chan bool] *)
}.

(** ** Goroutines running [Monitor] *)

Inductive PC :=
| LoopHead                       (* about to test ctx.Err() != context.Canceled *)
| Delaying                       (* join: inside delayer.DelayContext(ctx) *)
| Requested                      (* join: client.Join sent, select not yet entered *)
| JoinWait (done : nat) (window : Z)
                                 (* join: in select on the captured JoinDone(),
                                    time.After(window) and ctx.Done() *)
| Parking                        (* monitorJoinUnset: select not yet entered *)
| Parked (sig : nat)             (* monitorJoinUnset: in select on sig and ctx.Done() *)
| Exited.                        (* Monitor returned; wg.Done() has run *)

#[global] Instance PC_eq_dec : EqDecision PC.
Proof. solve_decision. Defined.

Record Task := { t_loop : nat; t_scope : option Context; t_pc : PC }.

Definition with_pc (pc : PC) (tk : Task) : Task :=
  {| t_loop := t_loop tk; t_scope := t_scope tk; t_pc := pc |}.

(** What lets a goroutine take its next step.  Time is not measured: when a
    delay or the join window has elapsed is decided by whoever supplies the
    event. *)
Inductive Event :=
| EvRun              (* the goroutine is scheduled (no wait involved) *)
| EvDelayElapsed     (* DelayContext returns true *)
| EvDelayCancelled   (* DelayContext returns false *)
| EvJoinDone         (* select: receive on the captured joinDone *)
| EvTimeout          (* select: the time.After channel fires *)
| EvCtxDone.         (* select: receive on ctx.Done() *)

(** ** The store

    The fields of [ChannelReconciler] come first; then the heap of channel
    objects ([chans]: closed flag by address), of [channelState] objects
    ([loops]) and of goroutines ([tasks]); then the contexts; then the
    protocol client ([me] is client.Me().Nick, [sent] the Join requests it
    was given) and the log. *)

Record State := {
  preJoinChannels : list IRCChannel;
  channels : gmap string nat;
  stopCtx : option Context;
  stopCtxCancel : option Context;
  stopWg : nat;
  loops : list channelState;
  chans : list bool;
  tasks : list Task;
  cancelled : list bool;
  externs : gmap nat CtxErr;
  me : string;
  sent : list (string * string);
  logs : list string
}.

Definition set_channels (f : gmap string nat → gmap string nat) (s : State) : State :=
  {| preJoinChannels := preJoinChannels s; channels := f (channels s);
     stopCtx := stopCtx s; stopCtxCancel := stopCtxCancel s; stopWg := stopWg s;
     loops := loops s; chans := chans s; tasks := tasks s;
     cancelled := cancelled s; externs := externs s;
     me := me s; sent := sent s; logs := logs s |}.

Definition set_scope (c : Context) (s : State) : State :=
  {| preJoinChannels := preJoinChannels s; channels := channels s;
     stopCtx := Some c; stopCtxCancel := Some c; stopWg := stopWg s;
     loops := loops s; chans := chans s; tasks := tasks s;
     cancelled := cancelled s; externs := externs s;
     me := me s; sent := sent s; logs := logs s |}.

Definition set_stopWg (n : nat) (s : State) : State :=
  {| preJoinChannels := preJoinChannels s; channels := channels s;
     stopCtx := stopCtx s; stopCtxCancel := stopCtxCancel s; stopWg := n;
     loops := loops s; chans := chans s; tasks := tasks s;
     cancelled := cancelled s; externs := externs s;
     me := me s; sent := sent s; logs := logs s |}.

Definition set_loops (f : list channelState → list channelState) (s : State) : State :=
  {| preJoinChannels := preJoinChannels s; channels := channels s;
     stopCtx := stopCtx s; stopCtxCancel := stopCtxCancel s; stopWg := stopWg s;
     loops := f (loops s); chans := chans s; tasks := tasks s;
     cancelled := cancelled s; externs := externs s;
     me := me s; sent := sent s; logs := logs s |}.

Definition set_chans (f : list bool → list bool) (s : State) : State :=
  {| preJoinChannels := preJoinChannels s; channels := channels s;
     stopCtx := stopCtx s; stopCtxCancel := stopCtxCancel s; stopWg := stopWg s;
     loops := loops s; chans := f (chans s); tasks := tasks s;
     cancelled := cancelled s; externs := externs s;
     me := me s; sent := sent s; logs := logs s |}.

Definition set_tasks (f : list Task → list Task) (s : State) : State :=
  {| preJoinChannels := preJoinChannels s; channels := channels s;
     stopCtx := stopCtx s; stopCtxCancel := stopCtxCancel s; stopWg := stopWg s;
     loops := loops s; chans := chans s; tasks := f (tasks s);
     cancelled := cancelled s; externs := externs s;
     me := me s; sent := sent s; logs := logs s |}.

Definition set_cancelled (f : list bool → list bool) (s : State) : State :=
  {| preJoinChannels := preJoinChannels s; channels := channels s;
     stopCtx := stopCtx s; stopCtxCancel := stopCtxCancel s; stopWg := stopWg s;
     loops := loops s; chans := chans s; tasks := tasks s;
     cancelled := f (cancelled s); externs := externs s;
     me := me s; sent := sent s; logs := logs s |}.

Definition set_externs (f : gmap nat CtxErr → gmap nat CtxErr) (s : State) : State :=
  {| preJoinChannels := preJoinChannels s; channels := channels s;
     stopCtx := stopCtx s; stopCtxCancel := stopCtxCancel s; stopWg := stopWg s;
     loops := loops s; chans := chans s; tasks := tasks s;
     cancelled := cancelled s; externs := f (externs s);
     me := me s; sent := sent s; logs := logs s |}.

Definition set_sent (f : list (string * string) → list (string * string)) (s : State) : State :=
  {| preJoinChannels := preJoinChannels s; channels := channels s;
     stopCtx := stopCtx s; stopCtxCancel := stopCtxCancel s; stopWg := stopWg s;
     loops := loops s; chans := chans s; tasks := tasks s;
     cancelled := cancelled s; externs := externs s;
     me := me s; sent := f (sent s); logs := logs s |}.

(** [log.Printf] with the message already formatted. *)
Definition Printf (msg : string) (s : State) : State :=
  {| preJoinChannels := preJoinChannels s; channels := channels s;
     stopCtx := stopCtx s; stopCtxCancel := stopCtxCancel s; stopWg := stopWg s;
     loops := loops s; chans := chans s; tasks := tasks s;
     cancelled := cancelled s; externs := externs s;
     me := me s; sent := sent s; logs := logs s ++ [msg] |}.

(** ** Channel objects and contexts in the store *)

(** [make(chan ...)]: the new object's address is the next free one. *)
Definition make_chan (s : State) : nat * State :=
  (length (chans s), set_chans (λ h, h ++ [false]) s).

(** Is a receive on the channel at [d] ready because it was closed? *)
Definition is_closed (d : nat) (s : State) : bool :=
  default false (chans s !! d).

(** [close(ch)]: closing a nil or an already closed channel panics. *)
Definition close (d : nat) (s : State) : Outcome State :=
  match chans s !! d with
  | Some false => Ok (set_chans (<[d := true]>) s)
  | _ => Panic
  end.

Definition Err (c : Context) (s : State) : option CtxErr :=
  ctxErr (externs s) (cancelled s) c.

(** Is [ctx.Done()] closed? *)
Definition ctx_done (c : Context) (s : State) : bool :=
  bool_decide (Err c s ≠ None).

(** [context.WithCancel(parent)]: the new context, which is also what its
    cancel function acts on. *)
Definition WithCancel (parent : Context) (s : State) : Context * State :=
  (CancelCtx (length (cancelled s)) parent, set_cancelled (λ o, o ++ [false]) s).

(** Calling the cancel function of [c]: the first end of a context wins, so
    cancelling a context that is already done changes nothing. *)
Definition cancel (c : Context) (s : State) : State :=
  match c with
  | CancelCtx k _ =>
      match Err c s with
      | None => set_cancelled (<[k := true]>) s
      | Some _ => s
      end
  | Extern _ => s
  end.

(** ** channelState methods

    Each method holds the loop's mutex from entry to return, so it is one
    atomic function of the store. *)

Definition newChannelState (ch : IRCChannel) (s : State) : nat * State :=
  let d := NewDelayer ircJoinMaxBackoffSecs ircJoinBackoffResetSecs Second in
  let '(jd, s1) := make_chan s in
  let '(ju, s2) := make_chan s1 in
  (length (loops s2),
   set_loops (λ h, h ++ [{| channel := ch; delayer := d; joinDone := jd;
                            joined := false; joinUnsetSignal := ju |}]) s2).

Definition JoinDone (c : nat) (s : State) : Outcome nat :=
  st ← deref (loops s !! c); Ok (joinDone st).

Definition with_joined (b : bool) (st : channelState) : channelState :=
  {| channel := channel st; delayer := delayer st; joinDone := joinDone st;
     joined := b; joinUnsetSignal := joinUnsetSignal st |}.

Definition with_joinDone (d : nat) (st : channelState) : channelState :=
  {| channel := channel st; delayer := delayer st; joinDone := d;
     joined := joined st; joinUnsetSignal := joinUnsetSignal st |}.

Definition SetJoined (c : nat) (s : State) : Outcome State :=
  st ← deref (loops s !! c);
  if joined st then
    Ok (Printf ("Not setting JOIN state on channel " +:+ Name (channel st)
                +:+ ": already set") s)
  else
    let s1 := Printf ("Setting JOIN state on channel " +:+ Name (channel st)) s in
    let s2 := set_loops (<[c := with_joined true st]>) s1 in
    close (joinDone st) s2.

(** The non-blocking send on [joinUnsetSignal]: it is taken by the first
    goroutine blocked receiving on that very channel, which then logs and
    returns to the loop head; with no such goroutine the [default] case runs
    and nothing happens. *)
Fixpoint poke_tasks (sig : nat) (ts : list Task) : option (list Task) :=
  match ts with
  | [] => None
  | tk :: ts' =>
      if decide (t_pc tk = Parked sig)
      then Some (with_pc LoopHead tk :: ts')
      else cons tk <$> poke_tasks sig ts'
  end.

Definition poke (st : channelState) (s : State) : State :=
  match poke_tasks (joinUnsetSignal st) (tasks s) with
  | Some ts =>
      Printf ("Channel " +:+ Name (channel st) +:+ " monitor: channel no longer joined")
             (set_tasks (λ _, ts) s)
  | None => s
  end.

Definition UnsetJoined (c : nat) (s : State) : Outcome State :=
  st ← deref (loops s !! c);
  if negb (joined st) then
    Ok (Printf ("Not removing JOIN state on channel " +:+ Name (channel st)
                +:+ ": already not set") s)
  else
    let s1 := Printf ("Removing JOIN state on channel " +:+ Name (channel st)) s in
    let '(d, s2) := make_chan s1 in
    let s3 := set_loops (<[c := with_joinDone d (with_joined false st)]>) s2 in
    Ok (poke st s3).

(** ** One step of a [Monitor] goroutine *)

Definition set_pc (t : nat) (pc : PC) (s : State) : State :=
  set_tasks (alter (with_pc pc) t) s.

(** [wg.Done()]: a negative counter panics. *)
Definition wgDone (s : State) : Outcome State :=
  match stopWg s with
  | O => Panic
  | S n => Ok (set_stopWg n s)
  end.

Definition client_Join (name password : string) (s : State) : State :=
  set_sent (λ l, l ++ [(name, password)]) s.

(** [join], resumed where the goroutine waits in it: in the delayer, before
    the select, or in the select. *)
Definition join (t : nat) (tk : Task) (ev : Event) (s : State) : Outcome State :=
  match t_pc tk, ev with
  | Delaying, EvDelayElapsed =>
      st ← deref (loops s !! t_loop tk);
      Ok (set_pc t Requested
            (Printf ("Channel " +:+ Name (channel st) +:+ " monitor: join request sent")
               (client_Join (Name (channel st)) (Password (channel st)) s)))
  | Delaying, EvDelayCancelled =>
      ctx ← deref (t_scope tk);
      if ctx_done ctx s then Ok (set_pc t LoopHead s) else Blocked
  | Requested, EvRun =>
      d ← JoinDone (t_loop tk) s;
      Ok (set_pc t (JoinWait d (ircJoinWaitSecs * Second)) s)
  | JoinWait d w, EvJoinDone =>
      st ← deref (loops s !! t_loop tk);
      if is_closed d s then
        Ok (set_pc t LoopHead
              (Printf ("Channel " +:+ Name (channel st) +:+ " monitor: join succeeded") s))
      else Blocked
  | JoinWait d w, EvTimeout =>
      st ← deref (loops s !! t_loop tk);
      Ok (set_pc t LoopHead
            (Printf ("Channel " +:+ Name (channel st)
                     +:+ " monitor: could not join after 10 seconds, will retry") s))
  | JoinWait d w, EvCtxDone =>
      ctx ← deref (t_scope tk);
      st ← deref (loops s !! t_loop tk);
      if ctx_done ctx s then
        Ok (set_pc t LoopHead
              (Printf ("Channel " +:+ Name (channel st)
                       +:+ " monitor: context canceled while waiting for join") s))
      else Blocked
  | _, _ => Blocked
  end.

(** [monitorJoinUnset], resumed before or in its select.  The receive on
    [joinUnsetSignal] is not a step of its own: it happens in [poke], together
    with the send. *)
Definition monitorJoinUnset (t : nat) (tk : Task) (ev : Event) (s : State)
  : Outcome State :=
  match t_pc tk, ev with
  | Parking, EvRun =>
      st ← deref (loops s !! t_loop tk);
      Ok (set_pc t (Parked (joinUnsetSignal st)) s)
  | Parked u, EvCtxDone =>
      ctx ← deref (t_scope tk);
      st ← deref (loops s !! t_loop tk);
      if ctx_done ctx s then
        Ok (set_pc t LoopHead
              (Printf ("Channel " +:+ Name (channel st)
                       +:+ " monitor: context canceled while monitoring") s))
      else Blocked
  | _, _ => Blocked
  end.

(** [Monitor]: at the loop head the goroutine tests its scope, returns (and
    runs the deferred [wg.Done()]) when it is [Canceled], and otherwise
    reads [joined] and enters [join], whose first action is a log line, or
    [monitorJoinUnset]. *)
Definition Monitor (t : nat) (ev : Event) (s : State) : Outcome State :=
  match tasks s !! t with
  | None => Blocked
  | Some tk =>
    match t_pc tk with
    | LoopHead =>
        match ev with
        | EvRun =>
            ctx ← deref (t_scope tk);
            if decide (Err ctx s = Some Canceled) then
              wgDone (set_pc t Exited s)
            else
              st ← deref (loops s !! t_loop tk);
              if joined st then Ok (set_pc t Parking s)
              else Ok (set_pc t Delaying
                         (Printf ("Channel " +:+ Name (channel st)
                                  +:+ " monitor: waiting to join") s))
        | _ => Blocked
        end
    | Delaying | Requested | JoinWait _ _ => join t tk ev s
    | Parking | Parked _ => monitorJoinUnset t tk ev s
    | Exited => Blocked
    end
  end.

(** Goroutines run while a caller is blocked: a schedule is a list of
    (goroutine, event) pairs, and an entry that is not enabled is skipped. *)
Fixpoint run_sched (sched : list (nat * Event)) (s : State) : Outcome State :=
  match sched with
  | [] => Ok s
  | (t, ev) :: rest =>
      match Monitor t ev s with
      | Ok s' => run_sched rest s'
      | Blocked => run_sched rest s
      | Panic => Panic
      end
  end.

(** ** ChannelReconciler

    Each method holds the reconciler's mutex from entry to return.  The
    client is taken to be a live connection (a nil client is not modelled). *)

Record Config := { IRCChannels : list IRCChannel }.

(** [nick] is what [client.Me().Nick] returns.  [registerHandlers] binds the
    client's JOIN lines to [HandleJoin] and its KICK lines to [HandleKick];
    in the system below these two are called directly. *)
Definition NewChannelReconciler (config : Config) (nick : string) : State :=
  {| preJoinChannels := IRCChannels config; channels := ∅;
     stopCtx := None; stopCtxCancel := None; stopWg := 0;
     loops := []; chans := []; tasks := [];
     cancelled := []; externs := ∅;
     me := nick; sent := []; logs := [] |}.

Definition HandleJoin (nick chname : string) (s : State) : Outcome State :=
  if decide (nick ≠ me s) then Ok s
  else
    let s1 := Printf ("Received JOIN confirmation for channel " +:+ chname) s in
    match channels s1 !! chname with
    | None => Ok (Printf ("Not processing JOIN for channel " +:+ chname
                          +:+ ": unknown channel") s1)
    | Some c => SetJoined c s1
    end.

Definition HandleKick (nick chname : string) (s : State) : Outcome State :=
  if decide (nick ≠ me s) then Ok s
  else
    let s1 := Printf ("Received KICK for channel " +:+ chname) s in
    match channels s1 !! chname with
    | None => Ok (Printf ("Not processing KICK for channel " +:+ chname
                          +:+ ": unknown channel") s1)
    | Some c => UnsetJoined c s1
    end.





Definition unsafeAddChannel (ch : IRCChannel) (s : State) : nat * State :=
  let '(c, s1) := newChannelState ch s in
  let s2 := set_stopWg (stopWg s1 + 1) s1 in
  let s3 := set_tasks (λ ts, ts ++ [{| t_loop := c; t_scope := stopCtx s2;
                                       t_pc := LoopHead |}]) s2 in
  (c, set_channels (<[Name ch := c]>) s3).

Definition JoinChannel (chname : string) (s : State)
  : Outcome (State * (bool * option nat)) :=
  let '(c, s1) :=
    match channels s !! chname with
    | Some c => (c, s)
    | None =>
        unsafeAddChannel {| Name := chname; Password := "" |}
          (Printf ("Request to JOIN new channel " +:+ chname) s)
    end in
  d ← JoinDone c s1;
  if is_closed d s1 then Ok (s1, (true, None))
  else d' ← JoinDone c s1; Ok (s1, (false, Some d')).

(** [stopWg.Wait()] returns once the counter is zero; the goroutines that
    run meanwhile are given by [sched]. *)
Definition unsafeStop (sched : list (nat * Event)) (s : State) : Outcome State :=
  match stopCtxCancel s with
  | None => Ok s
  | Some c =>
      s1 ← run_sched sched (cancel c s);
      if decide (stopWg s1 = 0) then Ok (set_channels (λ _, ∅) s1)
      else Blocked
  end.

Definition Stop (sched : list (nat * Event)) (s : State) : Outcome State :=
  unsafeStop sched s.

Definition add_all (chs : list IRCChannel) (s : State) : State :=
  foldl (λ acc ch, (unsafeAddChannel ch acc).2) s chs.

(** [context.WithCancel] panics on a nil parent. *)
Definition Start (parent : option Context) (sched : list (nat * Event)) (s : State)
  : Outcome State :=
  s1 ← unsafeStop sched s;
  p ← deref parent;
  let '(c, s2) := WithCancel p s1 in
  let s3 := set_scope c s2 in
  Ok (add_all (preJoinChannels s3) s3).

(** ** The whole system

    Calls on the reconciler are serialised by its mutex, so each is one
    atomic operation; goroutine steps and the end of a caller-owned context
    interleave with them.  The context given to [Start] is nil or one of the
    caller's own, [Extern k]. *)

Inductive Op :=
| OpStart (parent : option nat) (sched : list (nat * Event))
| OpStop (sched : list (nat * Event))
| OpJoinChannel (chname : string)
| OpHandleJoin (nick chname : string)
| OpHandleKick (nick chname : string)
| OpMonitor (t : nat) (ev : Event)
| OpCtxEnd (k : nat) (e : CtxErr).

Definition ctx_end (k : nat) (e : CtxErr) (s : State) : State :=
  match externs s !! k with
  | None => set_externs (<[k := e]>) s
  | Some _ => s
  end.

Definition step (op : Op) (s : State) : Outcome State :=
  match op with
  | OpStart parent sched => Start (Extern <$> parent) sched s
  | OpStop sched => Stop sched s
  | OpJoinChannel chname => r ← JoinChannel chname s; Ok r.1
  | OpHandleJoin nick chname => HandleJoin nick chname s
  | OpHandleKick nick chname => HandleKick nick chname s
  | OpMonitor t ev => Monitor t ev s
  | OpCtxEnd k e => Ok (ctx_end k e s)
  end.

Fixpoint run (ops : list Op) (s : State) : Outcome State :=
  match ops with
  | [] => Ok s
  | op :: rest => s' ← step op s; run rest s'
  end.

Definition reachable (s : State) : Prop :=
  ∃ config nick ops, run ops (NewChannelReconciler config nick) = Ok s.

(** ** Well-formedness of the store *)

(** The number of goroutines that have not returned. *)
Definition live (ts : list Task) : nat :=
  length (filter (λ tk, t_pc tk ≠ Exited) ts).

Definition rank (pc : PC) : nat :=
  match pc with
  | Exited => 0
  | LoopHead => 1
  | JoinWait _ _ => 2
  | Parked _ => 2
  | Requested => 3
  | Parking => 3
  | Delaying => 4
  end.

(** Every loop's signal is allocated, it is closed exactly when the loop is
    joined, and no two loops share a signal. *)
Definition inv_sig (s : State) : Prop :=
  (∀ i st, loops s !! i = Some st →
     joinDone st < length (chans s) ∧ is_closed (joinDone st) s = joined st) ∧
  (∀ i j sti stj, loops s !! i = Some sti → loops s !! j = Some stj →
     joinDone sti = joinDone stj → i = j).

(** The registry maps a name to a loop for the channel of that name. *)
Definition inv_reg (s : State) : Prop :=
  ∀ name c, channels s !! name = Some c →
    ∃ st, loops s !! c = Some st ∧ Name (channel st) = name.

(** Loop [i] is run by goroutine [i], and by no other. *)
Definition inv_tasks (s : State) : Prop :=
  length (tasks s) = length (loops s) ∧
  ∀ t tk, tasks s !! t = Some tk → t_loop tk = t.

(** The WaitGroup counts the goroutines that have not returned. *)
Definition inv_wg (s : State) : Prop :=
  stopWg s = live (tasks s).

(** A goroutine that still runs, or whose loop is registered, was spawned
    with no scope or with the current one; one that returned had a scope,
    now cancelled.  The current scope was made by [WithCancel]. *)
Definition inv_scope (s : State) : Prop :=
  stopCtxCancel s = stopCtx s ∧
  (∀ c, stopCtx s = Some c →
     ∃ k p, c = CancelCtx k p ∧ k < length (cancelled s)) ∧
  (∀ t tk, tasks s !! t = Some tk → t_pc tk ≠ Exited →
     t_scope tk = None ∨ t_scope tk = stopCtx s) ∧
  (∀ name c tk, channels s !! name = Some c → tasks s !! c = Some tk →
     t_scope tk = None ∨ t_scope tk = stopCtx s) ∧
  (∀ t tk, tasks s !! t = Some tk → t_pc tk = Exited →
     ∃ c, t_scope tk = Some c ∧ Err c s = Some Canceled).

(** Every scope a goroutine was spawned with was made by [WithCancel]. *)
Definition inv_fresh (s : State) : Prop :=
  ∀ t tk c, tasks s !! t = Some tk → t_scope tk = Some c →
    ∃ k p, c = CancelCtx k p ∧ k < length (cancelled s).

Record inv (s : State) : Prop := {
  inv_1 : inv_sig s;
  inv_2 : inv_reg s;
  inv_3 : inv_tasks s;
  inv_4 : inv_wg s;
  inv_5 : inv_scope s;
  inv_6 : inv_fresh s
}.

(** ** Auxiliary definitions

    Orders on the store, the shape of what a call creates, schedules, and
    the concrete stores used as examples. *)

Definition flags_le (o o' : list bool) : Prop :=
  ∀ k, o !! k = Some true → o' !! k = Some true.

Definition ctx_le (s s' : State) : Prop :=
  externs s ⊆ externs s' ∧ flags_le (cancelled s) (cancelled s').

(** The fields a goroutine step never touches. *)
Definition same_frame (s s' : State) : Prop :=
  preJoinChannels s' = preJoinChannels s ∧ channels s' = channels s ∧
  stopCtx s' = stopCtx s ∧ stopCtxCancel s' = stopCtxCancel s ∧
  loops s' = loops s ∧ chans s' = chans s ∧
  cancelled s' = cancelled s ∧ externs s' = externs s ∧ me s' = me s.

Definition new_loop (ch : IRCChannel) (s : State) : channelState :=
  {| channel := ch;
     delayer := NewDelayer ircJoinMaxBackoffSecs ircJoinBackoffResetSecs Second;
     joinDone := length (chans s); joined := false;
     joinUnsetSignal := length (chans s) + 1 |}.

Definition new_task (s : State) : Task :=
  {| t_loop := length (loops s); t_scope := stopCtx s; t_pc := LoopHead |}.

(** The store after [JoinChannel] had to create the loop. *)
Definition joined_new (chname : string) (s : State) : State :=
  (unsafeAddChannel {| Name := chname; Password := "" |}
     (Printf ("Request to JOIN new channel " +:+ chname) s)).2.

(** The events by which a goroutine leaves each wait once its scope is
    cancelled, in an order that takes it from any point to its return. *)
Definition finish (t : nat) : list (nat * Event) :=
  (λ ev, (t, ev)) <$> [EvRun; EvDelayCancelled; EvRun; EvCtxDone; EvRun].


(** How the distance to the return changes on such an event. *)
Definition rnext (r : nat) (ev : Event) : nat :=
  match r, ev with
  | 4, EvDelayCancelled => 1
  | 3, EvRun => 2
  | 2, EvCtxDone => 1
  | 1, EvRun => 0
  | _, _ => r
  end.


(** The schedule that runs goroutines 0 .. n-1 to their return, one after
    the other. *)
Fixpoint drain (n : nat) : list (nat * Event) :=
  match n with
  | 0 => []
  | S k => drain k ++ finish k
  end.

Definition is_Start (op : Op) : bool :=
  match op with OpStart _ _ => true | _ => false end.

(** The position of the last channel called [name] in a list. *)
Fixpoint last_index (name : string) (chs : list IRCChannel) : option nat :=
  match chs with
  | [] => None
  | ch :: rest =>
      match last_index name rest with
      | Some i => Some (S i)
      | None => if decide (Name ch = name) then Some 0 else None
      end
  end.

Definition from_ok (o : Outcome State) : State :=
  match o with
  | Ok s => s
  | _ => NewChannelReconciler {| IRCChannels := [] |} ""
  end.

Definition demo_config : Config :=
  {| IRCChannels := [ {| Name := "#a"; Password := "pw" |};
                      {| Name := "#b"; Password := "" |} ] |}.

Definition demo_init : State := NewChannelReconciler demo_config "relay".

(** Started on the caller's context 0; nothing has run yet. *)
Definition demo_started : State :=
  from_ok (run [OpStart (Some 0) []] demo_init).

(** Loop 0 has sent its request and was confirmed: "#a" is joined. *)
Definition demo_joined : State :=
  from_ok (run [OpStart (Some 0) []; OpMonitor 0 EvRun; OpMonitor 0 EvDelayElapsed;
                OpMonitor 0 EvRun; OpHandleJoin "relay" "#a"] demo_init).

(** "#a" is waiting in its delay when the caller's context is cancelled. *)
Definition demo_cancelled : State :=
  from_ok (run [OpStart (Some 0) []; OpMonitor 0 EvRun; OpCtxEnd 0 Canceled] demo_init).

(** Started, then stopped. *)
Definition demo_stopped : State :=
  from_ok (run [OpStart (Some 0) []; OpStop (drain 2)] demo_init).

(** "#c" was requested before any [Start]. *)
Definition demo_early : State :=
  from_ok (run [OpJoinChannel "#c"] demo_init).

(** The stopped reconciler is asked for "#c"; the new goroutine runs once. *)
Definition demo_detached : State :=
  from_ok (run [OpStart (Some 0) []; OpStop (drain 2); OpJoinChannel "#c";
                OpMonitor 2 EvRun] demo_init).

(** A goroutine without a scope is at the loop head; a parked goroutine
    waits on the wake channel of its own loop; wake channels are allocated
    and no two loops share one. *)
Definition inv_park (s : State) : Prop :=
  (∀ t tk, tasks s !! t = Some tk → t_scope tk = None → t_pc tk = LoopHead) ∧
  (∀ t tk u, tasks s !! t = Some tk → t_pc tk = Parked u →
     ∃ st, loops s !! t_loop tk = Some st ∧ joinUnsetSignal st = u) ∧
  (∀ i st, loops s !! i = Some st → joinUnsetSignal st < length (chans s)) ∧
  (∀ i j sti stj, loops s !! i = Some sti → loops s !! j = Some stj →
     joinUnsetSignal sti = joinUnsetSignal stj → i = j).

(** Every loop is for a channel of the desired list or has the empty
    password; every request given to the client names a loop's channel and
    carries its password. *)
Definition inv_sent (s : State) : Prop :=
  (∀ i st, loops s !! i = Some st →
     channel st ∈ preJoinChannels s ∨ Password (channel st) = "") ∧
  (∀ n p, (n, p) ∈ sent s →
     ∃ i st, loops s !! i = Some st ∧ channel st = {| Name := n; Password := p |}).

(** Every goroutine was spawned with a scope. *)
Definition scoped (s : State) : Prop :=
  ∀ t tk, tasks s !! t = Some tk → t_scope tk ≠ None.

Definition is_lifecycle (op : Op) : bool :=
  match op with OpStart _ _ | OpStop _ => true | _ => false end.

Definition is_nil_Start (op : Op) : bool :=
  match op with OpStart None _ => true | _ => false end.

Definition is_parked (pc : PC) : bool :=
  match pc with Parked _ => true | _ => false end.

(** "#a" has sent its first request. *)
Definition demo_requested : State :=
  from_ok (run [OpStart (Some 0) []; OpMonitor 0 EvRun; OpMonitor 0 EvDelayElapsed]
             demo_init).

(** "#a" is joined and its goroutine is parked. *)
Definition demo_parked : State :=
  from_ok (run [OpStart (Some 0) []; OpMonitor 0 EvRun; OpMonitor 0 EvDelayElapsed;
                OpMonitor 0 EvRun; OpHandleJoin "relay" "#a"; OpMonitor 0 EvJoinDone;
                OpMonitor 0 EvRun; OpMonitor 0 EvRun] demo_init).

(** "#a" is joined and its goroutine has read that, but is not parked yet. *)
Definition demo_parking : State :=
  from_ok (run [OpStart (Some 0) []; OpMonitor 0 EvRun; OpMonitor 0 EvDelayElapsed;
                OpMonitor 0 EvRun; OpHandleJoin "relay" "#a"; OpMonitor 0 EvJoinDone;
                OpMonitor 0 EvRun] demo_init).

(** [demo_joined], stopped. *)
Definition demo_joined_stopped : State :=
  from_ok (Stop (drain 2) demo_joined).

(** The signal at [d] is open and is the current signal of no registered
    loop. *)
Definition stale (d : nat) (s : State) : Prop :=
  d < length (chans s) ∧ is_closed d s = false ∧
  ∀ name c st, channels s !! name = Some c → loops s !! c = Some st →
    joinDone st ≠ d.

(** The signal at [d] is closed, or it is the current signal of the loop
    registered for [chname], which is not joined. *)
Definition pending (chname : string) (d : nat) (s : State) : Prop :=
  is_closed d s = true ∨
  ∃ c st, channels s !! chname = Some c ∧ loops s !! c = Some st ∧
          joinDone st = d ∧ joined st = false.

(** Restarted while nothing was joined; then "#b" is joined by its new
    loop. *)
Definition demo_restarted : State :=
  from_ok (step (OpStart (Some 0) (drain 2)) demo_started).

Definition demo_rejoined : State :=
  from_ok (run [OpMonitor 3 EvRun; OpMonitor 3 EvDelayElapsed; OpMonitor 3 EvRun;
                OpHandleJoin "relay" "#b"] demo_restarted).

(** "#a" is confirmed, kicked, and "#zz" is asked for. *)
Definition demo_kicked : State :=
  from_ok (run [OpMonitor 0 EvRun; OpHandleJoin "relay" "#a";
                OpHandleKick "relay" "#a"; OpJoinChannel "#zz"] demo_started).

(** A goroutine in the select of [join] waits for the ten-second window, on
    a signal that is closed or is the current signal of its loop. *)
Definition inv_wait (s : State) : Prop :=
  ∀ t tk d w, tasks s !! t = Some tk → t_pc tk = JoinWait d w →
    w = (ircJoinWaitSecs * Second)%Z ∧ d < length (chans s) ∧
    (is_closed d s = true ∨
     ∃ st, loops s !! t_loop tk = Some st ∧ joinDone st = d).

(** "#a" has sent its request and waits for the confirmation. *)
Definition demo_waiting : State :=
  from_ok (run [OpStart (Some 0) []; OpMonitor 0 EvRun; OpMonitor 0 EvDelayElapsed;
                OpMonitor 0 EvRun] demo_init).

(** Started on the caller's context 0, whose deadline then passes. *)
Definition demo_deadline : State :=
  from_ok (run [OpStart (Some 0) []; OpCtxEnd 0 DeadlineExceeded] demo_init).

(** ** Contexts only ever end *)

Lemma ctxErr_Canceled_mono ext ext' o o' c :
  ext ⊆ ext' → flags_le o o' →
  ctxErr ext o c = Some Canceled → ctxErr ext' o' c = Some Canceled.
Proof.
  intros Hext Ho. induction c as [k|k p IH]; simpl.
  - intros H. eapply lookup_weaken; eauto.
  - destruct (o !! k) as [[]|] eqn:E; simpl.
    + rewrite (Ho _ E). done.
    + intros H. rewrite (IH H). by destruct (default false (o' !! k)).
    + intros H. rewrite (IH H). by destruct (default false (o' !! k)).
Qed.

Lemma flags_le_refl o : flags_le o o.
Proof. by intros k. Qed.

Lemma flags_le_app o x : flags_le o (o ++ x).
Proof. intros k H. by apply lookup_app_l_Some. Qed.

Lemma flags_le_insert o k : flags_le o (<[k := true]> o).
Proof.
  intros j H. destruct (decide (k = j)) as [->|Hne].
  - apply list_lookup_insert_eq. by eapply lookup_lt_Some.
  - by rewrite list_lookup_insert_ne.
Qed.

Lemma ctx_le_refl s : ctx_le s s.
Proof. split; [done | apply flags_le_refl]. Qed.

Lemma ctx_le_trans s1 s2 s3 : ctx_le s1 s2 → ctx_le s2 s3 → ctx_le s1 s3.
Proof.
  intros [H1 H2] [H3 H4]. split; [by etrans | intros k Hk; auto].
Qed.

Lemma Err_Canceled_mono s s' c :
  ctx_le s s' → Err c s = Some Canceled → Err c s' = Some Canceled.
Proof. intros [H1 H2]. by apply ctxErr_Canceled_mono. Qed.

Lemma cancel_ctx_le c s : ctx_le s (cancel c s).
Proof.
  destruct c as [k|k p]; simpl; [apply ctx_le_refl|].
  unfold cancel. destruct (Err _ s); [apply ctx_le_refl|].
  split; simpl; [done | apply flags_le_insert].
Qed.

Lemma ctx_end_ctx_le k e s : ctx_le s (ctx_end k e s).
Proof.
  unfold ctx_end. destruct (externs s !! k) eqn:E; [apply ctx_le_refl|].
  split; simpl; [by apply insert_subseteq | apply flags_le_refl].
Qed.

(** After its cancel function ran, a context made by [WithCancel] is done;
    it is [Canceled] unless it had ended by a deadline before. *)
Lemma cancel_Err k p s :
  k < length (cancelled s) →
  Err (CancelCtx k p) (cancel (CancelCtx k p) s) =
    match Err (CancelCtx k p) s with None => Some Canceled | e => e end.
Proof.
  intros Hk. unfold cancel. destruct (Err (CancelCtx k p) s) eqn:E; [done|].
  unfold Err; simpl. by rewrite list_lookup_insert_eq.
Qed.

(** ** What each operation changes *)

Lemma alter_with_pc (ts : list Task) t tk pc :
  ts !! t = Some tk → alter (with_pc pc) t ts = <[t := with_pc pc tk]> ts.
Proof.
  intros Etk. apply list_eq. intros i. destruct (decide (t = i)) as [->|].
  - rewrite list_lookup_alter_eq, Etk. simpl.
    rewrite list_lookup_insert_eq; [done|]. by eapply lookup_lt_Some.
  - rewrite list_lookup_alter_ne, list_lookup_insert_ne; done.
Qed.

Ltac split_outcome H :=
  repeat (match type of H with
    | context [deref ?x] => destruct x eqn:?; simpl in H; try done
    | context [decide ?x] => destruct (decide x); simpl in H; try done
    | context [if ?x then _ else _] => destruct x eqn:?; simpl in H; try done
    end).

(** A step of goroutine [t] changes its program counter and nothing else of
    the reconciler; it returns only from the loop head, only with a
    cancelled scope, and then decrements the WaitGroup. *)
Lemma Monitor_Ok t ev s s' :
  Monitor t ev s = Ok s' →
  ∃ tk pc', tasks s !! t = Some tk ∧ t_pc tk ≠ Exited ∧
    tasks s' = <[t := with_pc pc' tk]> (tasks s) ∧
    same_frame s s' ∧
    ((pc' = Exited ∧ t_pc tk = LoopHead ∧
      (∃ c, t_scope tk = Some c ∧ Err c s = Some Canceled) ∧
      stopWg s = S (stopWg s')) ∨
     (pc' ≠ Exited ∧ stopWg s' = stopWg s)).
Proof.
  unfold Monitor, join, monitorJoinUnset, JoinDone, wgDone. intros H.
  destruct (tasks s !! t) as [tk|] eqn:Etk; [|done].
  exists tk.
  pose proof (λ pc, alter_with_pc _ _ _ pc Etk) as Halt.
  destruct (t_pc tk) eqn:Epc, ev; try done; simpl in H;
    split_outcome H;
    try (simpl in H; destruct (stopWg s) eqn:?; simpl in H; try done);
    injection H as <-; eexists; (split; [done|]); (split; [done|]);
    (split; [simpl; apply Halt|]); (split; [done|]); simpl;
    first [ by (right; split; [done|done]) | left; eauto 10 ].
Qed.

Lemma live_insert_run (l : list Task) t tk pc' :
  l !! t = Some tk → t_pc tk ≠ Exited → pc' ≠ Exited →
  live (<[t := with_pc pc' tk]> l) = live l.
Proof.
  unfold live. revert t. induction l as [|x l IH]; intros [|t]; simpl; try done.
  - intros [= ->] H1 H2. rewrite !filter_cons. simpl.
    destruct (decide (pc' ≠ Exited)), (decide (t_pc tk ≠ Exited)); done.
  - intros H H1 H2. rewrite !filter_cons.
    destruct (decide (t_pc x ≠ Exited)); simpl; rewrite IH; done.
Qed.

Lemma live_insert_exit (l : list Task) t tk :
  l !! t = Some tk → t_pc tk ≠ Exited →
  S (live (<[t := with_pc Exited tk]> l)) = live l.
Proof.
  unfold live. revert t. induction l as [|x l IH]; intros [|t]; simpl; try done.
  - intros [= ->] H1. rewrite !filter_cons. simpl.
    destruct (decide (Exited ≠ Exited)), (decide (t_pc tk ≠ Exited)); done.
  - intros H H1. rewrite !filter_cons.
    destruct (decide (t_pc x ≠ Exited)); simpl; rewrite <- (IH t); done.
Qed.

Lemma live_app (l1 l2 : list Task) : live (l1 ++ l2) = live l1 + live l2.
Proof. unfold live. by rewrite filter_app, length_app. Qed.

Lemma live_0 (l : list Task) t tk :
  live l = 0 → l !! t = Some tk → t_pc tk = Exited.
Proof.
  unfold live. revert t. induction l as [|x l IH]; intros t; [done|].
  rewrite filter_cons. destruct (decide (t_pc x ≠ Exited)) as [|Hx]; [done|].
  intros H. destruct t; simpl.
  - intros [= ->]. by destruct (decide (t_pc tk = Exited)).
  - by apply IH.
Qed.

Lemma live_all_exited (l : list Task) :
  (∀ t tk, l !! t = Some tk → t_pc tk = Exited) → live l = 0.
Proof.
  unfold live. induction l as [|x l IH]; intros H; [done|].
  rewrite filter_cons. rewrite (H 0 x eq_refl).
  destruct (decide (Exited ≠ Exited)); [done|].
  apply IH. intros t tk Ht. by apply (H (S t)).
Qed.

(** The update of one running goroutine keeps the store well-formed. *)
Lemma inv_task_update s s' t tk pc' :
  inv s → tasks s !! t = Some tk → t_pc tk ≠ Exited →
  tasks s' = <[t := with_pc pc' tk]> (tasks s) →
  same_frame s s' →
  ((pc' = Exited ∧ (∃ c, t_scope tk = Some c ∧ Err c s = Some Canceled) ∧
    stopWg s = S (stopWg s')) ∨
   (pc' ≠ Exited ∧ stopWg s' = stopWg s)) →
  inv s'.
Proof.
  intros [[S1 S2] R [T1 T2] W (C1 & C0 & C2 & C3 & C4) Fr] Htk Hrun Hts
    (_ & Fch & Fctx & Fcc & Flo & Fcs & Fca & Fex & _) Hwg.
  assert (Hlook : ∀ i x, tasks s' !! i = Some x →
            ∃ y, tasks s !! i = Some y ∧ t_loop x = t_loop y ∧
                 t_scope x = t_scope y ∧
                 (t_pc x = t_pc y ∨ (i = t ∧ y = tk ∧ t_pc x = pc'))).
  { intros i x. rewrite Hts. destruct (decide (t = i)) as [->|Hne].
    - rewrite list_lookup_insert_eq by (by eapply lookup_lt_Some).
      intros [= <-]. exists tk. eauto 10.
    - rewrite list_lookup_insert_ne by done. eauto 10. }
  assert (HErr : ∀ c, Err c s' = Err c s).
  { intros c. unfold Err. by rewrite Fca, Fex. }
  split.
  - split; unfold is_closed; rewrite ?Flo, ?Fcs; [apply S1 | apply S2].
  - unfold inv_reg. rewrite Fch, Flo. apply R.
  - split.
    + by rewrite Hts, length_insert, Flo.
    + intros i x Hx. destruct (Hlook i x Hx) as (y & Hy & -> & _). eauto.
  - unfold inv_wg in *. rewrite Hts.
    destruct Hwg as [(-> & _ & Hw)|[Hne Hw]].
    + pose proof (live_insert_exit _ _ _ Htk Hrun). lia.
    + rewrite (live_insert_run _ _ _ _ Htk Hrun Hne). lia.
  - repeat split.
    + by rewrite Fcc, Fctx.
    + rewrite Fctx, Fca. apply C0.
    + intros i x Hx Hpc. rewrite Fctx.
      destruct (Hlook i x Hx) as (y & Hy & _ & -> & [Hp|(-> & -> & Hp)]).
      * apply (C2 i y Hy). by rewrite <- Hp.
      * by apply (C2 t tk).
    + intros name c x. rewrite Fch, Fctx. intros Hn Hx.
      destruct (Hlook c x Hx) as (y & Hy & _ & -> & _). eauto.
    + intros i x Hx Hpc.
      destruct (Hlook i x Hx) as (y & Hy & _ & -> & [Hp|(-> & -> & Hp)]).
      * destruct (C4 i y Hy) as (c & ? & ?); [by rewrite <- Hp|].
        exists c. by rewrite HErr.
      * destruct Hwg as [(_ & (c & ? & ?) & _)|[Hne _]]; [|congruence].
        exists c. by rewrite HErr.
  - intros i x c Hx Hsc. rewrite Fca.
    destruct (Hlook i x Hx) as (y & Hy & _ & Hs & _). rewrite Hs in Hsc. eauto.
Qed.

Lemma inv_Monitor t ev s s' : inv s → Monitor t ev s = Ok s' → inv s'.
Proof.
  intros Hi H. destruct (Monitor_Ok _ _ _ _ H) as (tk & pc' & ? & ? & ? & ? & Hw).
  eapply inv_task_update; eauto.
  destruct Hw as [(? & ? & ? & ?)|?]; eauto.
Qed.

Lemma inv_Printf msg s : inv s → inv (Printf msg s).
Proof. intros []. split; assumption. Qed.

Lemma inv_client_Join n p s : inv s → inv (client_Join n p s).
Proof. intros []. split; assumption. Qed.

Lemma run_sched_inv sched s s' : inv s → run_sched sched s = Ok s' → inv s'.
Proof.
  revert s. induction sched as [|[t ev] rest IH]; intros s Hi; simpl.
  - by intros [= <-].
  - destruct (Monitor t ev s) eqn:E; [|done|]; eauto using inv_Monitor.
Qed.

Lemma run_sched_frame sched s s' :
  run_sched sched s = Ok s' →
  same_frame s s' ∧ length (tasks s') = length (tasks s).
Proof.
  revert s. induction sched as [|[t ev] rest IH]; intros s; simpl.
  - intros [= <-]. by repeat split.
  - destruct (Monitor t ev s) as [s1| |] eqn:E; [|done|by apply IH].
    intros H. destruct (IH _ H) as [F L].
    destruct (Monitor_Ok _ _ _ _ E) as (tk & pc' & _ & _ & Hts & F1 & _).
    split.
    + unfold same_frame in *. intuition congruence.
    + by rewrite L, Hts, length_insert.
Qed.

(** *** SetJoined and UnsetJoined *)

Lemma SetJoined_Ok c s s' :
  SetJoined c s = Ok s' →
  ∃ st, loops s !! c = Some st ∧
    ((joined st = true ∧
      s' = Printf ("Not setting JOIN state on channel " +:+ Name (channel st)
                   +:+ ": already set") s) ∨
     (joined st = false ∧ chans s !! joinDone st = Some false ∧
      s' = set_chans (<[joinDone st := true]>)
             (set_loops (<[c := with_joined true st]>)
                (Printf ("Setting JOIN state on channel " +:+ Name (channel st)) s)))).
Proof.
  unfold SetJoined, close. intros H.
  destruct (loops s !! c) as [st|] eqn:E; [|done]. exists st. split; [done|].
  simpl in H. destruct (joined st) eqn:Ej.
  - left. by injection H as <-.
  - right. simpl in H. destruct (chans s !! joinDone st) as [[]|] eqn:Ec; try done.
    by injection H as <-.
Qed.

Lemma inv_SetJoined c s s' : inv s → SetJoined c s = Ok s' → inv s'.
Proof.
  intros Hi H. destruct (SetJoined_Ok _ _ _ H) as (st & Hst & [[_ ->]|(Hj & Hc & ->)]).
  { by apply inv_Printf. }
  destruct Hi as [[S1 S2] R [T1 T2] W C Fr].
  assert (Hlook : ∀ i x, <[c := with_joined true st]> (loops s) !! i = Some x →
            ∃ y, loops s !! i = Some y ∧ joinDone x = joinDone y ∧
                 channel x = channel y ∧
                 ((i = c ∧ y = st ∧ joined x = true) ∨ (i ≠ c ∧ x = y))).
  { intros i x. destruct (decide (c = i)) as [->|Hne].
    - rewrite list_lookup_insert_eq by (by eapply lookup_lt_Some).
      intros [= <-]. exists st. eauto 10.
    - rewrite list_lookup_insert_ne by done. eauto 10. }
  split; simpl.
  - split; simpl; unfold is_closed; simpl.
    + intros i x Hx. rewrite length_insert.
      destruct (Hlook i x Hx) as (y & Hy & -> & _ & [(-> & -> & ->)|[Hne ->]]).
      * destruct (S1 _ _ Hst) as [Hlt _]. split; [done|].
        by rewrite list_lookup_insert_eq.
      * destruct (S1 _ _ Hy) as [Hlt Hcl]. split; [done|].
        rewrite list_lookup_insert_ne; [done|].
        intros Heq. apply Hne. symmetry. eapply S2; eauto.
    + intros i j x y Hx Hy.
      destruct (Hlook i x Hx) as (x' & Hx' & -> & _).
      destruct (Hlook j y Hy) as (y' & Hy' & -> & _). eauto.
  - intros name c' Hn. simpl. destruct (R _ _ Hn) as (x & Hx & Hname).
    destruct (decide (c = c')) as [->|Hne].
    + rewrite list_lookup_insert_eq by (by eapply lookup_lt_Some).
      eexists; split; [done|]. simpl. congruence.
    + rewrite list_lookup_insert_ne by done. eauto.
  - split; simpl; [by rewrite length_insert | done].
  - done.
  - done.
  - done.
Qed.

(** The non-blocking send wakes at most one goroutine, which was parked. *)
Lemma poke_tasks_Some sig ts ts' :
  poke_tasks sig ts = Some ts' →
  ∃ i tk, ts !! i = Some tk ∧ t_pc tk = Parked sig ∧
          ts' = <[i := with_pc LoopHead tk]> ts.
Proof.
  revert ts'. induction ts as [|x ts IH]; intros ts'; simpl; [done|].
  destruct (decide (t_pc x = Parked sig)) as [Hp|Hp].
  - intros [= <-]. by exists 0, x.
  - destruct (poke_tasks sig ts) as [r|]; [|done]. simpl. intros [= <-].
    destruct (IH r eq_refl) as (i & tk & ? & ? & ->). by exists (S i), tk.
Qed.

Lemma inv_poke st s : inv s → inv (poke st s).
Proof.
  intros Hi. unfold poke.
  destruct (poke_tasks _ (tasks s)) as [ts|] eqn:E; [|done].
  apply inv_Printf.
  destruct (poke_tasks_Some _ _ _ E) as (i & tk & Hi1 & Hp & ->).
  eapply (inv_task_update s _ i tk LoopHead); eauto.
  - by rewrite Hp.
  - by repeat split.
Qed.

Lemma UnsetJoined_Ok c s s' :
  UnsetJoined c s = Ok s' →
  ∃ st, loops s !! c = Some st ∧
    ((joined st = false ∧
      s' = Printf ("Not removing JOIN state on channel " +:+ Name (channel st)
                   +:+ ": already not set") s) ∨
     (joined st = true ∧
      s' = poke st
             (set_loops (<[c := with_joinDone (length (chans s)) (with_joined false st)]>)
                (set_chans (λ h, h ++ [false])
                   (Printf ("Removing JOIN state on channel " +:+ Name (channel st)) s))))).
Proof.
  unfold UnsetJoined. intros H.
  destruct (loops s !! c) as [st|] eqn:E; [|done]. exists st. split; [done|].
  simpl in H. destruct (joined st) eqn:Ej; simpl in H.
  - right. by injection H as <-.
  - left. by injection H as <-.
Qed.

Lemma inv_UnsetJoined c s s' : inv s → UnsetJoined c s = Ok s' → inv s'.
Proof.
  intros Hi H. destruct (UnsetJoined_Ok _ _ _ H) as (st & Hst & [[_ ->]|(Hj & ->)]).
  { by apply inv_Printf. }
  apply inv_poke.
  destruct Hi as [[S1 S2] R [T1 T2] W C Fr].
  set (st' := with_joinDone (length (chans s)) (with_joined false st)).
  assert (Hlook : ∀ i x, <[c := st']> (loops s) !! i = Some x →
            (i = c ∧ x = st') ∨ (i ≠ c ∧ loops s !! i = Some x)).
  { intros i x. destruct (decide (c = i)) as [->|Hne].
    - rewrite list_lookup_insert_eq by (by eapply lookup_lt_Some).
      intros [= <-]. by left.
    - rewrite list_lookup_insert_ne by done. eauto. }
  split; simpl.
  - split; simpl; unfold is_closed; simpl.
    + intros i x Hx. rewrite length_app. simpl.
      destruct (Hlook i x Hx) as [[-> ->]|[Hne Hy]]; simpl.
      * split; [lia|]. rewrite lookup_app_r by lia.
        by replace (length (chans s) - length (chans s)) with 0 by lia.
      * destruct (S1 _ _ Hy) as [Hlt Hcl]. split; [lia|].
        by rewrite lookup_app_l.
    + intros i j x y Hx Hy.
      destruct (Hlook i x Hx) as [[-> ->]|[Hi' Hx']],
               (Hlook j y Hy) as [[-> ->]|[Hj' Hy']]; simpl; try done.
      * intros Heq. destruct (S1 _ _ Hy'). lia.
      * intros Heq. destruct (S1 _ _ Hx'). lia.
      * eauto.
  - intros name c' Hn. simpl. destruct (R _ _ Hn) as (x & Hx & Hname).
    destruct (decide (c = c')) as [->|Hne].
    + rewrite list_lookup_insert_eq by (by eapply lookup_lt_Some).
      eexists; split; [done|]. simpl. congruence.
    + rewrite list_lookup_insert_ne by done. eauto.
  - split; simpl; [by rewrite length_insert | done].
  - done.
  - done.
  - done.
Qed.

(** *** unsafeAddChannel *)

Lemma unsafeAddChannel_eq ch s :
  unsafeAddChannel ch s =
  (length (loops s),
   set_channels (<[Name ch := length (loops s)]>)
     (set_tasks (λ ts, ts ++ [new_task s])
        (set_stopWg (stopWg s + 1)
           (set_loops (λ h, h ++ [new_loop ch s])
              (set_chans (λ h, (h ++ [false]) ++ [false]) s))))).
Proof.
  unfold unsafeAddChannel, newChannelState, make_chan, new_loop, new_task. simpl.
  rewrite length_app. reflexivity.
Qed.

Lemma inv_unsafeAddChannel ch s : inv s → inv (unsafeAddChannel ch s).2.
Proof.
  rewrite unsafeAddChannel_eq. simpl.
  intros [[S1 S2] R [T1 T2] W (C1 & C0 & C2 & C3 & C4) Fr].
  assert (Hlook : ∀ i x, (loops s ++ [new_loop ch s]) !! i = Some x →
            (i = length (loops s) ∧ x = new_loop ch s) ∨
            (i < length (loops s) ∧ loops s !! i = Some x)).
  { intros i x Hx. apply lookup_app_Some in Hx as [Hx|[Hge Hx]].
    - right. split; [by eapply lookup_lt_Some | done].
    - left. apply list_lookup_singleton_Some in Hx as [Hi <-]. split; [lia|done]. }
  assert (Htask : ∀ i x, (tasks s ++ [new_task s]) !! i = Some x →
            (i = length (loops s) ∧ x = new_task s) ∨
            (i < length (loops s) ∧ tasks s !! i = Some x)).
  { intros i x Hx. apply lookup_app_Some in Hx as [Hx|[Hge Hx]].
    - right. split; [rewrite <- T1; by eapply lookup_lt_Some | done].
    - left. apply list_lookup_singleton_Some in Hx as [Hi <-]. split; [lia|done]. }
  split; simpl.
  - split; simpl; unfold is_closed; simpl.
    + intros i x Hx. rewrite !length_app. simpl.
      destruct (Hlook i x Hx) as [[-> ->]|[Hlt Hy]]; simpl.
      * split; [lia|]. rewrite lookup_app_l by (rewrite length_app; simpl; lia).
        rewrite lookup_app_r by lia.
        by replace (length (chans s) - length (chans s)) with 0 by lia.
      * destruct (S1 _ _ Hy) as [Hl Hcl]. split; [lia|].
        rewrite <- app_assoc. by rewrite lookup_app_l.
    + intros i j x y Hx Hy.
      destruct (Hlook i x Hx) as [[-> ->]|[Hi' Hx']],
               (Hlook j y Hy) as [[-> ->]|[Hj' Hy']]; simpl; try done.
      * intros Heq. destruct (S1 _ _ Hy'). lia.
      * intros Heq. destruct (S1 _ _ Hx'). lia.
      * eauto.
  - intros name c. simpl. destruct (decide (Name ch = name)) as [<-|Hne].
    + rewrite lookup_insert_eq. intros [= <-]. exists (new_loop ch s).
      split; [|done]. rewrite lookup_app_r by lia.
      by replace (length (loops s) - length (loops s)) with 0 by lia.
    + rewrite lookup_insert_ne by done. intros Hn.
      destruct (R _ _ Hn) as (x & Hx & Hname). exists x.
      split; [by apply lookup_app_l_Some | done].
  - split; simpl.
    + rewrite !length_app. simpl. lia.
    + intros i x Hx. destruct (Htask i x Hx) as [[-> ->]|[_ Hy]]; [done|eauto].
  - unfold inv_wg in *. simpl. rewrite live_app, W. done.
  - repeat split; simpl.
    + done.
    + done.
    + intros i x Hx Hpc. destruct (Htask i x Hx) as [[-> ->]|[_ Hy]]; [by right|eauto].
    + intros name c x Hn Hx.
      destruct (Htask c x Hx) as [[-> ->]|[Hlt Hy]]; [by right|].
      destruct (decide (Name ch = name)) as [<-|Hne].
      * rewrite lookup_insert_eq in Hn. injection Hn as <-. lia.
      * rewrite lookup_insert_ne in Hn by done. eauto.
    + intros i x Hx Hpc. destruct (Htask i x Hx) as [[-> ->]|[_ Hy]]; [done|eauto].
  - intros i x c Hx Hsc. simpl.
    destruct (Htask i x Hx) as [[-> ->]|[_ Hy]]; [by apply C0 | eauto].
Qed.

Lemma inv_add_all chs s : inv s → inv (add_all chs s).
Proof.
  unfold add_all. revert s. induction chs as [|ch chs IH]; intros s Hi; simpl; [done|].
  apply IH. by apply inv_unsafeAddChannel.
Qed.

(** *** Contexts, Stop and Start *)

(** Operations that touch only the contexts, and only by ending some. *)
Lemma inv_ctx_change s s' :
  inv s → ctx_le s s' →
  channels s' = channels s → stopCtx s' = stopCtx s →
  stopCtxCancel s' = stopCtxCancel s → stopWg s' = stopWg s →
  loops s' = loops s → chans s' = chans s → tasks s' = tasks s →
  length (cancelled s') = length (cancelled s) →
  inv s'.
Proof.
  intros [[S1 S2] R [T1 T2] W (C1 & C0 & C2 & C3 & C4) Fr] Hle E1 E2 E3 E4 E5 E6 E7 E8.
  split.
  - split; unfold is_closed; rewrite ?E5, ?E6; [apply S1 | apply S2].
  - unfold inv_reg. rewrite E1, E5. apply R.
  - unfold inv_tasks. by rewrite E7, E5.
  - unfold inv_wg. by rewrite E4, E7.
  - unfold inv_scope. rewrite E1, E2, E3, E7, E8. repeat split; try done.
    intros t tk Ht Hp. destruct (C4 t tk Ht Hp) as (c & ? & ?).
    exists c. split; [done|]. by eapply Err_Canceled_mono.
  - unfold inv_fresh. rewrite E7, E8. apply Fr.
Qed.

Lemma cancel_fields c s :
  channels (cancel c s) = channels s ∧ stopCtx (cancel c s) = stopCtx s ∧
  stopCtxCancel (cancel c s) = stopCtxCancel s ∧ stopWg (cancel c s) = stopWg s ∧
  loops (cancel c s) = loops s ∧ chans (cancel c s) = chans s ∧
  tasks (cancel c s) = tasks s ∧
  length (cancelled (cancel c s)) = length (cancelled s) ∧
  externs (cancel c s) = externs s ∧
  preJoinChannels (cancel c s) = preJoinChannels s.
Proof.
  destruct c as [k|k p]; [done|]. unfold cancel.
  destruct (Err _ s); [done|]. simpl. by rewrite length_insert.
Qed.

Lemma inv_cancel c s : inv s → inv (cancel c s).
Proof.
  intros Hi. pose proof (cancel_fields c s) as (?&?&?&?&?&?&?&?&?&?).
  eapply inv_ctx_change; eauto using cancel_ctx_le.
Qed.

Lemma inv_ctx_end k e s : inv s → inv (ctx_end k e s).
Proof.
  intros Hi. eapply inv_ctx_change; eauto using ctx_end_ctx_le;
    unfold ctx_end; by destruct (externs s !! k).
Qed.

Lemma unsafeStop_Ok sched s s' :
  unsafeStop sched s = Ok s' →
  (stopCtxCancel s = None ∧ s' = s) ∨
  (∃ c s1, stopCtxCancel s = Some c ∧ run_sched sched (cancel c s) = Ok s1 ∧
           stopWg s1 = 0 ∧ s' = set_channels (λ _, ∅) s1).
Proof.
  unfold unsafeStop. destruct (stopCtxCancel s) as [c|]; [|intros [= <-]; by left].
  destruct (run_sched sched (cancel c s)) as [s1| |] eqn:E; simpl; try done.
  destruct (decide (stopWg s1 = 0)); [|done]. intros [= <-]. right.
  by exists c, s1.
Qed.

Lemma inv_clear s : inv s → inv (set_channels (λ _, ∅) s).
Proof.
  intros [S R T W (C1 & C0 & C2 & C3 & C4) Fr]. split; done.
Qed.

Lemma inv_unsafeStop sched s s' : inv s → unsafeStop sched s = Ok s' → inv s'.
Proof.
  intros Hi H.
  destruct (unsafeStop_Ok _ _ _ H) as [[_ ->]|(c & s1 & _ & Hr & _ & ->)]; [done|].
  apply inv_clear. eapply run_sched_inv; [|done]. by apply inv_cancel.
Qed.

(** After [unsafeStop], whatever still runs or is registered has no scope. *)
Lemma unsafeStop_scopes sched s s' :
  inv s → unsafeStop sched s = Ok s' →
  (∀ t tk, tasks s' !! t = Some tk → t_pc tk ≠ Exited → t_scope tk = None) ∧
  (∀ name c tk, channels s' !! name = Some c → tasks s' !! c = Some tk →
     t_scope tk = None).
Proof.
  intros Hi H.
  destruct (unsafeStop_Ok _ _ _ H) as [[Hn ->]|(c & s1 & _ & Hr & Hw & ->)].
  - destruct Hi as [_ _ _ _ (C1 & _ & C2 & C3 & _)]. rewrite Hn in C1.
    rewrite <- C1 in C2, C3. split.
    + intros t tk Ht Hp. by destruct (C2 t tk Ht Hp).
    + intros name c tk Hc Ht. by destruct (C3 name c tk Hc Ht).
  - assert (Hi1 : inv s1) by (eapply run_sched_inv; [|done]; by apply inv_cancel).
    split; simpl.
    + intros t tk Ht Hp. destruct Hp. eapply live_0; [|done].
      destruct Hi1 as [_ _ _ W _]. by rewrite <- W.
    + intros name c' tk. by rewrite lookup_empty.
Qed.

Lemma inv_new_scope p s :
  inv s →
  (∀ t tk, tasks s !! t = Some tk → t_pc tk ≠ Exited → t_scope tk = None) →
  (∀ name c tk, channels s !! name = Some c → tasks s !! c = Some tk →
     t_scope tk = None) →
  inv (set_scope (WithCancel p s).1 (WithCancel p s).2).
Proof.
  intros [S R T W (C1 & C0 & C2 & C3 & C4) Fr] H1 H2. split; try done.
  - repeat split; simpl; try done.
    + intros c [= <-]. eexists _, _. split; [done|]. rewrite length_app. simpl. lia.
    + intros t tk Ht Hp. left. eauto.
    + intros name c tk Hc Ht. left. eauto.
    + intros t tk Ht Hp. destruct (C4 t tk Ht Hp) as (c & ? & ?).
      exists c. split; [done|]. eapply Err_Canceled_mono; [|done].
      split; simpl; [done | apply flags_le_app].
  - intros t tk c Ht Hsc. simpl. rewrite length_app.
    destruct (Fr t tk c Ht Hsc) as (k & q & -> & ?).
    eexists _, _. split; [done|]. lia.
Qed.

Lemma Start_Ok parent sched s s' :
  Start parent sched s = Ok s' →
  ∃ p s1, parent = Some p ∧ unsafeStop sched s = Ok s1 ∧
    s' = add_all (preJoinChannels s1)
           (set_scope (WithCancel p s1).1 (WithCancel p s1).2).
Proof.
  unfold Start. destruct (unsafeStop sched s) as [s1| |]; simpl; try done.
  destruct parent as [p|]; simpl; [|done]. intros [= <-]. by exists p, s1.
Qed.

Lemma inv_Start parent sched s s' : inv s → Start parent sched s = Ok s' → inv s'.
Proof.
  intros Hi H. destruct (Start_Ok _ _ _ _ H) as (p & s1 & _ & Hs & ->).
  apply inv_add_all. destruct (unsafeStop_scopes _ _ _ Hi Hs).
  apply inv_new_scope; eauto using inv_unsafeStop.
Qed.

(** *** Requests and events *)

Lemma JoinChannel_Ok chname s r :
  JoinChannel chname s = Ok r →
  r.1 = match channels s !! chname with
        | Some _ => s
        | None => (unsafeAddChannel {| Name := chname; Password := "" |}
                     (Printf ("Request to JOIN new channel " +:+ chname) s)).2
        end.
Proof.
  unfold JoinChannel.
  destruct (channels s !! chname) as [c|].
  - intros H. destruct (JoinDone c s); simpl in H; try done.
    destruct (is_closed _ _); simpl in H; by injection H as <-.
  - destruct (unsafeAddChannel _ _) as [c s1]. simpl. intros H.
    destruct (JoinDone c s1); simpl in H; try done.
    destruct (is_closed _ _); simpl in H; by injection H as <-.
Qed.

Lemma inv_JoinChannel chname s r : inv s → JoinChannel chname s = Ok r → inv r.1.
Proof.
  intros Hi H. rewrite (JoinChannel_Ok _ _ _ H).
  destruct (channels s !! chname); [done|].
  by apply inv_unsafeAddChannel, inv_Printf.
Qed.

Lemma inv_HandleJoin nick chname s s' : inv s → HandleJoin nick chname s = Ok s' → inv s'.
Proof.
  unfold HandleJoin. intros Hi. destruct (decide (nick ≠ me s)); [by intros [= <-]|].
  simpl. destruct (channels s !! chname).
  - apply inv_SetJoined. by apply inv_Printf.
  - intros [= <-]. by do 2 apply inv_Printf.
Qed.

Lemma inv_HandleKick nick chname s s' : inv s → HandleKick nick chname s = Ok s' → inv s'.
Proof.
  unfold HandleKick. intros Hi. destruct (decide (nick ≠ me s)); [by intros [= <-]|].
  simpl. destruct (channels s !! chname).
  - apply inv_UnsetJoined. by apply inv_Printf.
  - intros [= <-]. by do 2 apply inv_Printf.
Qed.

(** *** Every reachable store is well-formed *)

Lemma inv_step op s s' : inv s → step op s = Ok s' → inv s'.
Proof.
  intros Hi. destruct op; simpl.
  - by apply inv_Start.
  - by apply inv_unsafeStop.
  - destruct (JoinChannel chname s) as [r| |] eqn:E; simpl; try done.
    intros [= <-]. by eapply inv_JoinChannel.
  - by apply inv_HandleJoin.
  - by apply inv_HandleKick.
  - by apply inv_Monitor.
  - intros [= <-]. by apply inv_ctx_end.
Qed.

Lemma inv_run ops s s' : inv s → run ops s = Ok s' → inv s'.
Proof.
  revert s. induction ops as [|op ops IH]; intros s Hi; simpl.
  - by intros [= <-].
  - destruct (step op s) as [s1| |] eqn:E; simpl; try done.
    eauto using inv_step.
Qed.

Lemma inv_init config nick : inv (NewChannelReconciler config nick).
Proof.
  split.
  - split; intros *; simpl; by rewrite ?lookup_nil.
  - intros name c. simpl. by rewrite lookup_empty.
  - split; [done|]. intros t tk. simpl. by rewrite lookup_nil.
  - done.
  - repeat split; simpl; done.
  - intros t tk c. simpl. by rewrite lookup_nil.
Qed.

Lemma reachable_inv s : reachable s → inv s.
Proof. intros (config & nick & ops & H). eapply inv_run; [apply inv_init | done]. Qed.

Lemma reachable_step op s s' : reachable s → step op s = Ok s' → reachable s'.
Proof.
  intros (config & nick & ops & H) Hs. exists config, nick, (ops ++ [op]).
  revert H. generalize (NewChannelReconciler config nick).
  induction ops as [|o ops IH]; intros s0; simpl.
  - intros [= ->]. by rewrite Hs.
  - destruct (step o s0); simpl; try done. apply IH.
Qed.

(** ** The example stores are reachable *)

Lemma reachable_demo_started : reachable demo_started.
Proof. exists demo_config, "relay", [OpStart (Some 0) []]. vm_compute. reflexivity. Qed.

Lemma reachable_demo_joined : reachable demo_joined.
Proof.
  exists demo_config, "relay",
    [OpStart (Some 0) []; OpMonitor 0 EvRun; OpMonitor 0 EvDelayElapsed;
     OpMonitor 0 EvRun; OpHandleJoin "relay" "#a"].
  vm_compute. reflexivity.
Qed.


Lemma reachable_demo_stopped : reachable demo_stopped.
Proof.
  exists demo_config, "relay", [OpStart (Some 0) []; OpStop (drain 2)].
  vm_compute. reflexivity.
Qed.

Lemma reachable_demo_early : reachable demo_early.
Proof. exists demo_config, "relay", [OpJoinChannel "#c"]. vm_compute. reflexivity. Qed.

Lemma reachable_demo_detached : reachable demo_detached.
Proof.
  exists demo_config, "relay",
    [OpStart (Some 0) []; OpStop (drain 2); OpJoinChannel "#c"; OpMonitor 2 EvRun].
  vm_compute. reflexivity.
Qed.

(** ** SetJoined and UnsetJoined are idempotent *)

(** C2. For every loop: [SetJoined] on a loop that is already joined returns
    normally and changes nothing but the log, so [joined] stays true and the
    satisfied signal is neither closed again nor replaced; [UnsetJoined] on a
    loop that is not joined returns normally and changes nothing but the
    log, so [joined] stays false and no new signal is made. *)
Theorem SetJoined_UnsetJoined_idempotent (c : nat) (s : State) (st : channelState) :
  loops s !! c = Some st →
  (joined st = true →
     ∃ s', SetJoined c s = Ok s' ∧
       s' = Printf ("Not setting JOIN state on channel " +:+ Name (channel st)
                    +:+ ": already set") s ∧
       loops s' !! c = Some st ∧ loops s' = loops s ∧ chans s' = chans s ∧
       tasks s' = tasks s) ∧
  (joined st = false →
     ∃ s', UnsetJoined c s = Ok s' ∧
       s' = Printf ("Not removing JOIN state on channel " +:+ Name (channel st)
                    +:+ ": already not set") s ∧
       loops s' !! c = Some st ∧ loops s' = loops s ∧ chans s' = chans s ∧
       tasks s' = tasks s).
Proof.
  intros Hst. split; intros Hj; eexists; unfold SetJoined, UnsetJoined;
    rewrite Hst; simpl; rewrite Hj; simpl; done.
Qed.

Lemma SetJoined_UnsetJoined_idempotent_witness :
  (∃ s', SetJoined 0 demo_joined = Ok s' ∧ chans s' = chans demo_joined) ∧
  (∃ s', UnsetJoined 1 demo_joined = Ok s' ∧ chans s' = chans demo_joined).
Proof.
  split.
  - destruct (SetJoined_UnsetJoined_idempotent 0 demo_joined
      {| channel := {| Name := "#a"; Password := "pw" |};
         delayer := NewDelayer 300 1800 Second;
         joinDone := 0; joined := true; joinUnsetSignal := 1 |})
      as [H _]; [vm_compute; reflexivity|].
    destruct (H eq_refl) as (s' & H1 & _ & _ & _ & H2 & _).
    exists s'. split; assumption.
  - destruct (SetJoined_UnsetJoined_idempotent 1 demo_joined
      {| channel := {| Name := "#b"; Password := "" |};
         delayer := NewDelayer 300 1800 Second;
         joinDone := 2; joined := false; joinUnsetSignal := 3 |})
      as [_ H]; [vm_compute; reflexivity|].
    destruct (H eq_refl) as (s' & H1 & _ & _ & _ & H2 & _).
    exists s'. split; assumption.
Defined.

(** ** Routing of JOIN and KICK events *)

(** [SetJoined] and [UnsetJoined] act on the loop they are called on: the
    registry, the number of loops and every other loop stay as they were. *)
Lemma SetJoined_frame c s s' :
  SetJoined c s = Ok s' →
  channels s' = channels s ∧ length (loops s') = length (loops s) ∧
  ∀ c', c' ≠ c → loops s' !! c' = loops s !! c'.
Proof.
  intros H. destruct (SetJoined_Ok _ _ _ H) as (st & Hst & [[_ ->]|(_ & _ & ->)]);
    simpl; [done|].
  rewrite length_insert. repeat split. intros c' Hne.
  by rewrite list_lookup_insert_ne.
Qed.

Lemma poke_frame st s :
  channels (poke st s) = channels s ∧ loops (poke st s) = loops s ∧
  chans (poke st s) = chans s.
Proof. unfold poke. by destruct (poke_tasks _ _). Qed.

Lemma UnsetJoined_frame c s s' :
  UnsetJoined c s = Ok s' →
  channels s' = channels s ∧ length (loops s') = length (loops s) ∧
  ∀ c', c' ≠ c → loops s' !! c' = loops s !! c'.
Proof.
  intros H. destruct (UnsetJoined_Ok _ _ _ H) as (st & Hst & [[_ ->]|(_ & ->)]);
    simpl; [done|].
  destruct (poke_frame st
    (set_loops (<[c := with_joinDone (length (chans s)) (with_joined false st)]>)
       (set_chans (λ h, h ++ [false])
          (Printf ("Removing JOIN state on channel " +:+ Name (channel st)) s))))
    as (-> & -> & _). simpl.
  rewrite length_insert. repeat split. intros c' Hne.
  by rewrite list_lookup_insert_ne.
Qed.

(** C4. [HandleJoin] and [HandleKick]: for a nick other than the client's
    own the call returns the store unchanged; for an unknown channel it only
    logs (no loop changes, none is created); otherwise [HandleJoin] is
    [SetJoined] and [HandleKick] is [UnsetJoined] on the loop registered
    under that name, which leaves the registry and all other loops alone. *)
Theorem HandleJoin_HandleKick_routing (nick chname : string) (s : State) :
  (nick ≠ me s →
     HandleJoin nick chname s = Ok s ∧ HandleKick nick chname s = Ok s) ∧
  (nick = me s → channels s !! chname = None →
     HandleJoin nick chname s =
       Ok (Printf ("Not processing JOIN for channel " +:+ chname +:+ ": unknown channel")
             (Printf ("Received JOIN confirmation for channel " +:+ chname) s)) ∧
     HandleKick nick chname s =
       Ok (Printf ("Not processing KICK for channel " +:+ chname +:+ ": unknown channel")
             (Printf ("Received KICK for channel " +:+ chname) s))) ∧
  (∀ c, nick = me s → channels s !! chname = Some c →
     HandleJoin nick chname s =
       SetJoined c (Printf ("Received JOIN confirmation for channel " +:+ chname) s) ∧
     HandleKick nick chname s =
       UnsetJoined c (Printf ("Received KICK for channel " +:+ chname) s) ∧
     ∀ s', HandleJoin nick chname s = Ok s' ∨ HandleKick nick chname s = Ok s' →
       channels s' = channels s ∧ length (loops s') = length (loops s) ∧
       ∀ c', c' ≠ c → loops s' !! c' = loops s !! c').
Proof.
  unfold HandleJoin, HandleKick. repeat split.
  - by destruct (decide (nick ≠ me s)).
  - by destruct (decide (nick ≠ me s)).
  - destruct (decide (nick ≠ me s)); [done|]. simpl. by rewrite H0.
  - destruct (decide (nick ≠ me s)); [done|]. simpl. by rewrite H0.
  - destruct (decide (nick ≠ me s)); [done|]. simpl. by rewrite H0.
  - destruct (decide (nick ≠ me s)); [done|]. simpl. by rewrite H0.
  - destruct (decide (nick ≠ me s)); [done|]. simpl in *. rewrite H0 in H1.
    destruct H1 as [H1|H1];
      [apply SetJoined_frame in H1 | apply UnsetJoined_frame in H1]; apply H1.
  - destruct (decide (nick ≠ me s)); [done|]. simpl in *. rewrite H0 in H1.
    destruct H1 as [H1|H1];
      [apply SetJoined_frame in H1 | apply UnsetJoined_frame in H1]; apply H1.
  - destruct (decide (nick ≠ me s)); [done|]. simpl in *. rewrite H0 in H1.
    destruct H1 as [H1|H1];
      [apply SetJoined_frame in H1 | apply UnsetJoined_frame in H1]; apply H1.
Qed.

Lemma HandleJoin_HandleKick_routing_witness :
  HandleJoin "other" "#a" demo_started = Ok demo_started ∧
  loops (from_ok (HandleKick "relay" "#nowhere" demo_started)) = loops demo_started ∧
  HandleJoin "relay" "#b" demo_started =
    SetJoined 1 (Printf "Received JOIN confirmation for channel #b" demo_started).
Proof.
  pose proof (HandleJoin_HandleKick_routing "other" "#a" demo_started) as (H1 & _ & _).
  pose proof (HandleJoin_HandleKick_routing "relay" "#nowhere" demo_started) as (_ & H2 & _).
  pose proof (HandleJoin_HandleKick_routing "relay" "#b" demo_started) as (_ & _ & H3).
  split; [|split].
  - apply H1. vm_compute. discriminate.
  - destruct H2 as [_ ->]; [vm_compute; reflexivity ..|]. reflexivity.
  - destruct (H3 1) as [-> _]; [vm_compute; reflexivity ..|]. reflexivity.
Defined.

(** ** JoinChannel *)

Lemma JoinChannel_registered chname s c :
  inv s → channels s !! chname = Some c →
  ∃ st, loops s !! c = Some st ∧
    JoinChannel chname s =
      Ok (s, if is_closed (joinDone st) s then (true, None)
             else (false, Some (joinDone st))).
Proof.
  intros Hi E. destruct (inv_2 _ Hi _ _ E) as (st & Hst & _). exists st. split; [done|].
  unfold JoinChannel, JoinDone. rewrite E, Hst. simpl.
  by destruct (is_closed (joinDone st) s).
Qed.

Lemma JoinChannel_created chname s :
  inv s → channels s !! chname = None →
  ∃ st,
    JoinChannel chname s = Ok (joined_new chname s, (false, Some (joinDone st))) ∧
    channels (joined_new chname s) = <[chname := length (loops s)]> (channels s) ∧
    loops (joined_new chname s) = loops s ++ [st] ∧
    channel st = {| Name := chname; Password := "" |} ∧
    joined st = false ∧ is_closed (joinDone st) (joined_new chname s) = false.
Proof.
  intros Hi E. unfold joined_new.
  set (s0 := Printf ("Request to JOIN new channel " +:+ chname) s).
  set (ch := {| Name := chname; Password := "" |}).
  assert (Hi' : inv (unsafeAddChannel ch s0).2)
    by (by apply inv_unsafeAddChannel, inv_Printf).
  unfold JoinChannel, JoinDone. rewrite E. fold s0 ch.
  revert Hi'. rewrite (unsafeAddChannel_eq ch s0).
  set (s' := set_channels _ _). simpl. intros Hi'.
  assert (Hl : loops s' !! length (loops s) = Some (new_loop ch s0)).
  { simpl. rewrite lookup_app_r by done.
    by replace (length (loops s) - length (loops s)) with 0 by lia. }
  simpl in Hl. rewrite Hl. simpl.
  destruct (inv_1 _ Hi') as [S1 _]. destruct (S1 _ _ Hl) as [_ Hc].
  simpl in Hc. rewrite Hc. simpl. exists (new_loop ch s0). done.
Qed.



(** ** The completion signal *)

Lemma is_closed_true d s : is_closed d s = true ↔ chans s !! d = Some true.
Proof.
  unfold is_closed. destruct (chans s !! d) as [[]|]; simpl; split; congruence.
Qed.

Lemma flags_le_trans o1 o2 o3 : flags_le o1 o2 → flags_le o2 o3 → flags_le o1 o3.
Proof. intros H1 H2 k Hk. auto. Qed.

Lemma SetJoined_chans_le c s s' :
  SetJoined c s = Ok s' → flags_le (chans s) (chans s').
Proof.
  intros H. destruct (SetJoined_Ok _ _ _ H) as (st & Hst & [[_ ->]|(_ & _ & ->)]);
    simpl; [apply flags_le_refl | apply flags_le_insert].
Qed.

Lemma UnsetJoined_chans_le c s s' :
  UnsetJoined c s = Ok s' → flags_le (chans s) (chans s').
Proof.
  intros H. destruct (UnsetJoined_Ok _ _ _ H) as (st & Hst & [[_ ->]|(_ & ->)]);
    simpl; [apply flags_le_refl|].
  match goal with |- context [poke ?a ?b] =>
    destruct (poke_frame a b) as (_ & _ & ->) end.
  simpl. apply flags_le_app.
Qed.

Lemma unsafeAddChannel_chans_le ch s :
  flags_le (chans s) (chans (unsafeAddChannel ch s).2).
Proof.
  rewrite unsafeAddChannel_eq. simpl. rewrite <- app_assoc. apply flags_le_app.
Qed.

Lemma add_all_chans_le chs s : flags_le (chans s) (chans (add_all chs s)).
Proof.
  unfold add_all. revert s. induction chs as [|ch chs IH]; intros s; simpl.
  - apply flags_le_refl.
  - eapply flags_le_trans; [apply unsafeAddChannel_chans_le | apply IH].
Qed.

Lemma unsafeStop_chans sched s s' : unsafeStop sched s = Ok s' → chans s' = chans s.
Proof.
  intros H. destruct (unsafeStop_Ok _ _ _ H) as [[_ ->]|(c & s1 & _ & Hr & _ & ->)]; [done|].
  simpl. destruct (run_sched_frame _ _ _ Hr) as [(_&_&_&_&_&->&_) _].
  apply cancel_fields.
Qed.

Lemma step_chans_le op s s' : step op s = Ok s' → flags_le (chans s) (chans s').
Proof.
  destruct op; simpl.
  - intros H. destruct (Start_Ok _ _ _ _ H) as (p & s1 & _ & Hs & ->).
    rewrite <- (unsafeStop_chans _ _ _ Hs).
    apply (add_all_chans_le _ (set_scope (WithCancel p s1).1 (WithCancel p s1).2)).
  - intros H. rewrite (unsafeStop_chans _ _ _ H). apply flags_le_refl.
  - destruct (JoinChannel chname s) as [r| |] eqn:E; simpl; try done.
    intros [= <-]. rewrite (JoinChannel_Ok _ _ _ E).
    destruct (channels s !! chname); [apply flags_le_refl|].
    apply (unsafeAddChannel_chans_le _ (Printf _ s)).
  - unfold HandleJoin. destruct (decide (nick ≠ me s)); [intros [= <-]; apply flags_le_refl|].
    simpl. destruct (channels s !! chname).
    + apply (SetJoined_chans_le _ (Printf _ s)).
    + intros [= <-]. apply flags_le_refl.
  - unfold HandleKick. destruct (decide (nick ≠ me s)); [intros [= <-]; apply flags_le_refl|].
    simpl. destruct (channels s !! chname).
    + apply (UnsetJoined_chans_le _ (Printf _ s)).
    + intros [= <-]. apply flags_le_refl.
  - intros H. destruct (Monitor_Ok _ _ _ _ H) as (_ & _ & _ & _ & _ & F & _).
    destruct F as (_&_&_&_&_&->&_). apply flags_le_refl.
  - intros [= <-]. unfold ctx_end. destruct (externs s !! k); apply flags_le_refl.
Qed.

(** A closed signal stays closed, whatever happens next. *)
Lemma run_closed_mono ops s s' d :
  run ops s = Ok s' → is_closed d s = true → is_closed d s' = true.
Proof.
  revert s. induction ops as [|op ops IH]; intros s; simpl.
  - by intros [= <-].
  - destruct (step op s) as [s1| |] eqn:E; simpl; try done.
    intros H Hd. apply (IH _ H). apply is_closed_true.
    apply (step_chans_le _ _ _ E). by apply is_closed_true.
Qed.

(** C1. In every reachable store and for every loop: the loop's current
    signal is closed exactly when the loop is joined, so whoever asks for the
    signal while the loop is not joined gets an open one; a closed signal
    stays closed under every later run of the system; [SetJoined] on a loop
    that is not joined closes the loop's current signal, keeps it current and
    closes no other; [UnsetJoined] on a joined loop installs a signal that
    did not exist before and is open, and leaves the old one closed. *)
Theorem signal_monotone_generation_scoped (s : State) (c : nat) (st : channelState) :
  reachable s → loops s !! c = Some st →
  is_closed (joinDone st) s = joined st ∧
  (∀ d ops s', is_closed d s = true → run ops s = Ok s' → is_closed d s' = true) ∧
  (joined st = false →
     ∃ s', SetJoined c s = Ok s' ∧ JoinDone c s' = Ok (joinDone st) ∧
       is_closed (joinDone st) s' = true ∧
       ∀ d, d ≠ joinDone st → is_closed d s' = is_closed d s) ∧
  (joined st = true →
     ∃ s' d', UnsetJoined c s = Ok s' ∧ JoinDone c s' = Ok d' ∧
       chans s !! d' = None ∧ is_closed d' s' = false ∧
       is_closed (joinDone st) s' = true).
Proof.
  intros Hr Hst. pose proof (reachable_inv _ Hr) as Hi.
  destruct (inv_1 _ Hi) as [S1 _]. destruct (S1 _ _ Hst) as [Hlt Hcl].
  split; [done|]. split; [eauto using run_closed_mono|]. split.
  - intros Hj. rewrite Hj in Hcl.
    assert (Hc : chans s !! joinDone st = Some false).
    { unfold is_closed in Hcl. apply lookup_lt_is_Some in Hlt as [[] Hb]; [|done].
      by rewrite Hb in Hcl. }
    eexists. unfold SetJoined, close. rewrite Hst. simpl. rewrite Hj. simpl.
    rewrite Hc. split; [done|]. unfold JoinDone, is_closed. simpl.
    rewrite list_lookup_insert_eq by (by eapply lookup_lt_Some).
    rewrite list_lookup_insert_eq by done. repeat split.
    intros d Hd. by rewrite list_lookup_insert_ne.
  - intros Hj. rewrite Hj in Hcl.
    destruct (UnsetJoined c s) as [s'| |] eqn:E;
      [| unfold UnsetJoined in E; rewrite Hst in E; simpl in E; by rewrite Hj in E ..].
    destruct (UnsetJoined_Ok _ _ _ E) as (st' & Hst' & [[Hj' _]|(_ & Hs')]).
    { congruence. }
    assert (st' = st) as -> by congruence.
    exists s', (length (chans s)). split; [done|].
    revert Hs'. set (s1 := set_loops _ _). intros ->.
    destruct (poke_frame st s1) as (_ & Hl & Hc).
    unfold JoinDone, is_closed. rewrite Hl, Hc. simpl.
    rewrite list_lookup_insert_eq by (by eapply lookup_lt_Some). simpl.
    split; [done|]. split; [by apply lookup_ge_None|].
    rewrite lookup_app_r by done.
    replace (length (chans s) - length (chans s)) with 0 by lia. split; [done|].
    rewrite lookup_app_l by done. done.
Qed.

Lemma signal_monotone_generation_scoped_witness :
  reachable demo_joined ∧
  (∃ s' d', UnsetJoined 0 demo_joined = Ok s' ∧ JoinDone 0 s' = Ok d' ∧
     chans demo_joined !! d' = None ∧ is_closed d' s' = false ∧
     is_closed 0 s' = true) ∧
  (∃ s', SetJoined 1 demo_joined = Ok s' ∧ JoinDone 1 s' = Ok 2 ∧
     is_closed 2 s' = true ∧ ∀ d, d ≠ 2 → is_closed d s' = is_closed d demo_joined).
Proof.
  assert (Ha : loops demo_joined !! 0 = Some
    {| channel := {| Name := "#a"; Password := "pw" |};
       delayer := NewDelayer 300 1800 Second;
       joinDone := 0; joined := true; joinUnsetSignal := 1 |})
    by (vm_compute; reflexivity).
  assert (Hb : loops demo_joined !! 1 = Some
    {| channel := {| Name := "#b"; Password := "" |};
       delayer := NewDelayer 300 1800 Second;
       joinDone := 2; joined := false; joinUnsetSignal := 3 |})
    by (vm_compute; reflexivity).
  split; [exact reachable_demo_joined|]. split.
  - exact (proj2 (proj2 (proj2
      (signal_monotone_generation_scoped _ _ _ reachable_demo_joined Ha))) eq_refl).
  - exact (proj1 (proj2 (proj2
      (signal_monotone_generation_scoped _ _ _ reachable_demo_joined Hb))) eq_refl).
Defined.

(** ** One iteration of the not-joined branch *)

Ltac monitor_at Htk Hst Hctx Hpc :=
  unfold Monitor, join, monitorJoinUnset, JoinDone; rewrite Htk; rewrite ?Hpc; simpl;
  rewrite ?Hctx, ?Hst; simpl.

Lemma lookup_alter_pc (ts : list Task) t tk pc :
  ts !! t = Some tk → alter (with_pc pc) t ts !! t = Some (with_pc pc tk).
Proof. intros H. by rewrite list_lookup_alter_eq, H. Qed.

(** C9. A goroutine whose loop is not joined and whose scope is not
    cancelled enters the delay without sending anything.  From the delay it
    leaves only because the delayer reports the delay elapsed or cancelled;
    when cancelled it is back at the loop head and has sent nothing; when
    elapsed it has handed the client exactly one Join request, with the
    channel's name and password, and next waits on the loop's current signal
    with a window of 10 seconds.  That wait ends on exactly three events: the
    captured signal is closed, the window elapses, or the scope is done; each
    sends nothing and leads to the loop head.  [newChannelState] builds the
    delayer with maximum 300 (seconds), reset 1800 (seconds) and initial
    delay one second. *)
Theorem join_iteration (s : State) (t : nat) (tk : Task) (st : channelState)
    (ctx : Context) :
  tasks s !! t = Some tk → loops s !! t_loop tk = Some st →
  t_scope tk = Some ctx →
  (t_pc tk = LoopHead → Err ctx s ≠ Some Canceled → joined st = false →
     ∃ s', Monitor t EvRun s = Ok s' ∧
       tasks s' !! t = Some (with_pc Delaying tk) ∧ sent s' = sent s) ∧
  (t_pc tk = Delaying →
     (∀ ev s', Monitor t ev s = Ok s' →
        ev = EvDelayElapsed ∨ (ev = EvDelayCancelled ∧ ctx_done ctx s = true)) ∧
     (ctx_done ctx s = true →
        ∃ s', Monitor t EvDelayCancelled s = Ok s' ∧
          tasks s' !! t = Some (with_pc LoopHead tk) ∧ sent s' = sent s) ∧
     (∃ s', Monitor t EvDelayElapsed s = Ok s' ∧
        tasks s' !! t = Some (with_pc Requested tk) ∧
        sent s' = sent s ++ [(Name (channel st), Password (channel st))])) ∧
  (t_pc tk = Requested →
     (∀ ev s', Monitor t ev s = Ok s' → ev = EvRun) ∧
     (∃ s', Monitor t EvRun s = Ok s' ∧
        tasks s' !! t = Some (with_pc (JoinWait (joinDone st) (10 * Second)) tk) ∧
        sent s' = sent s)) ∧
  (∀ d w, t_pc tk = JoinWait d w →
     (∀ ev, (∃ s', Monitor t ev s = Ok s') ↔
        ((ev = EvJoinDone ∧ is_closed d s = true) ∨ ev = EvTimeout ∨
         (ev = EvCtxDone ∧ ctx_done ctx s = true))) ∧
     (∀ ev s', Monitor t ev s = Ok s' →
        tasks s' !! t = Some (with_pc LoopHead tk) ∧ sent s' = sent s)) ∧
  (∀ ch s0, ∃ st0,
     loops (newChannelState ch s0).2 !! (newChannelState ch s0).1 = Some st0 ∧
     channel st0 = ch ∧ joined st0 = false ∧
     maxDelay (delayer st0) = 300%Z ∧ resetAfter (delayer st0) = 1800%Z ∧
     initialDelay (delayer st0) = (1 * Second)%Z ∧ Second = 1000000000%Z).
Proof.
  intros Htk Hst Hctx. split; [|split; [|split; [|split]]].
  - intros Hpc Hc Hj. eexists. monitor_at Htk Hst Hctx Hpc.
    destruct (decide (Err ctx s = Some Canceled)); [done|]. simpl.
    rewrite ?Hst. simpl. rewrite Hj. split; [done|]. simpl.
    split; [by apply lookup_alter_pc | done].
  - intros Hpc. split; [|split].
    + intros ev s'. monitor_at Htk Hst Hctx Hpc.
      destruct ev; try done; auto. destruct (ctx_done ctx s); [auto|done].
    + intros Hd. eexists. monitor_at Htk Hst Hctx Hpc. rewrite Hd.
      split; [done|]. simpl. split; [by apply lookup_alter_pc | done].
    + eexists. monitor_at Htk Hst Hctx Hpc. split; [done|]. simpl.
      split; [by apply lookup_alter_pc | done].
  - intros Hpc. split.
    + intros ev s'. monitor_at Htk Hst Hctx Hpc. by destruct ev.
    + eexists. monitor_at Htk Hst Hctx Hpc. split; [done|]. simpl.
      split; [by apply lookup_alter_pc | done].
  - intros d w Hpc. split.
    + intros ev. split.
      * intros [s' Hs']. revert Hs'. monitor_at Htk Hst Hctx Hpc.
        destruct ev; try done; auto.
        -- destruct (is_closed d s); [auto|done].
        -- destruct (ctx_done ctx s); [auto|done].
      * intros [[-> Hd]|[->|[-> Hd]]]; eexists; monitor_at Htk Hst Hctx Hpc;
          rewrite ?Hd; done.
    + intros ev s'. monitor_at Htk Hst Hctx Hpc.
      destruct ev; try done.
      * destruct (is_closed d s); [|done]. intros [= <-]. simpl.
        split; [by apply lookup_alter_pc | done].
      * intros [= <-]. simpl. split; [by apply lookup_alter_pc | done].
      * destruct (ctx_done ctx s); [|done]. intros [= <-]. simpl.
        split; [by apply lookup_alter_pc | done].
  - intros ch s0. eexists. unfold newChannelState, make_chan. simpl.
    rewrite lookup_app_r by done.
    replace (length (loops s0) - length (loops s0)) with 0 by lia. done.
Qed.

(** ** The goroutine under a cancelled scope *)

Lemma live_pos (l : list Task) t tk :
  l !! t = Some tk → t_pc tk ≠ Exited → 0 < live l.
Proof. intros H1 H2. pose proof (live_insert_exit _ _ _ H1 H2). lia. Qed.

Lemma rank_0 pc : rank pc = 0 ↔ pc = Exited.
Proof. by destruct pc. Qed.

Lemma Err_done c s e : Err c s = Some e → ctx_done c s = true.
Proof. intros H. unfold ctx_done. rewrite H. by apply bool_decide_eq_true. Qed.


(** One scheduling event under a cancelled scope: the goroutine either
    cannot take it, or takes it and moves as [rnext] says. *)
Lemma Monitor_cancelled s t tk c ev :
  inv s → tasks s !! t = Some tk → t_scope tk = Some c →
  Err c s = Some Canceled →
  ev = EvRun ∨ ev = EvDelayCancelled ∨ ev = EvCtxDone →
  ∃ s' tk',
    (Monitor t ev s = Ok s' ∨ (Monitor t ev s = Blocked ∧ s' = s)) ∧
    inv s' ∧ same_frame s s' ∧ tasks s' = <[t := tk']> (tasks s) ∧
    t_scope tk' = t_scope tk ∧
    rank (t_pc tk') = rnext (rank (t_pc tk)) ev.
Proof.
  intros Hi Htk Hc He Hev.
  assert (Hst : ∃ st, loops s !! t_loop tk = Some st).
  { destruct (inv_3 _ Hi) as [T1 T2]. rewrite (T2 _ _ Htk).
    apply lookup_lt_is_Some. rewrite <- T1. by eapply lookup_lt_Some. }
  destruct Hst as [st Hst].
  assert (Hd : ctx_done c s = true) by (by eapply Err_done).
  assert (Hblocked : Monitor t ev s = Blocked →
            rank (t_pc tk) = rnext (rank (t_pc tk)) ev →
            ∃ s' tk',
              (Monitor t ev s = Ok s' ∨ (Monitor t ev s = Blocked ∧ s' = s)) ∧
              inv s' ∧ same_frame s s' ∧ tasks s' = <[t := tk']> (tasks s) ∧
              t_scope tk' = t_scope tk ∧
              rank (t_pc tk') = rnext (rank (t_pc tk)) ev).
  { intros Hb Hr. exists s, tk. split; [by right|]. split; [done|].
    split; [by repeat split|]. by rewrite list_insert_id. }
  assert (Hok : ∀ s' pc', Monitor t ev s = Ok s' →
            tasks s' = alter (with_pc pc') t (tasks s) →
            same_frame s s' →
            rank pc' = rnext (rank (t_pc tk)) ev →
            ∃ s' tk',
              (Monitor t ev s = Ok s' ∨ (Monitor t ev s = Blocked ∧ s' = s)) ∧
              inv s' ∧ same_frame s s' ∧ tasks s' = <[t := tk']> (tasks s) ∧
              t_scope tk' = t_scope tk ∧
              rank (t_pc tk') = rnext (rank (t_pc tk)) ev).
  { intros s' pc' Hm Hts Hf Hr. exists s', (with_pc pc' tk).
    split; [by left|]. split; [by eapply inv_Monitor|]. split; [done|].
    split; [by rewrite Hts; apply alter_with_pc|]. done. }
  destruct (t_pc tk) eqn:Epc; destruct Hev as [-> | [-> | ->]];
    try (by apply Hblocked;
           [unfold Monitor, join, monitorJoinUnset, JoinDone; rewrite Htk, Epc; simpl;
            rewrite ?Hc, ?Hst; simpl; rewrite ?Hd
           | ]);
    try (by eapply Hok;
           [unfold Monitor, join, monitorJoinUnset, JoinDone; rewrite Htk, Epc; simpl;
            rewrite ?Hc, ?Hst; simpl; rewrite ?Hd; reflexivity
           | reflexivity | repeat split | ]).
  (* the loop head: the goroutine returns *)
  assert (Hwg : ∃ n, stopWg s = S n).
  { assert (Hx : t_pc tk ≠ Exited) by (by rewrite Epc).
    pose proof (live_pos _ _ _ Htk Hx) as Hl. rewrite <- (inv_4 _ Hi) in Hl.
    exists (pred (stopWg s)). lia. }
  destruct Hwg as [n Hn].
  eapply (Hok (set_stopWg n (set_pc t Exited s)) Exited);
    [| reflexivity | by repeat split | done].
  unfold Monitor, join, monitorJoinUnset, wgDone. rewrite Htk, Epc. simpl. rewrite Hc. simpl.
  destruct (decide (Err c s = Some Canceled)); [|done]. simpl. by rewrite Hn.
Qed.

Lemma run_sched_app a b s :
  run_sched (a ++ b) s =
  match run_sched a s with Ok s' => run_sched b s' | o => o end.
Proof.
  revert s. induction a as [|[t ev] a IH]; intros s; simpl; [done|].
  destruct (Monitor t ev s); auto.
Qed.

(** A schedule of such events for one goroutine runs through, touches no
    other goroutine, and moves this one as [rnext] says. *)
Lemma run_sched_cancelled evs s t tk c :
  inv s → tasks s !! t = Some tk → t_scope tk = Some c →
  Err c s = Some Canceled →
  Forall (λ ev, ev = EvRun ∨ ev = EvDelayCancelled ∨ ev = EvCtxDone) evs →
  ∃ s' tk',
    run_sched ((λ ev, (t, ev)) <$> evs) s = Ok s' ∧
    inv s' ∧ same_frame s s' ∧ tasks s' = <[t := tk']> (tasks s) ∧
    t_scope tk' = t_scope tk ∧
    rank (t_pc tk') = foldl rnext (rank (t_pc tk)) evs.
Proof.
  revert s tk. induction evs as [|ev evs IH]; intros s tk Hi Htk Hc He Hall.
  - exists s, tk. simpl. split; [done|]. split; [done|].
    split; [by repeat split|]. by rewrite list_insert_id.
  - apply Forall_cons in Hall as [Hev Hall].
    destruct (Monitor_cancelled s t tk c ev Hi Htk Hc He Hev)
      as (s1 & tk1 & Hm & Hi1 & F1 & Ht1 & Hs1 & Hr1).
    assert (Htk1 : tasks s1 !! t = Some tk1).
    { rewrite Ht1. apply list_lookup_insert_eq. by eapply lookup_lt_Some. }
    assert (He1 : Err c s1 = Some Canceled).
    { destruct F1 as (_&_&_&_&_&_&Fc&Fe&_). unfold Err. by rewrite Fc, Fe. }
    destruct (IH s1 tk1 Hi1 Htk1 (eq_trans Hs1 Hc) He1 Hall)
      as (s2 & tk2 & Hrun & Hi2 & F2 & Ht2 & Hs2 & Hr2).
    exists s2, tk2. simpl. split.
    { destruct Hm as [->|[-> ->]]; done. }
    split; [done|]. split.
    { unfold same_frame in *. intuition congruence. }
    split; [by rewrite Ht2, Ht1, list_insert_insert_eq|].
    split; [congruence|]. by rewrite Hr2, Hr1.
Qed.

(** From any point, the schedule [finish t] takes goroutine [t] to its
    return when its scope is cancelled. *)
Lemma finish_exits s t tk c :
  inv s → tasks s !! t = Some tk → t_scope tk = Some c →
  Err c s = Some Canceled →
  ∃ s', run_sched (finish t) s = Ok s' ∧ inv s' ∧ same_frame s s' ∧
        tasks s' = <[t := with_pc Exited tk]> (tasks s).
Proof.
  intros Hi Htk Hc He.
  destruct (run_sched_cancelled [EvRun; EvDelayCancelled; EvRun; EvCtxDone; EvRun]
              s t tk c Hi Htk Hc He) as (s' & tk' & Hrun & Hi' & F & Ht & Hs & Hr).
  { repeat (constructor; [by auto|]). constructor. }
  exists s'. split; [done|]. split; [done|]. split; [done|].
  assert (Hx : t_pc tk' = Exited).
  { apply rank_0. rewrite Hr. by destruct (t_pc tk). }
  assert (Hl : t_loop tk' = t_loop tk).
  { destruct (inv_3 _ Hi) as [_ T2]. destruct (inv_3 _ Hi') as [_ T2'].
    rewrite (T2 _ _ Htk). apply T2'. rewrite Ht.
    apply list_lookup_insert_eq. by eapply lookup_lt_Some. }
  rewrite Ht. f_equal. destruct tk'. unfold with_pc. simpl in *. congruence.
Qed.


(** A scope that ended by a deadline is done but not [Canceled]: the waits
    return, yet no step of the goroutine is its return. *)
Lemma Monitor_deadline_no_return s t tk c ev s' tk' :
  tasks s !! t = Some tk → t_scope tk = Some c →
  Err c s = Some DeadlineExceeded →
  Monitor t ev s = Ok s' → tasks s' !! t = Some tk' → t_pc tk' ≠ Exited.
Proof.
  intros Htk Hc He H Htk'.
  destruct (Monitor_Ok _ _ _ _ H) as (tk0 & pc' & Htk0 & _ & Hts & _ & Hw).
  assert (tk0 = tk) as -> by congruence.
  rewrite Hts, list_lookup_insert_eq in Htk' by (by eapply lookup_lt_Some).
  injection Htk' as <-. simpl.
  destruct Hw as [(_ & _ & (c' & Hc' & He') & _)|[Hne _]]; [congruence|done].
Qed.




Lemma join_iteration_witness :
  (∃ s', Monitor 0 EvDelayElapsed demo_cancelled = Ok s' ∧
     tasks s' !! 0 = Some {| t_loop := 0; t_scope := Some (CancelCtx 0 (Extern 0));
                             t_pc := Requested |} ∧
     sent s' = sent demo_cancelled ++ [("#a", "pw")]) ∧
  (∃ s', Monitor 0 EvDelayCancelled demo_cancelled = Ok s' ∧
     tasks s' !! 0 = Some {| t_loop := 0; t_scope := Some (CancelCtx 0 (Extern 0));
                             t_pc := LoopHead |} ∧
     sent s' = sent demo_cancelled).
Proof.
  assert (Htk : tasks demo_cancelled !! 0 =
                Some {| t_loop := 0; t_scope := Some (CancelCtx 0 (Extern 0));
                        t_pc := Delaying |}) by (vm_compute; reflexivity).
  assert (Hst : loops demo_cancelled !! 0 = Some
    {| channel := {| Name := "#a"; Password := "pw" |};
       delayer := NewDelayer 300 1800 Second;
       joinDone := 0; joined := false; joinUnsetSignal := 1 |})
    by (vm_compute; reflexivity).
  destruct (join_iteration demo_cancelled 0 _ _ (CancelCtx 0 (Extern 0))
              Htk Hst eq_refl) as (_ & H & _).
  destruct (H eq_refl) as (_ & H1 & H2).
  split; [exact H2|]. apply H1. vm_compute. reflexivity.
Defined.

(** ** Stop *)

Lemma finish_absent s t : tasks s !! t = None → run_sched (finish t) s = Ok s.
Proof. intros H. unfold finish. simpl. unfold Monitor, join, monitorJoinUnset. by rewrite H. Qed.

Lemma Err_frame s s' c : same_frame s s' → Err c s' = Err c s.
Proof. intros (_&_&_&_&_&_&Fc&Fe&_). unfold Err. by rewrite Fc, Fe. Qed.

Lemma same_frame_trans s1 s2 s3 : same_frame s1 s2 → same_frame s2 s3 → same_frame s1 s3.
Proof. unfold same_frame. intuition congruence. Qed.

Lemma drain_exits n s :
  inv s →
  (∀ t tk, tasks s !! t = Some tk → ∃ c, t_scope tk = Some c ∧ Err c s = Some Canceled) →
  ∃ s', run_sched (drain n) s = Ok s' ∧ inv s' ∧ same_frame s s' ∧
    ∀ t tk', tasks s' !! t = Some tk' →
      ∃ tk, tasks s !! t = Some tk ∧ t_scope tk' = t_scope tk ∧
            (t < n → t_pc tk' = Exited).
Proof.
  intros Hi Hall. induction n as [|n IH]; simpl.
  - exists s. split; [done|]. split; [done|]. split; [by repeat split|].
    intros t tk Ht. exists tk. repeat split; [done|lia].
  - destruct IH as (s1 & Hrun & Hi1 & F1 & H1). rewrite run_sched_app, Hrun.
    destruct (tasks s1 !! n) as [tk1|] eqn:E.
    + destruct (H1 _ _ E) as (tk & Htk & Hs & _).
      destruct (Hall _ _ Htk) as (c & Hc & He).
      destruct (finish_exits s1 n tk1 c Hi1 E) as (s2 & Hrun2 & Hi2 & F2 & Ht2).
      { congruence. } { by rewrite (Err_frame _ _ _ F1). }
      exists s2. split; [done|]. split; [done|].
      split; [by eapply same_frame_trans|].
      intros t tk' Ht. rewrite Ht2 in Ht. destruct (decide (n = t)) as [<-|Hne].
      * rewrite list_lookup_insert_eq in Ht by (by eapply lookup_lt_Some).
        injection Ht as <-. exists tk. simpl. split; [done|]. split; [congruence|done].
      * rewrite list_lookup_insert_ne in Ht by done.
        destruct (H1 _ _ Ht) as (tk0 & ? & ? & Hx). exists tk0.
        repeat split; [done..|]. intros Hlt. apply Hx. lia.
    + rewrite (finish_absent _ _ E). exists s1. split; [done|]. split; [done|].
      split; [done|]. intros t tk' Ht. destruct (H1 _ _ Ht) as (tk0 & ? & ? & Hx).
      exists tk0. repeat split; [done..|]. intros Hlt. apply Hx.
      assert (t ≠ n) by congruence. lia.
Qed.

(** With every running goroutine on the current scope, and the scope not
    ended by a deadline before, [Stop] returns. *)
Lemma Stop_returns s c :
  inv s → stopCtxCancel s = Some c → Err c s ≠ Some DeadlineExceeded →
  (∀ t tk, tasks s !! t = Some tk → t_pc tk ≠ Exited → t_scope tk ≠ None) →
  ∃ s', Stop (drain (length (tasks s))) s = Ok s'.
Proof.
  intros Hi Hc Hd Hn. pose proof (inv_cancel c s Hi) as Hi0.
  pose proof (cancel_fields c s) as (_ & Fctx & _ & _ & _ & _ & Fts & _).
  destruct (inv_5 _ Hi) as (C1 & C0 & C2 & _ & _). rewrite Hc in C1.
  destruct (C0 c (eq_sym C1)) as (k & p & -> & Hk).
  assert (He : Err (CancelCtx k p) (cancel (CancelCtx k p) s) = Some Canceled).
  { rewrite cancel_Err by done. by destruct (Err (CancelCtx k p) s) as [[]|]. }
  destruct (drain_exits (length (tasks s)) _ Hi0) as (s1 & Hrun & Hi1 & F1 & H1).
  { intros t tk. rewrite Fts. intros Htk.
    destruct (decide (t_pc tk = Exited)) as [Hx|Hx].
    - destruct (inv_5 _ Hi0) as (_ & _ & _ & _ & C4). apply (C4 t). by rewrite Fts. done.
    - exists (CancelCtx k p). split; [|done].
      destruct (C2 _ _ Htk Hx) as [Hs|Hs]; [by destruct (Hn _ _ Htk Hx)|congruence]. }
  assert (Hw : stopWg s1 = 0).
  { rewrite (inv_4 _ Hi1). apply live_all_exited. intros t tk' Ht.
    destruct (H1 _ _ Ht) as (tk & Htk & _ & Hx). apply Hx.
    rewrite Fts in Htk. by eapply lookup_lt_Some. }
  eexists. unfold Stop, unsafeStop. rewrite Hc, Hrun. simpl.
  destruct (decide (stopWg s1 = 0)); done.
Qed.

(** Only [Start] installs a scope. *)
Lemma step_scope_frame op s s' :
  step op s = Ok s' → is_Start op = false →
  stopCtx s' = stopCtx s ∧ stopCtxCancel s' = stopCtxCancel s.
Proof.
  destruct op; simpl; try done; intros H _.
  - destruct (unsafeStop_Ok _ _ _ H) as [[_ ->]|(c & s1 & _ & Hr & _ & ->)]; [done|].
    simpl. destruct (run_sched_frame _ _ _ Hr) as [(_&_&->&->&_) _].
    pose proof (cancel_fields c s) as (_ & -> & -> & _). done.
  - destruct (JoinChannel chname s) as [r| |] eqn:E; simpl in H; try done.
    injection H as <-. rewrite (JoinChannel_Ok _ _ _ E).
    destruct (channels s !! chname); [done|]. by rewrite unsafeAddChannel_eq.
  - unfold HandleJoin in H. destruct (decide (nick ≠ me s)); [by injection H as <-|].
    simpl in H. destruct (channels s !! chname); [|by injection H as <-].
    destruct (SetJoined_Ok _ _ _ H) as (st & _ & [[_ ->]|(_ & _ & ->)]); done.
  - unfold HandleKick in H. destruct (decide (nick ≠ me s)); [by injection H as <-|].
    simpl in H. destruct (channels s !! chname); [|by injection H as <-].
    destruct (UnsetJoined_Ok _ _ _ H) as (st & _ & [[_ ->]|(_ & ->)]); [done|].
    unfold poke. by destruct (poke_tasks _ _).
  - destruct (Monitor_Ok _ _ _ _ H) as (_ & _ & _ & _ & _ & (_&_&->&->&_) & _). done.
  - injection H as <-. unfold ctx_end. by destruct (externs s !! k).
Qed.

Lemma never_started config nick ops s :
  run ops (NewChannelReconciler config nick) = Ok s →
  forallb (λ op, negb (is_Start op)) ops = true →
  stopCtx s = None ∧ stopCtxCancel s = None.
Proof.
  assert (G : ∀ s0, stopCtx s0 = None ∧ stopCtxCancel s0 = None →
            run ops s0 = Ok s → forallb (λ op, negb (is_Start op)) ops = true →
            stopCtx s = None ∧ stopCtxCancel s = None).
  { induction ops as [|op ops IH]; intros s0 H0; simpl.
    - by intros [= <-].
    - destruct (step op s0) as [s1| |] eqn:E; simpl; try done.
      intros Hr Hf. apply andb_true_iff in Hf as [Hop Hf].
      apply negb_true_iff in Hop.
      destruct (step_scope_frame _ _ _ E Hop) as [E1 E2].
      apply (IH s1); [|done..]. destruct H0. split; congruence. }
  by apply G.
Qed.

(** What holds when a [Stop] that had a scope to cancel returns. *)
Lemma Stop_Ok_facts s sched c s' :
  inv s → stopCtxCancel s = Some c → Stop sched s = Ok s' →
  stopCtx s' = Some c ∧ ctx_done c s' = true ∧
  (∀ t tk, tasks s' !! t = Some tk → t_pc tk = Exited) ∧
  channels s' = ∅ ∧
  ∃ s1, run_sched sched (cancel c s) = Ok s1 ∧ s' = set_channels (λ _, ∅) s1.
Proof.
  intros Hi Hc H.
  destruct (unsafeStop_Ok _ _ _ H) as [[Hn _]|(c' & s1 & Hc' & Hrun & Hw & ->)];
    [congruence|].
  assert (c' = c) as -> by congruence.
  pose proof (inv_cancel c s Hi) as Hi0.
  pose proof (run_sched_inv _ _ _ Hi0 Hrun) as Hi1.
  destruct (run_sched_frame _ _ _ Hrun) as [F _].
  pose proof (cancel_fields c s) as (_ & Fctx & _).
  destruct (inv_5 _ Hi) as (C1 & C0 & _). rewrite Hc in C1.
  destruct (C0 c (eq_sym C1)) as (k & p & -> & Hk).
  simpl. repeat split.
  + destruct F as (_&_&->&_). by rewrite Fctx.
  + unfold ctx_done. apply bool_decide_eq_true.
    change (Err (CancelCtx k p) s1 ≠ None). rewrite (Err_frame _ _ _ F).
    rewrite cancel_Err by done. by destruct (Err (CancelCtx k p) s).
  + intros t tk Ht. eapply live_0; [|done]. by rewrite <- (inv_4 _ Hi1).
  + by exists s1.
Qed.

(** C6. [Stop] on a reachable store.  With no cancel function installed
    (as in every store reached without a [Start]) it returns the store as it
    is.  Otherwise it cancels the scope and lets the goroutines run: it
    returns only when every goroutine has returned, the scope is then done
    and the registry empty; while a goroutine has not returned it stays
    blocked; and it does return, under the schedule [drain], when every
    running goroutine is on a scope and the current scope had not ended by a
    deadline. *)
Theorem Stop_spec (s : State) (sched : list (nat * Event)) :
  reachable s →
  (stopCtxCancel s = None → Stop sched s = Ok s) ∧
  (∀ config nick ops,
     run ops (NewChannelReconciler config nick) = Ok s →
     forallb (λ op, negb (is_Start op)) ops = true → Stop sched s = Ok s) ∧
  (∀ c, stopCtxCancel s = Some c →
     (∀ s', Stop sched s = Ok s' →
        stopCtx s' = Some c ∧ ctx_done c s' = true ∧
        (∀ t tk, tasks s' !! t = Some tk → t_pc tk = Exited) ∧
        channels s' = ∅ ∧
        ∃ s1, run_sched sched (cancel c s) = Ok s1 ∧
              s' = set_channels (λ _, ∅) s1) ∧
     (∀ s1, run_sched sched (cancel c s) = Ok s1 →
        (∃ t tk, tasks s1 !! t = Some tk ∧ t_pc tk ≠ Exited) →
        Stop sched s = Blocked) ∧
     (Err c s ≠ Some DeadlineExceeded →
      (∀ t tk, tasks s !! t = Some tk → t_pc tk ≠ Exited → t_scope tk ≠ None) →
      ∃ s', Stop (drain (length (tasks s))) s = Ok s')).
Proof.
  intros Hr. pose proof (reachable_inv _ Hr) as Hi.
  assert (Hnone : stopCtxCancel s = None → Stop sched s = Ok s).
  { intros Hn. unfold Stop, unsafeStop. by rewrite Hn. }
  split; [done|]. split.
  { intros config nick ops Hrun Hf. apply Hnone.
    by destruct (never_started _ _ _ _ Hrun Hf). }
  intros c Hc. split; [|split].
  - intros s' H. by apply Stop_Ok_facts.
  - intros s1 Hrun (t & tk & Ht & Hx). unfold Stop, unsafeStop. rewrite Hc, Hrun. simpl.
    pose proof (run_sched_inv _ _ _ (inv_cancel c s Hi) Hrun) as Hi1.
    pose proof (live_pos _ _ _ Ht Hx) as Hl. rewrite <- (inv_4 _ Hi1) in Hl.
    destruct (decide (stopWg s1 = 0)); [lia|done].
  - by apply Stop_returns.
Qed.

Lemma Stop_spec_witness :
  reachable demo_joined ∧
  (∃ s', Stop (drain (length (tasks demo_joined))) demo_joined = Ok s') ∧
  (∀ s', Stop (drain 2) demo_joined = Ok s' →
     (∀ t tk, tasks s' !! t = Some tk → t_pc tk = Exited) ∧ channels s' = ∅) ∧
  Stop [] demo_joined = Blocked.
Proof.
  assert (Hc : stopCtxCancel demo_joined = Some (CancelCtx 0 (Extern 0)))
    by (vm_compute; reflexivity).
  split; [exact reachable_demo_joined|]. split; [|split].
  - destruct (Stop_spec demo_joined [] reachable_demo_joined) as (_ & _ & H).
    destruct (H _ Hc) as (_ & _ & H3). apply H3.
    + vm_compute. discriminate.
    + intros t tk Ht Hx. destruct t as [|[|t]]; vm_compute in Ht.
      * injection Ht as <-. discriminate.
      * injection Ht as <-. discriminate.
      * discriminate.
  - destruct (Stop_spec demo_joined (drain 2) reachable_demo_joined) as (_ & _ & H).
    destruct (H _ Hc) as (H1 & _ & _). intros s' Hs'.
    destruct (H1 s' Hs') as (_ & _ & H2 & H3 & _). split; assumption.
  - destruct (Stop_spec demo_joined [] reachable_demo_joined) as (_ & _ & H).
    destruct (H _ Hc) as (_ & H2 & _). eapply H2.
    + vm_compute. reflexivity.
    + exists 0. eexists. split; [vm_compute; reflexivity | discriminate].
Defined.

(** ** JoinChannel outside a run *)





(** ** Start *)

Lemma last_index_None name chs :
  (∀ j ch, chs !! j = Some ch → Name ch ≠ name) → last_index name chs = None.
Proof.
  induction chs as [|c0 r IH]; intros H; simpl; [done|].
  rewrite IH by (intros j ch Hj; by apply (H (S j))).
  destruct (decide (Name c0 = name)) as [E|]; [|done]. by destruct (H 0 c0).
Qed.

Lemma last_index_unique chs i ch :
  chs !! i = Some ch →
  (∀ j ch', i < j → chs !! j = Some ch' → Name ch' ≠ Name ch) →
  last_index (Name ch) chs = Some i.
Proof.
  revert i. induction chs as [|c0 r IH]; intros i Hi Hl; [done|].
  destruct i as [|i]; simpl in *.
  - injection Hi as ->. rewrite last_index_None.
    + by destruct (decide (Name ch = Name ch)).
    + intros j ch' Hj. apply (Hl (S j)); [lia|done].
  - rewrite (IH i Hi); [done|]. intros j ch' Hlt Hj. apply (Hl (S j)); [lia|done].
Qed.

Lemma unsafeAddChannel_fields ch s :
  let s' := (unsafeAddChannel ch s).2 in
  loops s' = loops s ++ [new_loop ch s] ∧
  tasks s' = tasks s ++ [new_task s] ∧
  channels s' = <[Name ch := length (loops s)]> (channels s) ∧
  stopCtx s' = stopCtx s ∧ stopCtxCancel s' = stopCtxCancel s ∧
  cancelled s' = cancelled s ∧ externs s' = externs s.
Proof. rewrite unsafeAddChannel_eq. done. Qed.

(** What [add_all] builds: one loop and one goroutine per entry, in order,
    after those that exist; the registry maps a name to the loop of the last
    entry of that name, and is otherwise as before. *)
Lemma add_all_spec chs s :
  inv_tasks s →
  length (loops (add_all chs s)) = length (loops s) + length chs ∧
  length (tasks (add_all chs s)) = length (tasks s) + length chs ∧
  stopCtx (add_all chs s) = stopCtx s ∧
  stopCtxCancel (add_all chs s) = stopCtxCancel s ∧
  cancelled (add_all chs s) = cancelled s ∧ externs (add_all chs s) = externs s ∧
  (∀ i, i < length (loops s) →
     loops (add_all chs s) !! i = loops s !! i ∧
     tasks (add_all chs s) !! i = tasks s !! i) ∧
  (∀ i ch, chs !! i = Some ch →
     ∃ st, loops (add_all chs s) !! (length (loops s) + i) = Some st ∧
       channel st = ch ∧ joined st = false ∧
       tasks (add_all chs s) !! (length (loops s) + i) =
         Some {| t_loop := length (loops s) + i; t_scope := stopCtx s;
                 t_pc := LoopHead |}) ∧
  (∀ name, channels (add_all chs s) !! name =
     match last_index name chs with
     | Some i => Some (length (loops s) + i)
     | None => channels s !! name
     end).
Proof.
  revert s. induction chs as [|ch chs IH]; intros s [T1 T2].
  - simpl. rewrite !Nat.add_0_r. repeat split; done.
  - change (add_all (ch :: chs) s) with (add_all chs (unsafeAddChannel ch s).2).
    pose proof (unsafeAddChannel_fields ch s) as (El & Et & Ec & E1 & E2 & E3 & E4).
    set (s1 := (unsafeAddChannel ch s).2) in *.
    assert (Hi1 : inv_tasks s1).
    { split.
      - rewrite El, Et, !length_app. simpl. lia.
      - intros t tk. rewrite Et. intros Ht.
        apply lookup_app_Some in Ht as [Ht|[Hge Ht]]; [eauto|].
        apply list_lookup_singleton_Some in Ht as [Hz <-]. simpl. lia. }
    destruct (IH s1 Hi1) as (L1 & L2 & L3 & L4 & L5 & L6 & P & N & R).
    assert (Hlen : length (loops s1) = S (length (loops s)))
      by (rewrite El, length_app; simpl; lia).
    assert (Hlent : length (tasks s1) = S (length (tasks s)))
      by (rewrite Et, length_app; simpl; lia).
    simpl length. split; [lia|]. split; [lia|].
    split; [congruence|]. split; [congruence|]. split; [congruence|].
    split; [congruence|]. split; [|split].
    + intros i Hi. destruct (P i) as [P1 P2]; [lia|]. rewrite P1, P2, El, Et.
      rewrite !lookup_app_l by lia. done.
    + intros [|i] ch' Hch; simpl in Hch.
      * injection Hch as <-. rewrite Nat.add_0_r.
        destruct (P (length (loops s))) as [P1 P2]; [lia|]. rewrite P1, P2, El, Et.
        rewrite lookup_app_r by lia. rewrite Nat.sub_diag.
        rewrite lookup_app_r by lia. rewrite T1, Nat.sub_diag.
        exists (new_loop ch s). done.
      * destruct (N i ch' Hch) as (st & N1 & N2 & N3 & N4).
        rewrite Hlen in N1, N4. rewrite E1 in N4.
        replace (length (loops s) + S i) with (S (length (loops s)) + i) by lia.
        exists st. done.
    + intros name. rewrite R, Hlen. cbn [last_index].
      destruct (last_index name chs) as [i|].
      * f_equal. lia.
      * rewrite Ec. destruct (decide (Name ch = name)) as [<-|Hne].
        -- rewrite lookup_insert_eq. f_equal. lia.
        -- by rewrite lookup_insert_ne.
Qed.

(** C7 does not hold as stated: after a [JoinChannel] before the first
    [Start], the stop inside [Start] is a no-op that leaves the registry as
    it is, so the registry is not empty before it is repopulated, and the
    early entry (whose goroutine has no scope) is still there afterwards. *)
Lemma Start_registry_not_empty_counterexample :
  reachable demo_early ∧
  (∃ s1, unsafeStop [] demo_early = Ok s1 ∧ channels s1 ≠ ∅ ∧
         channels s1 !! "#c" = Some 0) ∧
  (∃ s', Start (Some (Extern 0)) [] demo_early = Ok s' ∧
         channels s' !! "#c" = Some 0 ∧
         tasks s' !! 0 = Some {| t_loop := 0; t_scope := None; t_pc := LoopHead |}).
Proof.
  split; [|split].
  - exact reachable_demo_early.
  - exists demo_early. split; [vm_compute; reflexivity|]. split.
    + intros H. assert (E : channels demo_early !! "#c" = Some 0)
        by (vm_compute; reflexivity).
      rewrite H, lookup_empty in E. discriminate.
    + vm_compute. reflexivity.
  - eexists. split; [vm_compute; reflexivity|]. split; vm_compute; reflexivity.
Qed.

(** C7, amended.  [Start] with a parent context on a reachable store first
    does what [Stop] does: nothing when no scope was installed before (the
    registry then stays as it is), and otherwise it returns with every
    goroutine returned and the registry empty.  It then installs a scope that
    no goroutine had, made by [WithCancel] from the parent and done exactly
    when the parent is, and adds for each entry of the desired list, in order,
    one loop that is not joined and its goroutine, at the loop head on the new
    scope.  The registry maps each name of the list to the loop of the last
    entry of that name (the entry's own loop when no later entry repeats the
    name) and is otherwise what the stop left.  [Start] returns whenever its
    stop does; with a nil parent it then panics. *)
Theorem Start_spec (s : State) (p : Context) (sched : list (nat * Event)) :
  reachable s →
  (∀ s1, Stop sched s = Ok s1 →
     (∃ s', Start (Some p) sched s = Ok s') ∧ Start None sched s = Panic) ∧
  ∀ s', Start (Some p) sched s = Ok s' →
  ∃ s1 scope,
    Stop sched s = Ok s1 ∧
    (stopCtxCancel s = None → s1 = s) ∧
    (stopCtxCancel s ≠ None →
       channels s1 = ∅ ∧ ∀ t tk, tasks s1 !! t = Some tk → t_pc tk = Exited) ∧
    scope = CancelCtx (length (cancelled s1)) p ∧
    stopCtx s' = Some scope ∧ stopCtxCancel s' = Some scope ∧
    Err scope s' = Err p s' ∧
    (∀ t tk, tasks s1 !! t = Some tk → t_scope tk ≠ Some scope) ∧
    length (loops s') = length (loops s1) + length (preJoinChannels s) ∧
    length (tasks s') = length (tasks s1) + length (preJoinChannels s) ∧
    (∀ i, i < length (loops s1) →
       loops s' !! i = loops s1 !! i ∧ tasks s' !! i = tasks s1 !! i) ∧
    (∀ i ch, preJoinChannels s !! i = Some ch →
       ∃ st, loops s' !! (length (loops s1) + i) = Some st ∧
         channel st = ch ∧ joined st = false ∧
         tasks s' !! (length (loops s1) + i) =
           Some {| t_loop := length (loops s1) + i; t_scope := Some scope;
                   t_pc := LoopHead |} ∧
         ((∀ j ch', i < j → preJoinChannels s !! j = Some ch' → Name ch' ≠ Name ch) →
          channels s' !! Name ch = Some (length (loops s1) + i))) ∧
    (∀ name, channels s' !! name =
       match last_index name (preJoinChannels s) with
       | Some i => Some (length (loops s1) + i)
       | None => channels s1 !! name
       end).
Proof.
  intros Hr. split.
  { intros s1 Hs. unfold Stop in Hs. unfold Start. rewrite Hs. simpl.
    split; [by eexists | done]. }
  intros s' H. pose proof (reachable_inv _ Hr) as Hi.
  destruct (Start_Ok _ _ _ _ H) as (p' & s1 & [= <-] & Hs & ->).
  pose proof (inv_unsafeStop _ _ _ Hi Hs) as Hi1.
  assert (Hpre : preJoinChannels s1 = preJoinChannels s).
  { destruct (unsafeStop_Ok _ _ _ Hs) as [[_ ->]|(c & s0 & _ & Hrun & _ & ->)]; [done|].
    simpl. destruct (run_sched_frame _ _ _ Hrun) as [(->&_) _]. apply cancel_fields. }
  set (s2 := set_scope (WithCancel p s1).1 (WithCancel p s1).2).
  assert (Hi2 : inv_tasks s2) by apply (inv_3 _ Hi1).
  change (preJoinChannels s2) with (preJoinChannels s1). rewrite Hpre.
  destruct (add_all_spec (preJoinChannels s) s2 Hi2)
    as (L1 & L2 & L3 & L4 & L5 & L6 & P & N & R).
  exists s1, (CancelCtx (length (cancelled s1)) p).
  split; [done|]. split.
  { intros Hn. destruct (unsafeStop_Ok _ _ _ Hs) as [[_ ->]|(c & ? & ? & _)]; [done|congruence]. }
  split.
  { intros Hn. destruct (unsafeStop_Ok _ _ _ Hs) as [[? _]|(c & s0 & _ & Hrun & Hw & ->)]; [done|].
    split; [done|]. intros t tk Ht. eapply live_0; [|exact Ht].
    change (live (tasks s0) = 0).
    pose proof (run_sched_inv _ _ _ (inv_cancel c s Hi) Hrun) as Hi0.
    by rewrite <- (inv_4 _ Hi0). }
  split; [done|]. split; [done|]. split; [done|]. split.
  { unfold Err. rewrite L5, L6. simpl.
    rewrite lookup_app_r by done. by rewrite Nat.sub_diag. }
  split.
  { intros t tk Ht Hsc. destruct (inv_6 _ Hi1 _ _ _ Ht Hsc) as (k & q & [= -> _] & Hk).
    lia. }
  split; [done|]. split; [done|]. split; [exact P|]. split.
  { intros i ch Hch. destruct (N i ch Hch) as (st & N1 & N2 & N3 & N4).
    exists st. repeat split; try done.
    intros Hl. rewrite R. by rewrite (last_index_unique _ _ _ Hch Hl). }
  exact R.
Qed.

Lemma Start_spec_witness :
  reachable demo_stopped ∧
  ∃ s', Start (Some (Extern 0)) [] demo_stopped = Ok s' ∧
    stopCtx s' = Some (CancelCtx 1 (Extern 0)) ∧
    channels s' !! "#a" = Some 2 ∧ channels s' !! "#b" = Some 3 ∧
    length (loops s') = 4.
Proof.
  pose proof reachable_demo_stopped as Hr.
  split; [exact Hr|].
  assert (E : Stop [] demo_stopped = Ok demo_stopped) by (vm_compute; reflexivity).
  destruct (Start_spec demo_stopped (Extern 0) [] Hr) as [Hret Hspec].
  destruct (Hret _ E) as [[s' Hs] _]. exists s'.
  destruct (Hspec s' Hs)
    as (s1 & scope & H1 & _ & _ & -> & H2 & _ & _ & _ & H3 & _ & _ & _ & H4).
  assert (E1 : s1 = demo_stopped) by (rewrite E in H1; by injection H1).
  subst s1.
  split; [exact Hs|]. split; [exact H2|].
  split; [rewrite H4; vm_compute; reflexivity|].
  split; [rewrite H4; vm_compute; reflexivity|].
  rewrite H3. vm_compute. reflexivity.
Defined.

(** ** The registry *)

(** C8 does not hold as stated: after [Start], [Stop] and [JoinChannel],
    the registry has an entry whose goroutine has returned. *)
Lemma registry_entry_exited_counterexample :
  reachable demo_detached ∧
  channels demo_detached !! "#c" = Some 2 ∧
  tasks demo_detached !! 2 =
    Some {| t_loop := 2; t_scope := Some (CancelCtx 0 (Extern 0)); t_pc := Exited |}.
Proof.
  split; [exact reachable_demo_detached|]. split; vm_compute; reflexivity.
Qed.

(** C8, amended.  In every reachable store a registered name maps to one
    loop, which is a loop for the channel of that name and is run by exactly
    one goroutine, spawned with no scope or with the current one; if that
    goroutine has returned, then it was spawned with the current scope and
    that scope is cancelled. *)
Theorem registry_invariant (s : State) (name : string) (c : nat) :
  reachable s → channels s !! name = Some c →
  ∃ st tk, loops s !! c = Some st ∧ Name (channel st) = name ∧
    tasks s !! c = Some tk ∧ t_loop tk = c ∧
    (∀ t' tk', tasks s !! t' = Some tk' → t_loop tk' = c → t' = c) ∧
    (t_scope tk = None ∨ t_scope tk = stopCtx s) ∧
    (t_pc tk = Exited →
       ∃ ctx, stopCtx s = Some ctx ∧ t_scope tk = Some ctx ∧
              Err ctx s = Some Canceled).
Proof.
  intros Hr Hc. pose proof (reachable_inv _ Hr) as [_ R [T1 T2] _ (_ & _ & _ & C3 & C4) _].
  destruct (R _ _ Hc) as (st & Hst & Hn).
  assert (Hlt : c < length (tasks s)) by (rewrite T1; by eapply lookup_lt_Some).
  apply lookup_lt_is_Some in Hlt as [tk Htk].
  exists st, tk. repeat split; try done.
  - by apply T2.
  - intros t' tk' Ht' <-. symmetry. by apply T2.
  - by apply (C3 name c).
  - intros Hx. destruct (C4 _ _ Htk Hx) as (ctx & Hs & He). exists ctx.
    destruct (C3 _ _ _ Hc Htk) as [E|E]; [congruence|]. split; [congruence|done].
Qed.

Lemma registry_invariant_witness :
  reachable demo_detached ∧
  ∃ st tk, loops demo_detached !! 2 = Some st ∧ Name (channel st) = "#c" ∧
    tasks demo_detached !! 2 = Some tk ∧ t_loop tk = 2 ∧
    (∀ t' tk', tasks demo_detached !! t' = Some tk' → t_loop tk' = 2 → t' = 2) ∧
    (t_scope tk = None ∨ t_scope tk = stopCtx demo_detached) ∧
    (t_pc tk = Exited →
       ∃ ctx, stopCtx demo_detached = Some ctx ∧ t_scope tk = Some ctx ∧
              Err ctx demo_detached = Some Canceled).
Proof.
  assert (Hc : channels demo_detached !! "#c" = Some 2) by (vm_compute; reflexivity).
  split; [exact reachable_demo_detached|].
  exact (registry_invariant demo_detached "#c" 2 reachable_demo_detached Hc).
Defined.

(** ** More about the goroutine's steps *)

Lemma Monitor_step_facts t ev s s' :
  Monitor t ev s = Ok s' →
  ∃ tk pc', tasks s !! t = Some tk ∧
    tasks s' = <[t := with_pc pc' tk]> (tasks s) ∧
    (t_pc tk = LoopHead → t_scope tk ≠ None) ∧
    (∀ u, pc' = Parked u →
       ∃ st, loops s !! t_loop tk = Some st ∧ joinUnsetSignal st = u) ∧
    (sent s' = sent s ∨
     (t_pc tk = Delaying ∧ ev = EvDelayElapsed ∧
      ∃ st, loops s !! t_loop tk = Some st ∧
        sent s' = sent s ++ [(Name (channel st), Password (channel st))])).
Proof.
  unfold Monitor, join, monitorJoinUnset, JoinDone, wgDone. intros H.
  destruct (tasks s !! t) as [tk|] eqn:Etk; [|done].
  exists tk.
  pose proof (λ pc, alter_with_pc _ _ _ pc Etk) as Halt.
  destruct (t_pc tk) eqn:Epc, ev; try done; simpl in H;
    split_outcome H;
    try (simpl in H; destruct (stopWg s) eqn:?; simpl in H; try done);
    injection H as <-; eexists; (split; [done|]);
    (split; [simpl; apply Halt|]); (split; [done|]);
    (split; [intros u Hu; try done; injection Hu as <-; eauto|]); simpl;
    first [ by left | right; eauto 10 ].
Qed.

(** ** Parked goroutines and sent requests: what every reachable store keeps *)

Lemma inv2_frame s s' :
  inv_park s ∧ inv_sent s →
  tasks s' = tasks s → loops s' = loops s → sent s' = sent s →
  preJoinChannels s' = preJoinChannels s →
  length (chans s) ≤ length (chans s') →
  inv_park s' ∧ inv_sent s'.
Proof.
  intros [(P1 & P2 & P3 & P4) (Q1 & Q2)] Et El Es Ep Hc.
  unfold inv_park, inv_sent. rewrite Et, El, Es, Ep.
  repeat split; try done. intros i st Hi. specialize (P3 i st Hi). lia.
Qed.

Lemma inv2_task_update s s' t tk pc' :
  inv_park s ∧ inv_sent s →
  tasks s !! t = Some tk →
  tasks s' = <[t := with_pc pc' tk]> (tasks s) →
  loops s' = loops s → chans s' = chans s →
  preJoinChannels s' = preJoinChannels s →
  (t_scope tk = None → pc' = LoopHead) →
  (∀ u, pc' = Parked u →
     ∃ st, loops s !! t_loop tk = Some st ∧ joinUnsetSignal st = u) →
  (sent s' = sent s ∨
   ∃ st, loops s !! t_loop tk = Some st ∧
     sent s' = sent s ++ [(Name (channel st), Password (channel st))]) →
  inv_park s' ∧ inv_sent s'.
Proof.
  intros [(P1 & P2 & P3 & P4) (Q1 & Q2)] Htk Et El Ec Ep H1 H2 Hs.
  assert (Hlook : ∀ i x, tasks s' !! i = Some x →
            (i = t ∧ x = with_pc pc' tk) ∨ (i ≠ t ∧ tasks s !! i = Some x)).
  { intros i x. rewrite Et. destruct (decide (t = i)) as [->|Hne].
    - rewrite list_lookup_insert_eq by (by eapply lookup_lt_Some).
      intros [= <-]. by left.
    - rewrite list_lookup_insert_ne by done. eauto. }
  split.
  - unfold inv_park. rewrite El, Ec. repeat split; try done.
    + intros i x Hx Hsc. destruct (Hlook i x Hx) as [[-> ->]|[_ Hy]]; eauto.
    + intros i x u Hx Hp. destruct (Hlook i x Hx) as [[-> ->]|[_ Hy]]; eauto.
  - unfold inv_sent. rewrite El, Ep. split; [done|].
    intros n p. destruct Hs as [->|(st & Hst & ->)]; intros Hin; [eauto|].
    apply elem_of_app in Hin as [Hin|Hin]; [eauto|].
    apply list_elem_of_singleton in Hin. injection Hin as -> ->.
    exists (t_loop tk), st. split; [done|]. by destruct (channel st).
Qed.

Lemma inv2_Monitor t ev s s' :
  inv_park s ∧ inv_sent s → Monitor t ev s = Ok s' → inv_park s' ∧ inv_sent s'.
Proof.
  intros Hi H.
  destruct (Monitor_step_facts _ _ _ _ H) as (tk & pc' & Htk & Hts & H1 & H2 & Hs).
  destruct (Monitor_Ok _ _ _ _ H) as (_ & _ & _ & _ & _ & F & _).
  destruct F as (Fp & _ & _ & _ & Fl & Fc & _).
  eapply inv2_task_update; eauto.
  - intros Hn. destruct Hi as [(P1 & _) _]. by destruct (H1 (P1 _ _ Htk Hn)).
  - destruct Hs as [?|(_ & _ & ?)]; eauto.
Qed.

Lemma inv2_run_sched sched s s' :
  inv_park s ∧ inv_sent s → run_sched sched s = Ok s' → inv_park s' ∧ inv_sent s'.
Proof.
  revert s. induction sched as [|[t ev] rest IH]; intros s Hi; simpl.
  - by intros [= <-].
  - destruct (Monitor t ev s) eqn:E; [|done|]; eauto using inv2_Monitor.
Qed.

Lemma inv2_loop_update s s' c st st' :
  inv_park s ∧ inv_sent s →
  loops s !! c = Some st → loops s' = <[c := st']> (loops s) →
  channel st' = channel st → joinUnsetSignal st' = joinUnsetSignal st →
  tasks s' = tasks s → sent s' = sent s →
  preJoinChannels s' = preJoinChannels s →
  length (chans s) ≤ length (chans s') →
  inv_park s' ∧ inv_sent s'.
Proof.
  intros [(P1 & P2 & P3 & P4) (Q1 & Q2)] Hst El Ech Eju Et Es Ep Hc.
  assert (Hlook : ∀ i x, loops s' !! i = Some x →
            ∃ y, loops s !! i = Some y ∧ channel x = channel y ∧
                 joinUnsetSignal x = joinUnsetSignal y).
  { intros i x. rewrite El. destruct (decide (c = i)) as [->|Hne].
    - rewrite list_lookup_insert_eq by (by eapply lookup_lt_Some).
      intros [= <-]. eauto.
    - rewrite list_lookup_insert_ne by done. eauto. }
  assert (Hback : ∀ i y, loops s !! i = Some y →
            ∃ x, loops s' !! i = Some x ∧ channel x = channel y ∧
                 joinUnsetSignal x = joinUnsetSignal y).
  { intros i y Hy. rewrite El. destruct (decide (c = i)) as [->|Hne].
    - rewrite list_lookup_insert_eq by (by eapply lookup_lt_Some).
      assert (y = st) as -> by congruence. eauto.
    - rewrite list_lookup_insert_ne by done. eauto. }
  split.
  - unfold inv_park. rewrite Et. repeat split; try done.
    + intros t tk u Ht Hp. destruct (P2 t tk u Ht Hp) as (y & Hy & <-).
      destruct (Hback _ _ Hy) as (x & Hx & _ & Hju). eauto.
    + intros i x Hx. destruct (Hlook i x Hx) as (y & Hy & _ & ->).
      specialize (P3 i y Hy). lia.
    + intros i j x y Hx Hy.
      destruct (Hlook i x Hx) as (x' & Hx' & _ & ->).
      destruct (Hlook j y Hy) as (y' & Hy' & _ & ->). eauto.
  - unfold inv_sent. rewrite Es, Ep. split.
    + intros i x Hx. destruct (Hlook i x Hx) as (y & Hy & -> & _). eauto.
    + intros n p Hin. destruct (Q2 n p Hin) as (i & y & Hy & Hch).
      destruct (Hback _ _ Hy) as (x & Hx & Hc' & _). exists i, x.
      split; [done|congruence].
Qed.

Lemma inv2_Printf msg s : inv_park s ∧ inv_sent s → inv_park (Printf msg s) ∧ inv_sent (Printf msg s).
Proof. intros H. by eapply inv2_frame. Qed.

Lemma inv2_SetJoined c s s' :
  inv_park s ∧ inv_sent s → SetJoined c s = Ok s' → inv_park s' ∧ inv_sent s'.
Proof.
  intros Hi H. destruct (SetJoined_Ok _ _ _ H) as (st & Hst & [[_ ->]|(_ & _ & ->)]).
  { by apply inv2_Printf. }
  eapply (inv2_loop_update s _ c st (with_joined true st)); eauto; simpl.
  by rewrite length_insert.
Qed.

Lemma inv2_poke st s : inv_park s ∧ inv_sent s → inv_park (poke st s) ∧ inv_sent (poke st s).
Proof.
  intros Hi. unfold poke.
  destruct (poke_tasks _ (tasks s)) as [ts|] eqn:E; [|done].
  apply inv2_Printf.
  destruct (poke_tasks_Some _ _ _ E) as (i & tk & Hi1 & Hp & ->).
  eapply (inv2_task_update s _ i tk LoopHead);
    [exact Hi | exact Hi1 | reflexivity | reflexivity | reflexivity | reflexivity
    | done | done | by left].
Qed.

Lemma inv2_UnsetJoined c s s' :
  inv_park s ∧ inv_sent s → UnsetJoined c s = Ok s' → inv_park s' ∧ inv_sent s'.
Proof.
  intros Hi H. destruct (UnsetJoined_Ok _ _ _ H) as (st & Hst & [[_ ->]|(_ & ->)]).
  { by apply inv2_Printf. }
  apply inv2_poke.
  eapply (inv2_loop_update s _ c st
            (with_joinDone (length (chans s)) (with_joined false st))); eauto; simpl.
  rewrite length_app. lia.
Qed.

Lemma inv2_unsafeAddChannel ch s :
  inv_park s ∧ inv_sent s →
  ch ∈ preJoinChannels s ∨ Password ch = "" →
  inv_park (unsafeAddChannel ch s).2 ∧ inv_sent (unsafeAddChannel ch s).2.
Proof.
  rewrite unsafeAddChannel_eq. simpl.
  intros [(P1 & P2 & P3 & P4) (Q1 & Q2)] Hch.
  assert (Hlook : ∀ i x, (loops s ++ [new_loop ch s]) !! i = Some x →
            x = new_loop ch s ∨ loops s !! i = Some x).
  { intros i x Hx. apply lookup_app_Some in Hx as [Hx|[Hge Hx]]; [by right|].
    apply list_lookup_singleton_Some in Hx as [_ <-]. by left. }
  assert (Htask : ∀ i x, (tasks s ++ [new_task s]) !! i = Some x →
            x = new_task s ∨ tasks s !! i = Some x).
  { intros i x Hx. apply lookup_app_Some in Hx as [Hx|[Hge Hx]]; [by right|].
    apply list_lookup_singleton_Some in Hx as [_ <-]. by left. }
  split.
  - repeat split; simpl.
    + intros t tk Ht Hsc. destruct (Htask t tk Ht) as [->|Hy]; [done|eauto].
    + intros t tk u Ht Hp. destruct (Htask t tk Ht) as [->|Hy]; [done|].
      destruct (P2 t tk u Hy Hp) as (st & Hst & Hju). exists st.
      split; [by apply lookup_app_l_Some | done].
    + intros i x Hx. rewrite !length_app. simpl.
      destruct (Hlook i x Hx) as [->|Hy]; simpl; [lia|].
      specialize (P3 i x Hy). lia.
    + intros i j x y Hx Hy Heq.
      assert (Hidx : ∀ k z, (loops s ++ [new_loop ch s]) !! k = Some z →
                z = new_loop ch s → loops s !! k = None ∧ k = length (loops s)).
      { intros k z Hz ->. apply lookup_app_Some in Hz as [Hz|[Hge Hz]].
        - specialize (P3 k _ Hz). simpl in P3. lia.
        - apply list_lookup_singleton_Some in Hz as [Hk _].
          split; [by apply lookup_ge_None_2 | lia]. }
      destruct (Hlook i x Hx) as [Ex|Hx'], (Hlook j y Hy) as [Ey|Hy'].
      * destruct (Hidx i x Hx Ex), (Hidx j y Hy Ey). congruence.
      * subst x. specialize (P3 j y Hy'). simpl in Heq. lia.
      * subst y. specialize (P3 i x Hx'). simpl in Heq. lia.
      * eauto.
  - split; simpl.
    + intros i x Hx. destruct (Hlook i x Hx) as [->|Hy]; [done|eauto].
    + intros n p Hin. destruct (Q2 n p Hin) as (i & st & Hst & Hc). exists i, st.
      split; [by apply lookup_app_l_Some | done].
Qed.

Lemma unsafeAddChannel_preJoin ch s :
  preJoinChannels (unsafeAddChannel ch s).2 = preJoinChannels s.
Proof. by rewrite unsafeAddChannel_eq. Qed.

Lemma inv2_add_all chs s :
  inv_park s ∧ inv_sent s → chs ⊆ preJoinChannels s →
  inv_park (add_all chs s) ∧ inv_sent (add_all chs s).
Proof.
  unfold add_all. revert s.
  induction chs as [|ch chs IH]; intros s Hi Hsub; cbn [foldl]; [done|].
  apply IH.
  - apply inv2_unsafeAddChannel; [done|]. left. apply Hsub. by left.
  - rewrite unsafeAddChannel_preJoin. intros x Hx. apply Hsub. by right.
Qed.

Lemma inv2_unsafeStop sched s s' :
  inv_park s ∧ inv_sent s → unsafeStop sched s = Ok s' → inv_park s' ∧ inv_sent s'.
Proof.
  intros Hi H.
  destruct (unsafeStop_Ok _ _ _ H) as [[_ ->]|(c & s1 & _ & Hr & _ & ->)]; [done|].
  assert (H0 : inv_park (cancel c s) ∧ inv_sent (cancel c s)).
  { pose proof (cancel_fields c s) as (_&_&_&_&El&Ec&Et&_&_&Ep).
    eapply inv2_frame; eauto; [|by rewrite Ec].
    destruct c as [k|k p]; [done|]. unfold cancel. by destruct (Err _ s). }
  pose proof (inv2_run_sched _ _ _ H0 Hr) as H1.
  by eapply inv2_frame.
Qed.

Lemma unsafeStop_preJoin sched s s' :
  unsafeStop sched s = Ok s' → preJoinChannels s' = preJoinChannels s.
Proof.
  intros H.
  destruct (unsafeStop_Ok _ _ _ H) as [[_ ->]|(c & s0 & _ & Hrun & _ & ->)]; [done|].
  simpl. destruct (run_sched_frame _ _ _ Hrun) as [(->&_) _]. apply cancel_fields.
Qed.

Lemma inv2_Start parent sched s s' :
  inv_park s ∧ inv_sent s → Start parent sched s = Ok s' → inv_park s' ∧ inv_sent s'.
Proof.
  intros Hi H. destruct (Start_Ok _ _ _ _ H) as (p & s1 & _ & Hs & ->).
  pose proof (inv2_unsafeStop _ _ _ Hi Hs) as H1.
  apply inv2_add_all; [|done]. by eapply inv2_frame.
Qed.

Lemma inv2_step op s s' :
  inv_park s ∧ inv_sent s → step op s = Ok s' → inv_park s' ∧ inv_sent s'.
Proof.
  intros Hi. destruct op; simpl.
  - by apply inv2_Start.
  - by apply inv2_unsafeStop.
  - destruct (JoinChannel chname s) as [r| |] eqn:E; simpl; try done.
    intros [= <-]. rewrite (JoinChannel_Ok _ _ _ E).
    destruct (channels s !! chname); [done|].
    apply inv2_unsafeAddChannel; [by apply inv2_Printf | by right].
  - unfold HandleJoin. destruct (decide (nick ≠ me s)); [by intros [= <-]|].
    simpl. destruct (channels s !! chname).
    + apply inv2_SetJoined. by apply inv2_Printf.
    + intros [= <-]. by do 2 apply inv2_Printf.
  - unfold HandleKick. destruct (decide (nick ≠ me s)); [by intros [= <-]|].
    simpl. destruct (channels s !! chname).
    + apply inv2_UnsetJoined. by apply inv2_Printf.
    + intros [= <-]. by do 2 apply inv2_Printf.
  - by apply inv2_Monitor.
  - intros [= <-]. eapply inv2_frame; eauto; unfold ctx_end; by destruct (externs s !! k).
Qed.

Lemma reachable_inv2 s : reachable s → inv_park s ∧ inv_sent s.
Proof.
  intros (config & nick & ops & H). revert H.
  assert (H0 : inv_park (NewChannelReconciler config nick) ∧
               inv_sent (NewChannelReconciler config nick)).
  { split; repeat split; simpl; intros *; rewrite ?lookup_nil; try done.
    by intros ?%elem_of_nil. }
  revert H0. generalize (NewChannelReconciler config nick).
  induction ops as [|op ops IH]; intros s0 H0; simpl.
  - by intros [= <-].
  - destruct (step op s0) as [s1| |] eqn:E; simpl; try done.
    apply IH. by eapply inv2_step.
Qed.

(** ** The requests given to the client *)

Lemma add_all_preJoin chs s : preJoinChannels (add_all chs s) = preJoinChannels s.
Proof.
  unfold add_all. revert s. induction chs as [|ch chs IH]; intros s; cbn [foldl]; [done|].
  by rewrite IH, unsafeAddChannel_preJoin.
Qed.

Lemma step_preJoin op s s' : step op s = Ok s' → preJoinChannels s' = preJoinChannels s.
Proof.
  destruct op; simpl.
  - intros H. destruct (Start_Ok _ _ _ _ H) as (p & s1 & _ & Hs & ->).
    rewrite add_all_preJoin. simpl. by eapply unsafeStop_preJoin.
  - apply unsafeStop_preJoin.
  - destruct (JoinChannel chname s) as [r| |] eqn:E; simpl; try done.
    intros [= <-]. rewrite (JoinChannel_Ok _ _ _ E).
    destruct (channels s !! chname); [done|]. by rewrite unsafeAddChannel_preJoin.
  - unfold HandleJoin. destruct (decide (nick ≠ me s)); [by intros [= <-]|].
    simpl. destruct (channels s !! chname); [|by intros [= <-]].
    intros H. destruct (SetJoined_Ok _ _ _ H) as (st & _ & [[_ ->]|(_ & _ & ->)]); done.
  - unfold HandleKick. destruct (decide (nick ≠ me s)); [by intros [= <-]|].
    simpl. destruct (channels s !! chname); [|by intros [= <-]].
    intros H. destruct (UnsetJoined_Ok _ _ _ H) as (st & _ & [[_ ->]|(_ & ->)]); [done|].
    unfold poke. by destruct (poke_tasks _ _).
  - intros H. by destruct (Monitor_Ok _ _ _ _ H) as (_ & _ & _ & _ & _ & (-> & _) & _).
  - intros [= <-]. unfold ctx_end. by destruct (externs s !! k).
Qed.

Lemma run_preJoin ops s s' : run ops s = Ok s' → preJoinChannels s' = preJoinChannels s.
Proof.
  revert s. induction ops as [|op ops IH]; intros s; simpl.
  - by intros [= <-].
  - destruct (step op s) as [s1| |] eqn:E; simpl; try done.
    intros H. rewrite (IH _ H). by eapply step_preJoin.
Qed.

(** X1. Whatever the run, every Join request that was given to the client
    names the channel of a loop and carries that loop's password, and it is
    either a channel of the configuration with its configured password or
    carries the empty password. *)
Theorem sent_requests_are_for_loops (config : Config) (nick : string)
    (ops : list Op) (s : State) (n p : string) :
  run ops (NewChannelReconciler config nick) = Ok s →
  (n, p) ∈ sent s →
  (∃ i st, loops s !! i = Some st ∧ channel st = {| Name := n; Password := p |}) ∧
  ({| Name := n; Password := p |} ∈ IRCChannels config ∨ p = "").
Proof.
  intros Hrun Hin.
  assert (Hr : reachable s) by (by exists config, nick, ops).
  destruct (reachable_inv2 _ Hr) as [_ [Q1 Q2]].
  destruct (Q2 n p Hin) as (i & st & Hst & Hch). split; [eauto|].
  destruct (Q1 i st Hst) as [Hc|Hc].
  - left. rewrite <- Hch. by rewrite (run_preJoin _ _ _ Hrun) in Hc.
  - right. by rewrite Hch in Hc.
Qed.

Lemma sent_requests_are_for_loops_witness :
  run [OpStart (Some 0) []; OpMonitor 0 EvRun; OpMonitor 0 EvDelayElapsed]
      (NewChannelReconciler demo_config "relay") = Ok demo_requested ∧
  ("#a", "pw") ∈ sent demo_requested ∧
  (∃ i st, loops demo_requested !! i = Some st ∧
           channel st = {| Name := "#a"; Password := "pw" |}) ∧
  ({| Name := "#a"; Password := "pw" |} ∈ IRCChannels demo_config ∨ "pw" = "").
Proof.
  assert (Hrun : run [OpStart (Some 0) []; OpMonitor 0 EvRun; OpMonitor 0 EvDelayElapsed]
                   (NewChannelReconciler demo_config "relay") = Ok demo_requested)
    by (vm_compute; reflexivity).
  assert (Hin : ("#a", "pw") ∈ sent demo_requested)
    by (vm_compute; apply list_elem_of_here).
  split; [exact Hrun|]. split; [exact Hin|].
  exact (sent_requests_are_for_loops _ _ _ _ _ _ Hrun Hin).
Defined.

(** ** The wake notice *)

Lemma poke_tasks_None sig (ts : list Task) :
  (∀ t tk, ts !! t = Some tk → t_pc tk ≠ Parked sig) → poke_tasks sig ts = None.
Proof.
  induction ts as [|x ts IH]; intros H; simpl; [done|].
  destruct (decide (t_pc x = Parked sig)) as [Hp|_]; [by destruct (H 0 x eq_refl)|].
  rewrite IH; [done|]. intros t tk Ht. by apply (H (S t)).
Qed.

Lemma poke_tasks_unique sig (ts : list Task) t tk :
  ts !! t = Some tk → t_pc tk = Parked sig →
  (∀ t' tk', ts !! t' = Some tk' → t_pc tk' = Parked sig → t' = t) →
  poke_tasks sig ts = Some (<[t := with_pc LoopHead tk]> ts).
Proof.
  revert t. induction ts as [|x ts IH]; intros t Ht Hp Hu; [done|]. simpl.
  destruct (decide (t_pc x = Parked sig)) as [Hx|Hx].
  - assert (0 = t) as <- by (by apply (Hu 0 x)). by injection Ht as ->.
  - destruct t as [|t]; simpl in Ht; [by injection Ht as ->|].
    rewrite (IH t Ht Hp); [done|].
    intros t' tk' Ht' Hp'. specialize (Hu (S t') tk' Ht' Hp'). lia.
Qed.

(** Who is parked on the wake channel of loop [c]: its own goroutine, or
    nobody. *)
Lemma parked_on_own_loop s c st t tk :
  inv s → inv_park s → loops s !! c = Some st →
  tasks s !! t = Some tk → t_pc tk = Parked (joinUnsetSignal st) → t = c.
Proof.
  intros Hi (_ & P2 & _ & P4) Hst Ht Hp.
  destruct (P2 _ _ _ Ht Hp) as (st' & Hst' & Hju).
  destruct (inv_3 _ Hi) as [_ T2]. rewrite (T2 _ _ Ht) in Hst'.
  by apply (P4 t c st' st).
Qed.

(** What an effective [UnsetJoined] does to the store. *)
Lemma UnsetJoined_effect s c st tk :
  inv s → inv_park s → loops s !! c = Some st → joined st = true →
  tasks s !! c = Some tk →
  ∃ s', UnsetJoined c s = Ok s' ∧
    tasks s' = (if is_parked (t_pc tk)
                then <[c := with_pc LoopHead tk]> (tasks s) else tasks s) ∧
    loops s' = <[c := with_joinDone (length (chans s)) (with_joined false st)]> (loops s) ∧
    chans s' = chans s ++ [false] ∧ sent s' = sent s ∧
    externs s' = externs s ∧ cancelled s' = cancelled s ∧ stopWg s' = stopWg s.
Proof.
  intros Hi Hp Hst Hj Htk.
  eexists. unfold UnsetJoined. rewrite Hst. simpl. rewrite Hj. simpl.
  split; [done|]. unfold poke. simpl.
  destruct (is_parked (t_pc tk)) eqn:Epk.
  - assert (Hpk : t_pc tk = Parked (joinUnsetSignal st)).
    { destruct (t_pc tk) eqn:E; try done.
      destruct Hp as (_ & P2 & _). destruct (P2 _ _ _ Htk E) as (st' & Hst' & <-).
      destruct (inv_3 _ Hi) as [_ T2]. rewrite (T2 _ _ Htk) in Hst'. congruence. }
    rewrite (poke_tasks_unique _ _ c tk Htk Hpk); [done|].
    intros t' tk' Ht' Hp'. by eapply parked_on_own_loop.
  - rewrite poke_tasks_None; [done|].
    intros t tk' Ht Hp'.
    assert (t = c) as -> by (by eapply parked_on_own_loop).
    assert (tk' = tk) as -> by congruence. by rewrite Hp' in Epk.
Qed.

(** X2. [UnsetJoined] on a joined loop wakes the goroutine of that loop when
    it is parked (it is then at the loop head) and touches no goroutine
    otherwise; the goroutines of other loops are never touched. *)
Theorem UnsetJoined_wakes_own_goroutine (s : State) (c : nat)
    (st : channelState) (tk : Task) :
  reachable s → loops s !! c = Some st → joined st = true →
  tasks s !! c = Some tk →
  ∃ s', UnsetJoined c s = Ok s' ∧
    tasks s' !! c =
      Some (if is_parked (t_pc tk) then with_pc LoopHead tk else tk) ∧
    ∀ t, t ≠ c → tasks s' !! t = tasks s !! t.
Proof.
  intros Hr Hst Hj Htk. pose proof (reachable_inv _ Hr) as Hi.
  destruct (reachable_inv2 _ Hr) as [Hp _].
  destruct (UnsetJoined_effect s c st tk Hi Hp Hst Hj Htk) as (s' & H & Ht & _).
  exists s'. split; [done|]. rewrite Ht.
  destruct (is_parked (t_pc tk)); [|done]. split.
  - apply list_lookup_insert_eq. by eapply lookup_lt_Some.
  - intros t Hne. by rewrite list_lookup_insert_ne.
Qed.

Lemma reachable_demo_parked : reachable demo_parked.
Proof.
  exists demo_config, "relay",
    [OpStart (Some 0) []; OpMonitor 0 EvRun; OpMonitor 0 EvDelayElapsed;
     OpMonitor 0 EvRun; OpHandleJoin "relay" "#a"; OpMonitor 0 EvJoinDone;
     OpMonitor 0 EvRun; OpMonitor 0 EvRun].
  vm_compute. reflexivity.
Qed.

Lemma reachable_demo_parking : reachable demo_parking.
Proof.
  exists demo_config, "relay",
    [OpStart (Some 0) []; OpMonitor 0 EvRun; OpMonitor 0 EvDelayElapsed;
     OpMonitor 0 EvRun; OpHandleJoin "relay" "#a"; OpMonitor 0 EvJoinDone;
     OpMonitor 0 EvRun].
  vm_compute. reflexivity.
Qed.

Lemma UnsetJoined_wakes_own_goroutine_witness :
  reachable demo_parked ∧
  ∃ s', UnsetJoined 0 demo_parked = Ok s' ∧
    tasks s' !! 0 = Some {| t_loop := 0; t_scope := Some (CancelCtx 0 (Extern 0));
                            t_pc := LoopHead |} ∧
    ∀ t, t ≠ 0 → tasks s' !! t = tasks demo_parked !! t.
Proof.
  assert (Hst : loops demo_parked !! 0 = Some
    {| channel := {| Name := "#a"; Password := "pw" |};
       delayer := NewDelayer 300 1800 Second;
       joinDone := 0; joined := true; joinUnsetSignal := 1 |})
    by (vm_compute; reflexivity).
  assert (Htk : tasks demo_parked !! 0 =
                Some {| t_loop := 0; t_scope := Some (CancelCtx 0 (Extern 0));
                        t_pc := Parked 1 |}) by (vm_compute; reflexivity).
  split; [exact reachable_demo_parked|].
  exact (UnsetJoined_wakes_own_goroutine _ _ _ _ reachable_demo_parked Hst eq_refl Htk).
Defined.

(** X3. The wake notice can be lost.  When the goroutine of a joined loop has
    read [joined] but has not entered its select yet, [UnsetJoined] wakes
    nobody; the goroutine then parks although its loop is not joined, and
    has sent nothing.  In that store, while its scope is not done, no event
    of the goroutine is enabled, and a further [UnsetJoined] only logs. *)
Theorem lost_wake_leaves_goroutine_parked (s : State) (t : nat) (tk : Task)
    (st : channelState) (ctx : Context) :
  reachable s → tasks s !! t = Some tk → t_pc tk = Parking →
  loops s !! t = Some st → joined st = true → t_scope tk = Some ctx →
  ∃ s1 s2 st2,
    UnsetJoined t s = Ok s1 ∧ tasks s1 = tasks s ∧
    Monitor t EvRun s1 = Ok s2 ∧
    tasks s2 !! t = Some (with_pc (Parked (joinUnsetSignal st)) tk) ∧
    loops s2 !! t = Some st2 ∧ joined st2 = false ∧ sent s2 = sent s ∧
    (Err ctx s2 = None → ∀ ev, Monitor t ev s2 = Blocked) ∧
    (∃ msg, UnsetJoined t s2 = Ok (Printf msg s2)).
Proof.
  intros Hr Htk Hpc Hst Hj Hctx. pose proof (reachable_inv _ Hr) as Hi.
  destruct (reachable_inv2 _ Hr) as [Hp _].
  destruct (UnsetJoined_effect s t st tk Hi Hp Hst Hj Htk)
    as (s1 & H1 & Ht1 & Hl1 & _ & Hs1 & He1 & Hc1 & _).
  rewrite Hpc in Ht1. simpl in Ht1.
  destruct (inv_3 _ Hi) as [_ T2]. pose proof (T2 _ _ Htk) as Hloop.
  set (st1 := with_joinDone (length (chans s)) (with_joined false st)) in *.
  assert (Hst1 : loops s1 !! t = Some st1).
  { rewrite Hl1. apply list_lookup_insert_eq. by eapply lookup_lt_Some. }
  assert (Htk1 : tasks s1 !! t = Some tk) by (by rewrite Ht1).
  set (pk := Parked (joinUnsetSignal st)).
  exists s1, (set_pc t pk s1), st1.
  split; [done|]. split; [done|].
  assert (Htk2 : tasks (set_pc t pk s1) !! t = Some (with_pc pk tk)).
  { simpl. by apply lookup_alter_pc. }
  split.
  { unfold Monitor, monitorJoinUnset. rewrite Htk1, Hpc. simpl.
    rewrite Hloop, Hst1. done. }
  split; [done|]. split; [done|]. split; [done|]. split; [done|]. split.
  - intros He ev. unfold Monitor, monitorJoinUnset. rewrite Htk2. simpl.
    destruct ev; try done. rewrite Hctx, Hloop. simpl. rewrite Hst1. simpl.
    unfold ctx_done, Err in *. simpl in He |- *. rewrite He. done.
  - eexists. unfold UnsetJoined. simpl. rewrite Hst1. simpl. done.
Qed.

Lemma lost_wake_leaves_goroutine_parked_witness :
  reachable demo_parking ∧
  ∃ s1 s2 st2,
    UnsetJoined 0 demo_parking = Ok s1 ∧ tasks s1 = tasks demo_parking ∧
    Monitor 0 EvRun s1 = Ok s2 ∧
    tasks s2 !! 0 = Some {| t_loop := 0; t_scope := Some (CancelCtx 0 (Extern 0));
                            t_pc := Parked 1 |} ∧
    loops s2 !! 0 = Some st2 ∧ joined st2 = false ∧ sent s2 = sent demo_parking ∧
    (Err (CancelCtx 0 (Extern 0)) s2 = None → ∀ ev, Monitor 0 ev s2 = Blocked) ∧
    (∃ msg, UnsetJoined 0 s2 = Ok (Printf msg s2)).
Proof.
  assert (Hst : loops demo_parking !! 0 = Some
    {| channel := {| Name := "#a"; Password := "pw" |};
       delayer := NewDelayer 300 1800 Second;
       joinDone := 0; joined := true; joinUnsetSignal := 1 |})
    by (vm_compute; reflexivity).
  assert (Htk : tasks demo_parking !! 0 =
                Some {| t_loop := 0; t_scope := Some (CancelCtx 0 (Extern 0));
                        t_pc := Parking |}) by (vm_compute; reflexivity).
  split; [exact reachable_demo_parking|].
  exact (lost_wake_leaves_goroutine_parked _ _ _ _ _ reachable_demo_parking
           Htk eq_refl Hst eq_refl eq_refl).
Defined.

(** ** What never panics *)

Lemma SetJoined_returns s c :
  inv s → is_Some (loops s !! c) → ∃ s', SetJoined c s = Ok s'.
Proof.
  intros Hi [st Hst]. unfold SetJoined, close. rewrite Hst. simpl.
  destruct (joined st) eqn:Hj; [by eexists|]. simpl.
  destruct (inv_1 _ Hi) as [S1 _]. destruct (S1 _ _ Hst) as [Hlt Hcl].
  rewrite Hj in Hcl. unfold is_closed in Hcl.
  apply lookup_lt_is_Some in Hlt as [b Hb]. rewrite Hb in Hcl |- *. simpl in Hcl.
  subst b. by eexists.
Qed.

Lemma UnsetJoined_returns s c :
  is_Some (loops s !! c) → ∃ s', UnsetJoined c s = Ok s'.
Proof.
  intros [st Hst]. unfold UnsetJoined. rewrite Hst. simpl.
  destruct (joined st); simpl; by eexists.
Qed.

Lemma handlers_always_return_aux s chname :
  inv s →
  (∀ nick, ∃ s', HandleJoin nick chname s = Ok s') ∧
  (∀ nick, ∃ s', HandleKick nick chname s = Ok s') ∧
  (∃ r, JoinChannel chname s = Ok r).
Proof.
  intros Hi. split; [|split].
  - intros nick. unfold HandleJoin. destruct (decide (nick ≠ me s)); [by eexists|]. simpl.
    destruct (channels s !! chname) as [c|] eqn:E; [|by eexists].
    apply SetJoined_returns; [by apply inv_Printf|].
    destruct (inv_2 _ Hi _ _ E) as (st & Hst & _). by exists st.
  - intros nick. unfold HandleKick. destruct (decide (nick ≠ me s)); [by eexists|]. simpl.
    destruct (channels s !! chname) as [c|] eqn:E; [|by eexists].
    apply UnsetJoined_returns.
    destruct (inv_2 _ Hi _ _ E) as (st & Hst & _). by exists st.
  - destruct (channels s !! chname) as [c|] eqn:E.
    + destruct (JoinChannel_registered chname s c Hi E) as (st & _ & H). by eexists.
    + destruct (JoinChannel_created chname s Hi E) as (st & H & _). by eexists.
Qed.

(** X4. In every reachable store [HandleJoin], [HandleKick] and
    [JoinChannel] return normally, whatever their arguments: they never
    block and never panic; in particular [SetJoined] never closes a channel
    that is already closed. *)
Theorem handlers_always_return (s : State) (nick chname : string) :
  reachable s →
  (∃ s', HandleJoin nick chname s = Ok s') ∧
  (∃ s', HandleKick nick chname s = Ok s') ∧
  (∃ r, JoinChannel chname s = Ok r).
Proof.
  intros Hr. pose proof (reachable_inv _ Hr) as Hi.
  destruct (handlers_always_return_aux s chname Hi) as (H1 & H2 & H3). eauto.
Qed.

Lemma handlers_always_return_witness :
  reachable demo_joined ∧
  (∃ s', HandleJoin "relay" "#a" demo_joined = Ok s') ∧
  (∃ s', HandleKick "relay" "#b" demo_joined = Ok s') ∧
  (∃ r, JoinChannel "#zz" demo_joined = Ok r).
Proof.
  split; [exact reachable_demo_joined|].
  destruct (handlers_always_return demo_joined "relay" "#a" reachable_demo_joined)
    as (H1 & _ & _).
  destruct (handlers_always_return demo_joined "relay" "#b" reachable_demo_joined)
    as (_ & H2 & _).
  destruct (handlers_always_return demo_joined "relay" "#zz" reachable_demo_joined)
    as (_ & _ & H3).
  split; [exact H1|]. split; [exact H2 | exact H3].
Defined.

Lemma Monitor_no_panic s t tk ev :
  inv s → tasks s !! t = Some tk → t_scope tk ≠ None → Monitor t ev s ≠ Panic.
Proof.
  intros Hi Htk Hsc.
  assert (Hst : ∃ st, loops s !! t_loop tk = Some st).
  { destruct (inv_3 _ Hi) as [T1 T2]. rewrite (T2 _ _ Htk).
    apply lookup_lt_is_Some. rewrite <- T1. by eapply lookup_lt_Some. }
  destruct Hst as [st Hst]. destruct (t_scope tk) as [ctx|] eqn:Hctx; [|done].
  unfold Monitor, join, monitorJoinUnset, JoinDone. rewrite Htk.
  destruct (t_pc tk) eqn:Epc, ev; try done; rewrite ?Hctx, ?Hst; simpl;
    repeat case_match; try done.
  (* the return: the counter is positive *)
  assert (Hx : t_pc tk ≠ Exited) by (by rewrite Epc).
  pose proof (live_pos _ _ _ Htk Hx) as Hl. rewrite <- (inv_4 _ Hi) in Hl.
  unfold wgDone. simpl. by destruct (stopWg s); [lia|].
Qed.

Lemma scoped_Monitor t ev s s' : scoped s → Monitor t ev s = Ok s' → scoped s'.
Proof.
  intros Hsc H. destruct (Monitor_Ok _ _ _ _ H) as (tk & pc' & Htk & _ & Hts & _).
  intros i x. rewrite Hts. destruct (decide (t = i)) as [->|Hne].
  - rewrite list_lookup_insert_eq by (by eapply lookup_lt_Some).
    intros [= <-]. simpl. eauto.
  - rewrite list_lookup_insert_ne by done. apply Hsc.
Qed.

Lemma run_sched_no_panic sched s :
  inv s → scoped s → run_sched sched s ≠ Panic.
Proof.
  revert s. induction sched as [|[t ev] rest IH]; intros s Hi Hsc; simpl; [done|].
  destruct (Monitor t ev s) as [s1| |] eqn:E.
  - apply IH; [by eapply inv_Monitor | by eapply scoped_Monitor].
  - destruct (tasks s !! t) as [tk|] eqn:Etk.
    + by destruct (Monitor_no_panic s t tk ev Hi Etk (Hsc _ _ Etk)).
    + unfold Monitor in E. by rewrite Etk in E.
  - by apply IH.
Qed.

Lemma run_sched_scoped sched s s' : scoped s → run_sched sched s = Ok s' → scoped s'.
Proof.
  revert s. induction sched as [|[t ev] rest IH]; intros s Hsc; simpl.
  - by intros [= <-].
  - destruct (Monitor t ev s) eqn:E; [|done|]; eauto using scoped_Monitor.
Qed.

Lemma unsafeStop_no_panic sched s : inv s → scoped s → unsafeStop sched s ≠ Panic.
Proof.
  intros Hi Hsc. unfold unsafeStop. destruct (stopCtxCancel s) as [c|]; [|done].
  assert (H0 : scoped (cancel c s)).
  { intros t tk. pose proof (cancel_fields c s) as (_&_&_&_&_&_&->&_). apply Hsc. }
  pose proof (run_sched_no_panic sched _ (inv_cancel c s Hi) H0) as Hn.
  destruct (run_sched sched (cancel c s)); simpl; try done.
  by destruct (decide (stopWg a = 0)).
Qed.

(** When every goroutine has a scope, a step of the system panics only if
    it is a [Start] with a nil parent. *)
Lemma scoped_step_no_panic op s :
  reachable s → scoped s → step op s = Panic → is_nil_Start op = true.
Proof.
  intros Hr Hsc. pose proof (reachable_inv _ Hr) as Hi. destruct op; simpl.
  - pose proof (unsafeStop_no_panic sched s Hi Hsc) as Hn. unfold Start.
    destruct (unsafeStop sched s); simpl; try done. by destruct parent.
  - intros H. by destruct (unsafeStop_no_panic sched s Hi Hsc).
  - destruct (handlers_always_return_aux s chname Hi) as (_ & _ & r & ->). done.
  - destruct (handlers_always_return_aux s chname Hi) as (H & _). 
    intros Hp. specialize (H nick). destruct H as [s' H]. congruence.
  - destruct (handlers_always_return_aux s chname Hi) as (_ & H & _).
    intros Hp. specialize (H nick). destruct H as [s' H]. congruence.
  - intros H. destruct (tasks s !! t) as [tk|] eqn:Etk.
    + by destruct (Monitor_no_panic s t tk ev Hi Etk (Hsc _ _ Etk)).
    + unfold Monitor in H. by rewrite Etk in H.
  - done.
Qed.

Lemma scoped_unsafeAddChannel ch s :
  scoped s → stopCtx s ≠ None → scoped (unsafeAddChannel ch s).2.
Proof.
  intros Hsc Hn t x Hx. rewrite unsafeAddChannel_eq in Hx. cbn [snd tasks] in Hx.
  apply lookup_app_Some in Hx as [Hx|[_ Hx]]; [eauto|].
  by apply list_lookup_singleton_Some in Hx as [_ <-].
Qed.

Lemma scoped_add_all chs s :
  scoped s → stopCtx s ≠ None →
  scoped (add_all chs s) ∧ stopCtx (add_all chs s) = stopCtx s.
Proof.
  unfold add_all. revert s.
  induction chs as [|ch chs IH]; intros s Hsc Hn; cbn [foldl]; [done|].
  pose proof (unsafeAddChannel_fields ch s) as (_ & _ & _ & E & _).
  destruct (IH (unsafeAddChannel ch s).2) as [H1 H2].
  - by apply scoped_unsafeAddChannel.
  - by rewrite E.
  - split; [done|]. by rewrite H2.
Qed.

Lemma scoped_unsafeStop sched s s' : scoped s → unsafeStop sched s = Ok s' → scoped s'.
Proof.
  intros Hsc H.
  destruct (unsafeStop_Ok _ _ _ H) as [[_ ->]|(c & s1 & _ & Hr & _ & ->)]; [done|].
  assert (H0 : scoped (cancel c s)).
  { intros t tk. pose proof (cancel_fields c s) as (_&_&_&_&_&_&->&_). apply Hsc. }
  exact (run_sched_scoped _ _ _ H0 Hr).
Qed.

Lemma scoped_poke st s : scoped s → scoped (poke st s).
Proof.
  intros Hsc. unfold poke. destruct (poke_tasks _ (tasks s)) as [ts|] eqn:E; [|done].
  destruct (poke_tasks_Some _ _ _ E) as (i & tk & Hi & _ & ->).
  intros t x. simpl. destruct (decide (i = t)) as [->|Hne].
  - rewrite list_lookup_insert_eq by (by eapply lookup_lt_Some).
    intros [= <-]. simpl. eauto.
  - rewrite list_lookup_insert_ne by done. apply Hsc.
Qed.

(** Once a scope is installed and every goroutine has one, it stays so. *)
Lemma step_scoped op s s' :
  scoped s → stopCtx s ≠ None ∨ is_Start op = true → step op s = Ok s' →
  scoped s' ∧ stopCtx s' ≠ None.
Proof.
  intros Hsc Hn H.
  assert (Hfr : is_Start op = false → stopCtx s ≠ None → stopCtx s' ≠ None).
  { intros Hop Hs. destruct (step_scope_frame _ _ _ H Hop) as [-> _]. done. }
  destruct op; simpl in *.
  - destruct (Start_Ok _ _ _ _ H) as (p & s1 & _ & Hs & ->).
    pose proof (scoped_unsafeStop _ _ _ Hsc Hs) as H1.
    destruct (scoped_add_all (preJoinChannels s1)
                (set_scope (WithCancel p s1).1 (WithCancel p s1).2)) as [H2 H3];
      [exact H1 | done |].
    split; [exact H2|]. by rewrite H3.
  - destruct Hn as [Hn|?]; [|done]. split; [by eapply scoped_unsafeStop | auto].
  - destruct Hn as [Hn|?]; [|done]. split; [|auto].
    destruct (JoinChannel chname s) as [r| |] eqn:E; simpl in H; try done.
    injection H as <-. rewrite (JoinChannel_Ok _ _ _ E).
    destruct (channels s !! chname); [done|]. by apply scoped_unsafeAddChannel.
  - destruct Hn as [Hn|?]; [|done]. split; [|auto].
    unfold HandleJoin in H. destruct (decide (nick ≠ me s)); [by injection H as <-|].
    simpl in H. destruct (channels s !! chname); [|by injection H as <-].
    destruct (SetJoined_Ok _ _ _ H) as (st & _ & [[_ ->]|(_ & _ & ->)]); done.
  - destruct Hn as [Hn|?]; [|done]. split; [|auto].
    unfold HandleKick in H. destruct (decide (nick ≠ me s)); [by injection H as <-|].
    simpl in H. destruct (channels s !! chname); [|by injection H as <-].
    destruct (UnsetJoined_Ok _ _ _ H) as (st & _ & [[_ ->]|(_ & ->)]); [done|].
    by apply scoped_poke.
  - destruct Hn as [Hn|?]; [|done]. split; [by eapply scoped_Monitor | auto].
  - destruct Hn as [Hn|?]; [|done]. split; [|auto].
    injection H as <-. unfold ctx_end. by destruct (externs s !! k).
Qed.

Lemma scoped_run_no_panic ops s :
  reachable s → scoped s → stopCtx s ≠ None → run ops s = Panic →
  existsb is_nil_Start ops = true.
Proof.
  revert s. induction ops as [|op ops IH]; intros s Hr Hsc Hn; simpl; [done|].
  destruct (step op s) as [s1| |] eqn:E; simpl; try done.
  - intros H. destruct (step_scoped _ _ _ Hsc (or_introl Hn) E) as [H1 H2].
    rewrite (IH s1); [by rewrite orb_true_r | by eapply reachable_step | done..].
  - intros _. by rewrite (scoped_step_no_panic _ _ Hr Hsc E).
Qed.

(** X5. A reconciler whose first operation is a [Start] with a parent
    context never panics afterwards, whatever is called on it and however its
    goroutines are scheduled, unless [Start] is later called with a nil
    parent. *)
Theorem started_first_never_panics (config : Config) (nick : string) (k : nat)
    (sched : list (nat * Event)) (ops : list Op) :
  run (OpStart (Some k) sched :: ops) (NewChannelReconciler config nick) = Panic →
  existsb is_nil_Start ops = true.
Proof.
  cbn [run]. set (s0 := NewChannelReconciler config nick).
  assert (Hr0 : reachable s0) by (exists config, nick, []; done).
  assert (Hsc0 : scoped s0) by (intros t tk; simpl; by rewrite lookup_nil).
  destruct (step (OpStart (Some k) sched) s0) as [s1| |] eqn:E; simpl; try done.
  destruct (step_scoped (OpStart (Some k) sched) _ _ Hsc0 (or_intror eq_refl) E)
    as [H1 H2].
  apply scoped_run_no_panic; [by eapply reachable_step | done..].
Qed.

Lemma started_first_never_panics_witness :
  run (OpStart (Some 0) [] :: [OpStart None (drain 2)])
      (NewChannelReconciler demo_config "relay") = Panic ∧
  existsb is_nil_Start [OpStart None (drain 2)] = true.
Proof.
  assert (H : run (OpStart (Some 0) [] :: [OpStart None (drain 2)])
                (NewChannelReconciler demo_config "relay") = Panic)
    by (vm_compute; reflexivity).
  split; [exact H|].
  exact (started_first_never_panics demo_config "relay" 0 [] _ H).
Defined.

(** ** Stop, twice *)

Lemma run_sched_all_exited sched s :
  (∀ t tk, tasks s !! t = Some tk → t_pc tk = Exited) → run_sched sched s = Ok s.
Proof.
  intros Hx. induction sched as [|[t ev] rest IH]; simpl; [done|].
  assert (Monitor t ev s = Blocked) as ->; [|done].
  unfold Monitor. destruct (tasks s !! t) as [tk|] eqn:E; [|done].
  by rewrite (Hx _ _ E).
Qed.

(** X6. [Stop] is idempotent: after a [Stop] that returned, another [Stop]
    returns at once, under every schedule, and leaves the store as it is. *)
Theorem Stop_idempotent (s : State) (sched sched' : list (nat * Event)) (s1 : State) :
  reachable s → Stop sched s = Ok s1 → Stop sched' s1 = Ok s1.
Proof.
  intros Hr H. pose proof (reachable_inv _ Hr) as Hi.
  destruct (stopCtxCancel s) as [c|] eqn:Hc.
  - destruct (Stop_Ok_facts s sched c s1 Hi Hc H) as (Hctx & Hd & Hx & He & s0 & Hrun & ->).
    assert (Hc1 : stopCtxCancel (set_channels (λ _, ∅) s0) = Some c).
    { simpl. destruct (run_sched_frame _ _ _ Hrun) as [(_&_&_&->&_) _].
      pose proof (cancel_fields c s) as (_ & _ & -> & _). done. }
    unfold Stop, unsafeStop. rewrite Hc1.
    assert (Hcan : cancel c (set_channels (λ _, ∅) s0) = set_channels (λ _, ∅) s0).
    { unfold ctx_done in Hd. apply bool_decide_eq_true in Hd.
      destruct c as [k|k p]; [done|]. unfold cancel.
      by destruct (Err (CancelCtx k p) (set_channels (λ _, ∅) s0)). }
    rewrite Hcan, (run_sched_all_exited sched' _ Hx). simpl.
    assert (Hw : stopWg s0 = 0).
    { unfold Stop, unsafeStop in H. rewrite Hc, Hrun in H. simpl in H.
      by destruct (decide (stopWg s0 = 0)). }
    destruct (decide (stopWg s0 = 0)); done.
  - unfold Stop, unsafeStop in H. rewrite Hc in H. injection H as <-.
    unfold Stop, unsafeStop. by rewrite Hc.
Qed.

Lemma Stop_idempotent_witness :
  reachable demo_joined ∧
  Stop (drain 2) demo_joined = Ok demo_joined_stopped ∧
  Stop [(0, EvRun); (1, EvTimeout)] demo_joined_stopped = Ok demo_joined_stopped.
Proof.
  assert (H : Stop (drain 2) demo_joined = Ok demo_joined_stopped)
    by (vm_compute; reflexivity).
  split; [exact reachable_demo_joined|]. split; [exact H|].
  exact (Stop_idempotent demo_joined (drain 2) _ _ reachable_demo_joined H).
Defined.

(** ** The signals that [JoinChannel] hands out *)

Lemma JoinChannel_open_signal chname s s0 d :
  inv s → JoinChannel chname s = Ok (s0, (false, Some d)) →
  inv s0 ∧ stopCtxCancel s0 = stopCtxCancel s ∧
  d < length (chans s0) ∧ is_closed d s0 = false ∧
  ∃ c st, channels s0 !! chname = Some c ∧ loops s0 !! c = Some st ∧
          joinDone st = d ∧ joined st = false.
Proof.
  intros Hi H.
  assert (Hi0 : inv s0).
  { apply (inv_step (OpJoinChannel chname) s); [done|]. simpl. by rewrite H. }
  split; [done|]. destruct (inv_1 _ Hi0) as [S1 _].
  destruct (channels s !! chname) as [c|] eqn:E.
  - destruct (JoinChannel_registered chname s c Hi E) as (st & Hst & H').
    rewrite H' in H. destruct (is_closed (joinDone st) s) eqn:Hc; [done|].
    injection H as <- <-. destruct (S1 _ _ Hst) as [Hlt Hj].
    split; [done|]. split; [done|]. split; [done|].
    exists c, st. rewrite <- Hj, Hc. done.
  - destruct (JoinChannel_created chname s Hi E) as (st & H' & Hch & Hl & _ & Hj & Hc).
    rewrite H' in H. injection H as <- <-.
    assert (Hst : loops (joined_new chname s) !! length (loops s) = Some st).
    { rewrite Hl, lookup_app_r by lia. by rewrite Nat.sub_diag. }
    destruct (S1 _ _ Hst) as [Hlt _].
    split.
    { unfold joined_new.
      by pose proof (unsafeAddChannel_fields {| Name := chname; Password := "" |}
             (Printf ("Request to JOIN new channel " +:+ chname) s))
        as (_ & _ & _ & _ & -> & _). }
    split; [done|]. split; [done|].
    exists (length (loops s)), st. rewrite Hch, lookup_insert_eq. done.
Qed.

Lemma stale_ext d s s' :
  chans s' = chans s → channels s' = channels s → loops s' = loops s →
  stale d s → stale d s'.
Proof. unfold stale, is_closed. by intros -> -> ->. Qed.

Lemma stale_unsafeAddChannel d ch s :
  stale d s → stale d (unsafeAddChannel ch s).2.
Proof.
  intros (Hlt & Hc & Hreg). rewrite unsafeAddChannel_eq. unfold stale, is_closed in *.
  cbn [snd chans channels loops set_channels set_tasks set_stopWg set_loops set_chans].
  rewrite !length_app. split; [lia|]. split.
  { by rewrite !lookup_app_l by (rewrite ?length_app; lia). }
  intros name c st Hn Hst.
  apply lookup_app_Some in Hst as [Hst|[Hge Hst]].
  - destruct (decide (Name ch = name)) as [<-|Hne].
    + rewrite lookup_insert_eq in Hn. injection Hn as <-.
      apply lookup_lt_Some in Hst. lia.
    + rewrite lookup_insert_ne in Hn by done. eauto.
  - apply list_lookup_singleton_Some in Hst as [_ <-]. simpl. lia.
Qed.

Lemma stale_add_all d chs s : stale d s → stale d (add_all chs s).
Proof.
  unfold add_all. revert s. induction chs as [|ch chs IH]; intros s H; cbn [foldl];
    [done|]. apply IH. by apply stale_unsafeAddChannel.
Qed.

Lemma stale_unsafeStop d sched s s' :
  d < length (chans s) → is_closed d s = false →
  stale d s ∨ stopCtxCancel s ≠ None →
  unsafeStop sched s = Ok s' → stale d s'.
Proof.
  intros Hlt Hc Hor H. pose proof (unsafeStop_chans _ _ _ H) as Ech.
  destruct (unsafeStop_Ok _ _ _ H) as [[Hn ->]|(c & s1 & _ & _ & _ & ->)].
  - by destruct Hor.
  - unfold stale, is_closed in *. rewrite Ech. split; [done|]. split; [done|].
    intros name c' st Hn. simpl in Hn. by rewrite lookup_empty in Hn.
Qed.

Lemma stale_Start d parent sched s s' :
  d < length (chans s) → is_closed d s = false →
  stale d s ∨ stopCtxCancel s ≠ None →
  Start parent sched s = Ok s' → stale d s'.
Proof.
  intros Hlt Hc Hor H. destruct (Start_Ok _ _ _ _ H) as (p & s1 & _ & Hs & ->).
  apply stale_add_all.
  apply (stale_ext d s1); [done..|]. by eapply stale_unsafeStop.
Qed.

Lemma stale_step d op s s' : stale d s → step op s = Ok s' → stale d s'.
Proof.
  intros Hst H. pose proof Hst as (Hlt & Hc & Hreg). destruct op; simpl in H.
  - eapply stale_Start; eauto.
  - eapply stale_unsafeStop; eauto.
  - destruct (JoinChannel chname s) as [r| |] eqn:E; simpl in H; try done.
    injection H as <-. rewrite (JoinChannel_Ok _ _ _ E).
    destruct (channels s !! chname); [done|].
    apply stale_unsafeAddChannel. by apply (stale_ext d s).
  - unfold HandleJoin in H. destruct (decide (nick ≠ me s)); [by injection H as <-|].
    simpl in H. destruct (channels s !! chname) as [c|] eqn:Ec;
      [|injection H as <-; by apply (stale_ext d s)].
    destruct (SetJoined_Ok _ _ _ H) as (st & Hl & [[_ ->]|(_ & _ & ->)]);
      [by apply (stale_ext d s)|].
    simpl in Hl. pose proof (Hreg _ _ _ Ec Hl) as Hne.
    unfold stale, is_closed in *. simpl. rewrite length_insert.
    split; [done|]. split; [by rewrite list_lookup_insert_ne|].
    intros name c' st' Hn Hst'. destruct (decide (c = c')) as [<-|Hcc].
    + rewrite list_lookup_insert_eq in Hst' by (by eapply lookup_lt_Some).
      by injection Hst' as <-.
    + rewrite list_lookup_insert_ne in Hst' by done. eauto.
  - unfold HandleKick in H. destruct (decide (nick ≠ me s)); [by injection H as <-|].
    simpl in H. destruct (channels s !! chname) as [c|] eqn:Ec;
      [|injection H as <-; by apply (stale_ext d s)].
    destruct (UnsetJoined_Ok _ _ _ H) as (st & Hl & [[_ ->]|(_ & ->)]);
      [by apply (stale_ext d s)|].
    simpl in Hl.
    match goal with |- stale d (poke st ?x) =>
      pose proof (poke_frame st x) as (P1 & P2 & P3); apply (stale_ext d x); [done..|]
    end.
    unfold stale, is_closed in *. simpl. rewrite length_app.
    split; [lia|]. split; [by rewrite lookup_app_l|].
    intros name c' st' Hn Hst'. destruct (decide (c = c')) as [<-|Hcc].
    + rewrite list_lookup_insert_eq in Hst' by (by eapply lookup_lt_Some).
      injection Hst' as <-. simpl. lia.
    + rewrite list_lookup_insert_ne in Hst' by done. eauto.
  - destruct (Monitor_Ok _ _ _ _ H) as (tk & pc' & _ & _ & _ & F & _).
    destruct F as (_ & F1 & _ & _ & F2 & F3 & _). by apply (stale_ext d s).
  - injection H as <-. apply (stale_ext d s); try done; unfold ctx_end;
      by destruct (externs s !! k).
Qed.

Lemma stale_run d ops s s' : stale d s → run ops s = Ok s' → stale d s'.
Proof.
  revert s. induction ops as [|op ops IH]; intros s Hst; simpl.
  - by intros [= <-].
  - destruct (step op s) as [s1| |] eqn:E; simpl; try done.
    eauto using stale_step.
Qed.

(** X7. A signal that [JoinChannel] handed out as not yet joined is dead
    once the reconciler is stopped or restarted: whatever happens afterwards,
    also a restart followed by a JOIN confirmation for the same channel, that
    signal is never closed; the channel's later loop has a signal of its
    own. *)
Theorem signal_stale_after_stop (s : State) (chname : string) (d : nat)
    (s0 : State) (op : Op) (s1 : State) (ops : list Op) (s' : State) :
  reachable s → stopCtxCancel s ≠ None →
  JoinChannel chname s = Ok (s0, (false, Some d)) →
  is_lifecycle op = true → step op s0 = Ok s1 →
  run ops s1 = Ok s' →
  is_closed d s' = false.
Proof.
  intros Hr Hn Hj Hop Hs Hrun. pose proof (reachable_inv _ Hr) as Hi.
  destruct (JoinChannel_open_signal _ _ _ _ Hi Hj) as (_ & Ec & Hlt & Hc & _).
  rewrite <- Ec in Hn.
  assert (H1 : stale d s1).
  { destruct op; try done; simpl in Hs.
    - eapply stale_Start; eauto.
    - eapply stale_unsafeStop; eauto. }
  by destruct (stale_run _ _ _ _ H1 Hrun) as (_ & ? & _).
Qed.

Lemma signal_stale_after_stop_witness :
  reachable demo_started ∧ stopCtxCancel demo_started ≠ None ∧
  JoinChannel "#b" demo_started = Ok (demo_started, (false, Some 2)) ∧
  step (OpStart (Some 0) (drain 2)) demo_started = Ok demo_restarted ∧
  run [OpMonitor 3 EvRun; OpMonitor 3 EvDelayElapsed; OpMonitor 3 EvRun;
       OpHandleJoin "relay" "#b"] demo_restarted = Ok demo_rejoined ∧
  JoinChannel "#b" demo_rejoined = Ok (demo_rejoined, (true, None)) ∧
  is_closed 2 demo_rejoined = false.
Proof.
  assert (H1 : stopCtxCancel demo_started ≠ None) by (vm_compute; discriminate).
  assert (H2 : JoinChannel "#b" demo_started = Ok (demo_started, (false, Some 2)))
    by (vm_compute; reflexivity).
  assert (H3 : step (OpStart (Some 0) (drain 2)) demo_started = Ok demo_restarted)
    by (vm_compute; reflexivity).
  assert (H4 : run [OpMonitor 3 EvRun; OpMonitor 3 EvDelayElapsed; OpMonitor 3 EvRun;
                    OpHandleJoin "relay" "#b"] demo_restarted = Ok demo_rejoined)
    by (vm_compute; reflexivity).
  assert (H5 : JoinChannel "#b" demo_rejoined = Ok (demo_rejoined, (true, None)))
    by (vm_compute; reflexivity).
  split; [exact reachable_demo_started|]. split; [exact H1|]. split; [exact H2|].
  split; [exact H3|]. split; [exact H4|]. split; [exact H5|].
  exact (signal_stale_after_stop demo_started "#b" 2 demo_started
           (OpStart (Some 0) (drain 2)) demo_restarted _ demo_rejoined
           reachable_demo_started H1 H2 eq_refl H3 H4).
Defined.

Lemma pending_ext chname d s s' :
  chans s' = chans s → channels s' = channels s → loops s' = loops s →
  pending chname d s → pending chname d s'.
Proof. unfold pending, is_closed. by intros -> -> ->. Qed.

Lemma pending_step chname d op s s' :
  pending chname d s → is_lifecycle op = false → step op s = Ok s' →
  pending chname d s'.
Proof.
  intros [Hc|(c & st & Hn & Hst & Hd & Hj)] Hop H.
  { left. apply is_closed_true. apply (step_chans_le _ _ _ H). by apply is_closed_true. }
  destruct op; try done; simpl in H.
  - destruct (JoinChannel chname0 s) as [r| |] eqn:E; simpl in H; try done.
    injection H as <-. rewrite (JoinChannel_Ok _ _ _ E).
    destruct (channels s !! chname0) eqn:E0; [right; by exists c, st|].
    right. exists c, st. rewrite unsafeAddChannel_eq.
    cbn [snd chans channels loops set_channels set_tasks set_stopWg set_loops set_chans
         Name Printf].
    rewrite lookup_insert_ne by congruence.
    rewrite lookup_app_l by (by eapply lookup_lt_Some). done.
  - unfold HandleJoin in H.
    destruct (decide (nick ≠ me s)); [injection H as <-; right; by exists c, st|].
    simpl in H. destruct (channels s !! chname0) as [c'|] eqn:Ec;
      [|injection H as <-; right; by exists c, st].
    destruct (SetJoined_Ok _ _ _ H) as (st' & Hl & [[_ ->]|(_ & Hch & ->)]);
      [right; by exists c, st|].
    simpl in Hl, Hch. destruct (decide (c' = c)) as [->|Hcc].
    + left. assert (st' = st) as -> by congruence. subst d.
      unfold is_closed. simpl.
      rewrite list_lookup_insert_eq by (by eapply lookup_lt_Some). done.
    + right. exists c, st. simpl. by rewrite list_lookup_insert_ne.
  - unfold HandleKick in H.
    destruct (decide (nick ≠ me s)); [injection H as <-; right; by exists c, st|].
    simpl in H. destruct (channels s !! chname0) as [c'|] eqn:Ec;
      [|injection H as <-; right; by exists c, st].
    destruct (UnsetJoined_Ok _ _ _ H) as (st' & Hl & [[_ ->]|(Hj' & ->)]);
      [right; by exists c, st|].
    simpl in Hl. assert (Hcc : c' ≠ c) by (intros ->; congruence).
    match goal with |- pending _ _ (poke st' ?x) =>
      pose proof (poke_frame st' x) as (P1 & P2 & P3); apply (pending_ext _ _ x); [done..|]
    end.
    right. exists c, st. simpl. by rewrite list_lookup_insert_ne.
  - destruct (Monitor_Ok _ _ _ _ H) as (tk & pc' & _ & _ & _ & F & _).
    destruct F as (_ & F1 & _ & _ & F2 & F3 & _).
    apply (pending_ext _ _ s); [done..|]. right. by exists c, st.
  - injection H as <-. right. exists c, st. unfold ctx_end.
    by destruct (externs s !! k).
Qed.

Lemma pending_run chname d ops s s' :
  pending chname d s → existsb is_lifecycle ops = false → run ops s = Ok s' →
  pending chname d s'.
Proof.
  revert s. induction ops as [|op ops IH]; intros s Hp; simpl.
  - by intros _ [= <-].
  - intros Hops. apply orb_false_iff in Hops as [H1 H2].
    destruct (step op s) as [s1| |] eqn:E; simpl; try done.
    eauto using pending_step.
Qed.

Lemma run_reachable ops s s' : reachable s → run ops s = Ok s' → reachable s'.
Proof.
  revert s. induction ops as [|op ops IH]; intros s Hr; simpl.
  - by intros [= <-].
  - destruct (step op s) as [s1| |] eqn:E; simpl; try done.
    eauto using reachable_step.
Qed.

(** X8. As long as the reconciler is neither stopped nor restarted, a
    signal that [JoinChannel] handed out as not yet joined stays good: after
    any calls, events and goroutine steps it is either closed, or it is still
    what [JoinChannel] answers for that channel and the next JOIN
    confirmation for the client's own nick closes it. *)
Theorem signal_pending_within_run (s : State) (chname : string) (d : nat)
    (s0 : State) (ops : list Op) (s' : State) :
  reachable s → JoinChannel chname s = Ok (s0, (false, Some d)) →
  existsb is_lifecycle ops = false → run ops s0 = Ok s' →
  is_closed d s' = true ∨
  (JoinChannel chname s' = Ok (s', (false, Some d)) ∧
   ∃ s'', HandleJoin (me s') chname s' = Ok s'' ∧ is_closed d s'' = true).
Proof.
  intros Hr Hj Hops Hrun. pose proof (reachable_inv _ Hr) as Hi.
  destruct (JoinChannel_open_signal _ _ _ _ Hi Hj) as (_ & _ & _ & _ & Hp).
  assert (Hr0 : reachable s0).
  { apply (reachable_step (OpJoinChannel chname) s); [done|]. simpl. by rewrite Hj. }
  pose proof (run_reachable _ _ _ Hr0 Hrun) as Hr'.
  pose proof (reachable_inv _ Hr') as Hi'.
  destruct (pending_run chname d ops s0 s' (or_intror Hp) Hops Hrun)
    as [Hc|(c & st & Hn & Hst & Hd & Hjd)]; [by left|].
  destruct (is_closed d s') eqn:Hc; [by left|]. right.
  destruct (inv_1 _ Hi') as [S1 _]. destruct (S1 _ _ Hst) as [Hlt _].
  rewrite Hd in Hlt.
  assert (Hch : chans s' !! d = Some false).
  { unfold is_closed in Hc. apply lookup_lt_is_Some in Hlt as [b Hb].
    rewrite Hb in Hc |- *. simpl in Hc. by subst b. }
  split.
  - destruct (JoinChannel_registered chname s' c Hi' Hn) as (st' & Hst' & ->).
    assert (st' = st) as -> by congruence. by rewrite Hd, Hc.
  - unfold HandleJoin. destruct (decide (me s' ≠ me s')); [done|]. simpl.
    rewrite Hn. unfold SetJoined, close. simpl. rewrite Hst. simpl. rewrite Hjd. simpl.
    rewrite Hd, Hch. eexists. split; [done|]. unfold is_closed. simpl.
    rewrite list_lookup_insert_eq by done. done.
Qed.

Lemma signal_pending_within_run_witness :
  reachable demo_started ∧
  JoinChannel "#a" demo_started = Ok (demo_started, (false, Some 0)) ∧
  run [OpMonitor 0 EvRun; OpHandleJoin "relay" "#a"; OpHandleKick "relay" "#a";
       OpJoinChannel "#zz"] demo_started = Ok demo_kicked ∧
  (is_closed 0 demo_kicked = true ∨
   (JoinChannel "#a" demo_kicked = Ok (demo_kicked, (false, Some 0)) ∧
    ∃ s'', HandleJoin (me demo_kicked) "#a" demo_kicked = Ok s'' ∧
           is_closed 0 s'' = true)).
Proof.
  assert (H1 : JoinChannel "#a" demo_started = Ok (demo_started, (false, Some 0)))
    by (vm_compute; reflexivity).
  assert (H2 : run [OpMonitor 0 EvRun; OpHandleJoin "relay" "#a";
                    OpHandleKick "relay" "#a"; OpJoinChannel "#zz"] demo_started
               = Ok demo_kicked) by (vm_compute; reflexivity).
  split; [exact reachable_demo_started|]. split; [exact H1|]. split; [exact H2|].
  exact (signal_pending_within_run demo_started "#a" 0 demo_started
           [OpMonitor 0 EvRun; OpHandleJoin "relay" "#a"; OpHandleKick "relay" "#a";
            OpJoinChannel "#zz"] demo_kicked reachable_demo_started H1 eq_refl H2).
Defined.

(** ** The WaitGroup *)

(** X9. In every reachable store the WaitGroup's counter is the number of
    [Monitor] goroutines that have not returned: it is zero, and [Wait]
    returns, exactly when every goroutine ever spawned has returned. *)
Theorem WaitGroup_counts_running_goroutines (s : State) :
  reachable s →
  stopWg s = live (tasks s) ∧
  (stopWg s = 0 ↔ ∀ t tk, tasks s !! t = Some tk → t_pc tk = Exited).
Proof.
  intros Hr. pose proof (inv_4 _ (reachable_inv _ Hr)) as Hw. split; [done|].
  rewrite Hw. split; [intros H t tk; by apply live_0 | apply live_all_exited].
Qed.

Lemma WaitGroup_counts_running_goroutines_witness :
  reachable demo_joined ∧ stopWg demo_joined = 2 ∧
  stopWg demo_joined = live (tasks demo_joined).
Proof.
  split; [exact reachable_demo_joined|]. split; [vm_compute; reflexivity|].
  exact (proj1 (WaitGroup_counts_running_goroutines demo_joined reachable_demo_joined)).
Defined.

(** ** The handlers given to the client *)



(** ** The JOIN confirmation reaches the waiting goroutine *)

Lemma Monitor_JoinWait_facts t ev s s' :
  Monitor t ev s = Ok s' →
  ∃ tk pc', tasks s !! t = Some tk ∧
    tasks s' = <[t := with_pc pc' tk]> (tasks s) ∧
    ∀ d w, pc' = JoinWait d w →
      w = (ircJoinWaitSecs * Second)%Z ∧
      ∃ st, loops s !! t_loop tk = Some st ∧ joinDone st = d.
Proof.
  unfold Monitor, join, monitorJoinUnset, JoinDone, wgDone. intros H.
  destruct (tasks s !! t) as [tk|] eqn:Etk; [|done].
  exists tk.
  pose proof (λ pc, alter_with_pc _ _ _ pc Etk) as Halt.
  destruct (t_pc tk) eqn:Epc, ev; try done; simpl in H;
    split_outcome H;
    try (simpl in H; destruct (stopWg s) eqn:?; simpl in H; try done);
    injection H as <-; eexists; (split; [done|]);
    (split; [simpl; apply Halt|]);
    intros d' w' Hpc; try done; injection Hpc as <- <-; eauto.
Qed.

Lemma inv_wait_update s s' :
  inv_wait s →
  (∀ t tk d w, tasks s' !! t = Some tk → t_pc tk = JoinWait d w →
     (∃ tk0, tasks s !! t = Some tk0 ∧ t_pc tk0 = JoinWait d w ∧
             t_loop tk0 = t_loop tk) ∨
     (w = (ircJoinWaitSecs * Second)%Z ∧ d < length (chans s') ∧
      ∃ st, loops s' !! t_loop tk = Some st ∧ joinDone st = d)) →
  length (chans s) ≤ length (chans s') →
  (∀ d, is_closed d s = true → is_closed d s' = true) →
  (∀ i st, loops s !! i = Some st →
     is_closed (joinDone st) s' = true ∨
     ∃ st', loops s' !! i = Some st' ∧ joinDone st' = joinDone st) →
  inv_wait s'.
Proof.
  intros Hw Ht Hlen Hcl Hl t tk d w Htk Hpc.
  destruct (Ht t tk d w Htk Hpc) as [(tk0 & Htk0 & Hpc0 & El)|(-> & Hd & Hst)];
    [|by eauto].
  destruct (Hw t tk0 d w Htk0 Hpc0) as (-> & Hd & [Hc|(st & Hst & <-)]).
  - split; [done|]. split; [lia|]. left. by apply Hcl.
  - split; [done|]. split; [lia|]. rewrite <- El.
    destruct (Hl _ _ Hst) as [Hc|(st' & Hst' & Hjd)]; [by left|]. right. eauto.
Qed.

Lemma inv_wait_frame s s' :
  inv_wait s → tasks s' = tasks s → loops s' = loops s → chans s' = chans s →
  inv_wait s'.
Proof. unfold inv_wait, is_closed. by intros H -> -> ->. Qed.

Lemma inv_wait_Monitor t ev s s' :
  inv s → inv_wait s → Monitor t ev s = Ok s' → inv_wait s'.
Proof.
  intros Hi Hw H.
  destruct (Monitor_JoinWait_facts _ _ _ _ H) as (tk & pc' & Htk & Hts & Hjw).
  destruct (Monitor_Ok _ _ _ _ H) as (_ & _ & _ & _ & _ & F & _).
  destruct F as (_ & _ & _ & _ & Fl & Fc & _).
  apply (inv_wait_update s); [done| |by rewrite Fc| |].
  - intros i x d w. rewrite Hts. destruct (decide (t = i)) as [->|Hne].
    + rewrite list_lookup_insert_eq by (by eapply lookup_lt_Some).
      intros [= <-] Hpc. simpl in Hpc. right.
      destruct (Hjw d w Hpc) as (-> & st & Hst & Hd). split; [done|].
      destruct (inv_1 _ Hi) as [S1 _]. destruct (S1 _ _ Hst) as [Hlt _].
      rewrite Fc, Fl. simpl. split; [by rewrite <- Hd|]. eauto.
    + rewrite list_lookup_insert_ne by done. intros Hx Hpc. left. eauto.
  - unfold is_closed. by rewrite Fc.
  - intros i st Hst. right. rewrite Fl. eauto.
Qed.

Lemma inv_wait_run_sched sched s s' :
  inv s → inv_wait s → run_sched sched s = Ok s' → inv_wait s'.
Proof.
  revert s. induction sched as [|[t ev] rest IH]; intros s Hi Hw; simpl.
  - by intros [= <-].
  - destruct (Monitor t ev s) eqn:E; [|done|]; eauto using inv_wait_Monitor, inv_Monitor.
Qed.

Lemma inv_wait_SetJoined c s s' :
  inv_wait s → SetJoined c s = Ok s' → inv_wait s'.
Proof.
  intros Hw H. destruct (SetJoined_Ok _ _ _ H) as (st & Hst & [[_ ->]|(_ & Hc & ->)]);
    [done|].
  apply (inv_wait_update s); [done| | | |]; simpl.
  - intros t tk d w Htk Hpc. left. eauto.
  - by rewrite length_insert.
  - intros d Hd. apply is_closed_true. apply is_closed_true in Hd. simpl.
    destruct (decide (joinDone st = d)) as [->|Hne].
    + rewrite list_lookup_insert_eq; [done|]. by eapply lookup_lt_Some.
    + by rewrite list_lookup_insert_ne.
  - intros i x Hx. right. destruct (decide (c = i)) as [->|Hne].
    + rewrite list_lookup_insert_eq by (by eapply lookup_lt_Some).
      assert (x = st) as -> by congruence. eauto.
    + rewrite list_lookup_insert_ne by done. eauto.
Qed.

Lemma inv_wait_UnsetJoined c s s' :
  inv s → inv_wait s → UnsetJoined c s = Ok s' → inv_wait s'.
Proof.
  intros Hi Hw H. destruct (UnsetJoined_Ok _ _ _ H) as (st & Hst & [[_ ->]|(Hj & ->)]);
    [done|].
  destruct (inv_1 _ Hi) as [S1 _]. destruct (S1 _ _ Hst) as [Hlt Hcl].
  rewrite Hj in Hcl.
  match goal with |- inv_wait (poke st ?x) =>
    pose proof (poke_frame st x) as (_ & P2 & P3); set (s2 := x) in *
  end.
  apply (inv_wait_update s); [done| | | |].
  - intros t tk d w Htk Hpc. left. unfold poke in Htk.
    destruct (poke_tasks _ (tasks s2)) as [ts|] eqn:E; [|eauto].
    destruct (poke_tasks_Some _ _ _ E) as (i & tk0 & Hi0 & _ & ->).
    simpl in Htk. destruct (decide (i = t)) as [->|Hne].
    + rewrite list_lookup_insert_eq in Htk by (by eapply lookup_lt_Some).
      injection Htk as <-. done.
    + rewrite list_lookup_insert_ne in Htk by done. eauto.
  - rewrite P3. simpl. rewrite length_app. lia.
  - intros d Hd. unfold is_closed in *. rewrite P3. simpl.
    destruct (chans s !! d) eqn:E; [|done]. by rewrite (lookup_app_l_Some _ _ _ _ E).
  - intros i x Hx. rewrite P2. simpl. destruct (decide (c = i)) as [->|Hne].
    + left. assert (x = st) as -> by congruence.
      unfold is_closed in *. rewrite P3. simpl.
      destruct (chans s !! joinDone st) eqn:E; [|done].
      by rewrite (lookup_app_l_Some _ _ _ _ E).
    + right. rewrite list_lookup_insert_ne by done. eauto.
Qed.

Lemma inv_wait_unsafeAddChannel ch s :
  inv_wait s → inv_wait (unsafeAddChannel ch s).2.
Proof.
  intros Hw. rewrite unsafeAddChannel_eq. apply (inv_wait_update s); [done| | | |];
    cbn [snd chans channels loops tasks set_channels set_tasks set_stopWg set_loops
         set_chans].
  - intros t tk d w Htk Hpc. left.
    apply lookup_app_Some in Htk as [Htk|[_ Htk]]; [eauto|].
    apply list_lookup_singleton_Some in Htk as [_ <-]. done.
  - rewrite !length_app. lia.
  - intros d Hd. unfold is_closed in *. simpl.
    destruct (chans s !! d) eqn:E; [|done].
    by rewrite (lookup_app_l_Some _ _ _ _ (lookup_app_l_Some _ _ _ _ E)).
  - intros i x Hx. right. exists x. split; [by apply lookup_app_l_Some | done].
Qed.

Lemma inv_wait_add_all chs s : inv_wait s → inv_wait (add_all chs s).
Proof.
  unfold add_all. revert s. induction chs as [|ch chs IH]; intros s H; cbn [foldl];
    [done|]. apply IH. by apply inv_wait_unsafeAddChannel.
Qed.

Lemma inv_wait_unsafeStop sched s s' :
  inv s → inv_wait s → unsafeStop sched s = Ok s' → inv_wait s'.
Proof.
  intros Hi Hw H.
  destruct (unsafeStop_Ok _ _ _ H) as [[_ ->]|(c & s1 & _ & Hr & _ & ->)]; [done|].
  pose proof (cancel_fields c s) as (_&_&_&_&El&Ec&Et&_).
  assert (H0 : inv_wait (cancel c s)) by (by apply (inv_wait_frame s)).
  pose proof (inv_wait_run_sched _ _ _ (inv_cancel c s Hi) H0 Hr) as H1.
  by apply (inv_wait_frame s1).
Qed.

Lemma inv_wait_step op s s' :
  inv s → inv_wait s → step op s = Ok s' → inv_wait s'.
Proof.
  intros Hi Hw. destruct op; simpl.
  - intros H. destruct (Start_Ok _ _ _ _ H) as (p & s1 & _ & Hs & ->).
    apply inv_wait_add_all. apply (inv_wait_frame s1); [|done..].
    by eapply inv_wait_unsafeStop.
  - by apply inv_wait_unsafeStop.
  - destruct (JoinChannel chname s) as [r| |] eqn:E; simpl; try done.
    intros [= <-]. rewrite (JoinChannel_Ok _ _ _ E).
    destruct (channels s !! chname); [done|].
    apply inv_wait_unsafeAddChannel. by apply (inv_wait_frame s).
  - unfold HandleJoin. destruct (decide (nick ≠ me s)); [by intros [= <-]|].
    simpl. destruct (channels s !! chname).
    + apply inv_wait_SetJoined. by apply (inv_wait_frame s).
    + intros [= <-]. by apply (inv_wait_frame s).
  - unfold HandleKick. destruct (decide (nick ≠ me s)); [by intros [= <-]|].
    simpl. destruct (channels s !! chname).
    + apply inv_wait_UnsetJoined; [by apply inv_Printf | by apply (inv_wait_frame s)].
    + intros [= <-]. by apply (inv_wait_frame s).
  - by apply inv_wait_Monitor.
  - intros [= <-]. apply (inv_wait_frame s); [done|..]; unfold ctx_end;
      by destruct (externs s !! k).
Qed.

Lemma reachable_inv_wait s : reachable s → inv_wait s.
Proof.
  intros (config & nick & ops & H). revert H.
  assert (H0 : inv_wait (NewChannelReconciler config nick)).
  { intros t tk d w. simpl. by rewrite lookup_nil. }
  pose proof (inv_init config nick) as Hi0.
  revert H0 Hi0. generalize (NewChannelReconciler config nick).
  induction ops as [|op ops IH]; intros s0 H0 Hi0; simpl.
  - by intros [= <-].
  - destruct (step op s0) as [s1| |] eqn:E; simpl; try done.
    apply IH; [by eapply inv_wait_step | by eapply inv_step].
Qed.

(** X11. A JOIN confirmation is never missed.  In every reachable store, a
    goroutine in the select of [join] waits for the ten-second window on a
    signal that is already closed or is the current signal of its loop; so
    once [HandleJoin] has run for the client's own nick and the loop's
    channel, the goroutine's receive on the signal is enabled, it returns to
    the loop head, and its loop is joined. *)
Theorem join_confirmation_reaches_goroutine (s : State) (chname : string)
    (c : nat) (tk : Task) (d : nat) (w : Z) :
  reachable s → channels s !! chname = Some c →
  tasks s !! c = Some tk → t_pc tk = JoinWait d w →
  w = (ircJoinWaitSecs * Second)%Z ∧
  ∃ s1 s2 st2 msg,
    HandleJoin (me s) chname s = Ok s1 ∧
    Monitor c EvJoinDone s1 = Ok s2 ∧
    tasks s2 = <[c := with_pc LoopHead tk]> (tasks s) ∧
    loops s2 !! c = Some st2 ∧ joined st2 = true ∧
    logs s2 = logs s1 ++ [msg].
Proof.
  intros Hr Hn Htk Hpc. pose proof (reachable_inv _ Hr) as Hi.
  destruct (reachable_inv_wait _ Hr _ _ _ _ Htk Hpc) as (-> & Hd & Hor).
  split; [done|].
  destruct (inv_2 _ Hi _ _ Hn) as (st & Hst & _).
  destruct (inv_3 _ Hi) as [_ T2]. pose proof (T2 _ _ Htk) as Hloop.
  rewrite Hloop in Hor.
  destruct (inv_1 _ Hi) as [S1 _]. destruct (S1 _ _ Hst) as [_ Hcl].
  set (s0 := Printf ("Received JOIN confirmation for channel " +:+ chname) s).
  destruct (SetJoined_returns s0 c (inv_Printf _ s Hi)) as [s1 H1]; [by exists st|].
  assert (HJ : HandleJoin (me s) chname s = Ok s1).
  { unfold HandleJoin. destruct (decide (me s ≠ me s)); [done|]. simpl. by rewrite Hn. }
  assert (Hfacts : tasks s1 = tasks s ∧ is_closed d s1 = true ∧
            ∃ st1, loops s1 !! c = Some st1 ∧ joined st1 = true).
  { destruct (SetJoined_Ok _ _ _ H1) as (st' & Hst' & [[Hj ->]|(Hj & Hc & ->)]);
      simpl in Hst'; assert (st' = st) as -> by congruence.
    - split; [done|]. split; [|by exists st].
      destruct Hor as [?|(x & Hx & <-)]; [done|].
      assert (x = st) as -> by congruence. change (is_closed (joinDone st) s = true).
      by rewrite Hcl.
    - split; [done|]. split.
      + apply is_closed_true. simpl.
        destruct Hor as [Hc'|(x & Hx & <-)].
        * apply is_closed_true in Hc'.
          destruct (decide (joinDone st = d)) as [->|Hne].
          -- rewrite list_lookup_insert_eq; [done|]. by eapply lookup_lt_Some.
          -- by rewrite list_lookup_insert_ne.
        * assert (x = st) as -> by congruence.
          rewrite list_lookup_insert_eq; [done|]. by eapply lookup_lt_Some.
      + exists (with_joined true st). simpl.
        rewrite list_lookup_insert_eq by (by eapply lookup_lt_Some). done. }
  destruct Hfacts as (Et & Hc1 & st1 & Hst1 & Hj1).
  exists s1. eexists. exists st1. eexists. split; [done|].
  unfold Monitor, join. rewrite Et, Htk, Hpc, Hloop, Hst1. simpl. rewrite Hc1.
  split; [reflexivity|]. simpl. rewrite Et.
  split; [by apply alter_with_pc|]. done.
Qed.

Lemma reachable_demo_waiting : reachable demo_waiting.
Proof.
  exists demo_config, "relay",
    [OpStart (Some 0) []; OpMonitor 0 EvRun; OpMonitor 0 EvDelayElapsed;
     OpMonitor 0 EvRun].
  vm_compute. reflexivity.
Qed.

Lemma join_confirmation_reaches_goroutine_witness :
  reachable demo_waiting ∧ channels demo_waiting !! "#a" = Some 0 ∧
  (∃ tk, tasks demo_waiting !! 0 = Some tk ∧ t_pc tk = JoinWait 0 10000000000) ∧
  ∃ s1 s2, HandleJoin "relay" "#a" demo_waiting = Ok s1 ∧
           Monitor 0 EvJoinDone s1 = Ok s2.
Proof.
  assert (Hn : channels demo_waiting !! "#a" = Some 0) by (vm_compute; reflexivity).
  assert (Htk : tasks demo_waiting !! 0 =
                Some {| t_loop := 0; t_scope := Some (CancelCtx 0 (Extern 0));
                        t_pc := JoinWait 0 10000000000 |})
    by (vm_compute; reflexivity).
  split; [exact reachable_demo_waiting|]. split; [exact Hn|].
  split; [eexists; split; [exact Htk | reflexivity]|].
  destruct (join_confirmation_reaches_goroutine demo_waiting "#a" 0 _ 0 _
              reachable_demo_waiting Hn Htk eq_refl)
    as (_ & s1 & s2 & _ & _ & H1 & H2 & _).
  exists s1, s2. split; [exact H1 | exact H2].
Defined.

(** ** A scope that ended by a deadline *)

Lemma run_sched_deadline_live sched s s1 t tk c :
  tasks s !! t = Some tk → t_scope tk = Some c → t_pc tk ≠ Exited →
  Err c s = Some DeadlineExceeded → run_sched sched s = Ok s1 →
  ∃ tk1, tasks s1 !! t = Some tk1 ∧ t_pc tk1 ≠ Exited.
Proof.
  revert s tk. induction sched as [|[t' ev] rest IH]; intros s tk Htk Hc Hpc He; simpl.
  - intros [= <-]. eauto.
  - destruct (Monitor t' ev s) as [s'| |] eqn:E; [|done|by eauto].
    destruct (Monitor_Ok _ _ _ _ E) as (tk0 & pc' & Htk0 & _ & Hts & F & _).
    pose proof (Err_frame _ _ c F) as He'. rewrite He in He'.
    destruct (decide (t' = t)) as [->|Hne].
    + assert (tk0 = tk) as -> by congruence.
      assert (Htk' : tasks s' !! t = Some (with_pc pc' tk)).
      { rewrite Hts. apply list_lookup_insert_eq. by eapply lookup_lt_Some. }
      apply (IH s' (with_pc pc' tk)); [done..| |done].
      by apply (Monitor_deadline_no_return s t tk c ev s').
    + apply (IH s' tk); [|done..]. rewrite Hts. by rewrite list_lookup_insert_ne.
Qed.

(** X12. When the scope of the current run ended by a deadline of the
    caller's context and not by cancellation, [Stop] and [Start] never return
    while a goroutine of that run is alive: under no schedule does any
    goroutine pass the loop test, which compares with [Canceled] only, and
    the cancel function comes too late to change the scope's error. *)
Theorem Stop_never_returns_after_deadline (s : State) (c : Context) (t : nat)
    (tk : Task) (sched : list (nat * Event)) :
  reachable s → stopCtxCancel s = Some c → Err c s = Some DeadlineExceeded →
  tasks s !! t = Some tk → t_scope tk = Some c → t_pc tk ≠ Exited →
  (∀ s', Stop sched s ≠ Ok s') ∧ (∀ parent s', Start parent sched s ≠ Ok s').
Proof.
  intros Hr Hc He Htk Hsc Hpc. pose proof (reachable_inv _ Hr) as Hi.
  assert (Hstop : ∀ s', unsafeStop sched s ≠ Ok s').
  { intros s' H.
    destruct (unsafeStop_Ok _ _ _ H) as [[Hn _]|(c' & s1 & Hc' & Hrun & Hw & _)];
      [congruence|].
    assert (c' = c) as -> by congruence.
    assert (Hcan : cancel c s = s).
    { destruct c as [k|k p]; [done|]. unfold cancel. by rewrite He. }
    rewrite Hcan in Hrun.
    destruct (run_sched_deadline_live _ _ _ _ _ _ Htk Hsc Hpc He Hrun)
      as (tk1 & Htk1 & Hpc1).
    pose proof (inv_4 _ (run_sched_inv _ _ _ Hi Hrun)) as Hwg.
    pose proof (live_pos _ _ _ Htk1 Hpc1). unfold inv_wg in Hwg. lia. }
  split; [exact Hstop|].
  intros parent s' H. destruct (Start_Ok _ _ _ _ H) as (p & s1 & _ & Hs & _).
  by apply (Hstop s1).
Qed.

Lemma reachable_demo_deadline : reachable demo_deadline.
Proof.
  exists demo_config, "relay", [OpStart (Some 0) []; OpCtxEnd 0 DeadlineExceeded].
  vm_compute. reflexivity.
Qed.

Lemma Stop_never_returns_after_deadline_witness :
  reachable demo_deadline ∧
  stopCtxCancel demo_deadline = Some (CancelCtx 0 (Extern 0)) ∧
  Err (CancelCtx 0 (Extern 0)) demo_deadline = Some DeadlineExceeded ∧
  tasks demo_deadline !! 0 =
    Some {| t_loop := 0; t_scope := Some (CancelCtx 0 (Extern 0)); t_pc := LoopHead |} ∧
  Stop (drain 2) demo_deadline ≠ Ok demo_deadline ∧
  Stop (drain 2) demo_deadline = Blocked.
Proof.
  assert (H1 : stopCtxCancel demo_deadline = Some (CancelCtx 0 (Extern 0)))
    by (vm_compute; reflexivity).
  assert (H2 : Err (CancelCtx 0 (Extern 0)) demo_deadline = Some DeadlineExceeded)
    by (vm_compute; reflexivity).
  assert (H3 : tasks demo_deadline !! 0 =
            Some {| t_loop := 0; t_scope := Some (CancelCtx 0 (Extern 0));
                    t_pc := LoopHead |}) by (vm_compute; reflexivity).
  split; [exact reachable_demo_deadline|]. split; [exact H1|]. split; [exact H2|].
  split; [exact H3|].
  destruct (Stop_never_returns_after_deadline demo_deadline _ 0 _ (drain 2)
              reachable_demo_deadline H1 H2 H3 eq_refl) as [H _]; [done|].
  split; [exact (H demo_deadline)|]. vm_compute. reflexivity.
Defined.
